(** * Chunked semantic memory store (jarvis/memory.py)

    A shallow embedding of [chunk_text] and of the [MemoryManager] class
    ([_load], [_save], [save], [search], [get_all], [delete]) together with
    the properties the design documentation states about them.

    Modelling conventions.
    - A Python [str] is a list of characters; characters are the code points
      0..255 ([ascii]).  [len] and every index are Python integers ([Z]).
    - A float is an exact rational ([Q]): comparisons and the dot product are
      exact, rounding and NaN are outside the model.
    - A pandas table is the list of its rows, in row order.
    - A numpy 2-D array is the list of its rows together with its column
      count (so that the shape [(0, EMBEDDING_DIM)] is distinguished).
    - The object [self] is a record threaded through every method; a method
      returns the new [self] and either a value or the exception raised.
    - The embedding service is an oracle indexed by the number of calls made
      so far, so that two calls may answer differently; the manager counts
      its calls. *)

From Stdlib Require Import Ascii String.
From Stdlib Require Import List Bool Arith ZArith QArith Lia.
From Stdlib Require Import Permutation Sorted.
Import ListNotations.

Open Scope Z_scope.

(** ** Python strings *)

Module Py.

Definition str := list ascii.

Definition lit (s : string) : str := list_ascii_of_string s.

Definition len {A : Type} (l : list A) : Z := Z.of_nat (length l).

(** [str.isspace] on one character, which is also what [\s] matches in a
    [str] pattern: TAB LF VT FF CR, FS GS RS US, SPACE, NEL and NBSP. *)
Definition isspace (c : ascii) : bool :=
  let n := Z.of_nat (nat_of_ascii c) in
  ((9 <=? n) && (n <=? 13)) || ((28 <=? n) && (n <=? 32))
  || (n =? 133) || (n =? 160).

(** [s.lstrip()], [s.rstrip()] and [s.strip()]. *)
Fixpoint lstrip (s : str) : str :=
  match s with
  | [] => []
  | c :: r => if isspace c then lstrip r else s
  end.

Definition rstrip (s : str) : str := rev (lstrip (rev s)).

Definition strip (s : str) : str := rstrip (lstrip s).

(** [s.find(ch)]: index of the first occurrence, or -1. *)
Fixpoint find (ch : ascii) (s : str) : Z :=
  match s with
  | [] => -1
  | c :: r =>
      if Ascii.eqb c ch then 0
      else let i := find ch r in if i <? 0 then -1 else i + 1
  end.

(** [s[-k:]] for [k > 0]: the last [k] characters, all of [s] when it is
    shorter. *)
Definition last_chars (k : Z) (s : str) : str :=
  skipn (length s - Z.to_nat k)%nat s.

(** [s[i:]] for [i >= 0]. *)
Definition slice_from (i : Z) (s : str) : str := skipn (Z.to_nat i) s.

(** Truth value of a string. *)
Definition truthy (s : str) : bool :=
  match s with [] => false | _ => true end.

End Py.

Import Py.

(** ** Sentence splitting: [re.split(r'(?<=[.!?\n])\s+', text)] *)

(** The look-behind class [[.!?\n]]. *)
Definition sentence_end (c : ascii) : bool :=
  Ascii.eqb c "."%char || Ascii.eqb c "!"%char || Ascii.eqb c "?"%char
  || Ascii.eqb c "010"%char.

Definition cons_head (c : ascii) (ps : list str) : list str :=
  match ps with
  | [] => [[c]]
  | p :: r => (c :: p) :: r
  end.

(** One left-to-right scan.  [after_end]: the previous character is in the
    look-behind class.  [in_sep]: the scan is inside a separator match, which
    [\s+] extends greedily.  The head of the result is the piece being
    built; a separator that reaches the end of the text leaves a last empty
    piece, as [re.split] does. *)
Fixpoint split_scan (after_end in_sep : bool) (s : str) : list str :=
  match s with
  | [] => [[]]
  | c :: r =>
      if isspace c && (in_sep || after_end) then
        if in_sep then split_scan (sentence_end c) true r
        else [] :: split_scan (sentence_end c) true r
      else cons_head c (split_scan (sentence_end c) false r)
  end.

Definition re_split (text : str) : list str := split_scan false false text.

(** ** [chunk_text] *)

Definition CHUNK_SIZE : Z := 250.
Definition CHUNK_OVERLAP : Z := 50.

(** The overlap seed computed when a buffer longer than [overlap] is closed
    (lines 40-44). *)
Definition overlap_seed (overlap : Z) (current_chunk : str) : str :=
  let overlap_text := last_chars overlap current_chunk in
  let space_idx := find " "%char overlap_text in
  if space_idx >? 0 then slice_from (space_idx + 1) overlap_text
  else overlap_text.

(** The condition of line 35. *)
Definition closes (chunk_size : Z) (current_chunk sentence : str) : bool :=
  (len current_chunk + len sentence >? chunk_size) && truthy current_chunk.

(** The body of the [for] loop, on the pair [(chunks, current_chunk)]. *)
Definition chunk_step (chunk_size overlap : Z)
    (st : list str * str) (sentence : str) : list str * str :=
  let '(chunks, current_chunk) := st in
  if closes chunk_size current_chunk sentence then
    let chunks := chunks ++ [strip current_chunk] in
    if (overlap >? 0) && (len current_chunk >? overlap) then
      (chunks, overlap_seed overlap current_chunk ++ " "%char :: sentence)
    else (chunks, sentence)
  else
    (chunks,
     if truthy current_chunk then strip (current_chunk ++ " "%char :: sentence)
     else sentence).

Definition chunk_loop (chunk_size overlap : Z)
    (st : list str * str) (sentences : list str) : list str * str :=
  fold_left (chunk_step chunk_size overlap) sentences st.

Definition chunk_text (text : str) (chunk_size overlap : Z) : list str :=
  if len text <=? chunk_size then [text]
  else
    let '(chunks, current_chunk) :=
      chunk_loop chunk_size overlap ([], []) (re_split text) in
    let chunks :=
      if truthy (strip current_chunk) then chunks ++ [strip current_chunk]
      else chunks in
    match chunks with [] => [text] | _ => chunks end.

(** ** numpy arrays *)

Module Np.

(** A 1-D float array. *)
Definition vec := list Q.

(** A 2-D float array of shape [(length rows, ncols)]. *)
Record ndarray := mk_ndarray { rows : list vec; ncols : nat }.

(** [np.zeros((0, d))]. *)
Definition zeros0 (d : nat) : ndarray := mk_ndarray [] d.

(** [np.vstack(vs)] on a sequence of 1-D arrays: [None] is the [ValueError]
    raised on an empty sequence or on rows of different lengths. *)
Definition vstack (vs : list vec) : option ndarray :=
  match vs with
  | [] => None
  | v :: r =>
      if forallb (fun w => Nat.eqb (length w) (length v)) r
      then Some (mk_ndarray vs (length v))
      else None
  end.

(** [np.vstack([a, b])] on two 2-D arrays. *)
Definition vstack2 (a b : ndarray) : option ndarray :=
  if Nat.eqb (ncols a) (ncols b)
  then Some (mk_ndarray (rows a ++ rows b) (ncols a))
  else None.

Fixpoint dot (u v : vec) : Q :=
  match u, v with
  | x :: u', y :: v' => (x * y + dot u' v')%Q
  | _, _ => 0%Q
  end.

(** [a @ q] for a 2-D [a] and a 1-D [q]: [None] is the [ValueError] raised
    on a shape mismatch. *)
Definition matvec (a : ndarray) (q : vec) : option (list Q) :=
  if Nat.eqb (ncols a) (length q)
  then Some (map (fun r => dot r q) (rows a))
  else None.

End Np.

Import Np.

(** ** Tables and the manager object *)

Definition EMBEDDING_DIM : nat := 3072.
Definition SIMILARITY_THRESHOLD : Q := 3 # 10.
Definition MIN_RESULTS : Z := 3.

(** A row of the memories table: columns [id], [content], [created_at]. *)
Record MemoryRow := mk_memory
  { m_id : str; m_content : str; m_created_at : str }.

(** A row of the chunks table: columns [memory_id], [chunk_index],
    [chunk_text], [embedding]. *)
Record ChunkRow := mk_chunk
  { c_memory_id : str; c_chunk_index : Z; c_chunk_text : str;
    c_embedding : vec }.

(** The [input=] argument of [client.embeddings.create]. *)
Inductive embed_input :=
| One (text : str)
| Many (texts : list str).

(** [self] together with the data directory it owns.  [memories_file] and
    [chunks_file] are the contents of the two parquet files ([None]: the file
    does not exist).  [client n input] is what the [n]-th call of
    [self.client.embeddings.create] answers: the vectors of [response.data],
    or [None] when the call raises. *)
Record MemoryManager := mk_manager
  { memories_file : option (list MemoryRow);
    chunks_file : option (list ChunkRow);
    client : nat -> embed_input -> option (list vec);
    client_calls : nat;
    _memories : option (list MemoryRow);
    _chunks : option (list ChunkRow);
    _chunk_embeddings : option ndarray }.

(** [MemoryManager(data_dir)] over a data directory with the given files. *)
Definition init (mf : option (list MemoryRow)) (cf : option (list ChunkRow))
    (cl : nat -> embed_input -> option (list vec)) : MemoryManager :=
  mk_manager mf cf cl 0 None None None.

Definition set_memories_file v (s : MemoryManager) :=
  mk_manager v (chunks_file s) (client s) (client_calls s)
             (_memories s) (_chunks s) (_chunk_embeddings s).
Definition set_chunks_file v (s : MemoryManager) :=
  mk_manager (memories_file s) v (client s) (client_calls s)
             (_memories s) (_chunks s) (_chunk_embeddings s).
Definition set_client_calls v (s : MemoryManager) :=
  mk_manager (memories_file s) (chunks_file s) (client s) v
             (_memories s) (_chunks s) (_chunk_embeddings s).
Definition set_memories v (s : MemoryManager) :=
  mk_manager (memories_file s) (chunks_file s) (client s) (client_calls s)
             v (_chunks s) (_chunk_embeddings s).
Definition set_chunks v (s : MemoryManager) :=
  mk_manager (memories_file s) (chunks_file s) (client s) (client_calls s)
             (_memories s) v (_chunk_embeddings s).
Definition set_chunk_embeddings v (s : MemoryManager) :=
  mk_manager (memories_file s) (chunks_file s) (client s) (client_calls s)
             (_memories s) (_chunks s) v.

(** ** Methods as state-and-exception computations *)

Inductive exn :=
| EmbeddingProviderError
| ValueError
| IndexError
| TypeError
| AttributeError.

Inductive result (A : Type) :=
| Ok (a : A)
| Raise (e : exn).
Arguments Ok {A} a.
Arguments Raise {A} e.

Definition M (A : Type) : Type := MemoryManager -> MemoryManager * result A.

Definition ret {A} (a : A) : M A := fun s => (s, Ok a).
Definition raise {A} (e : exn) : M A := fun s => (s, Raise e).
Definition bind {A B} (m : M A) (k : A -> M B) : M B :=
  fun s =>
    match m s with
    | (s', Ok a) => k a s'
    | (s', Raise e) => (s', Raise e)
    end.
Definition get {A} (f : MemoryManager -> A) : M A := fun s => (s, Ok (f s)).
Definition modify (f : MemoryManager -> MemoryManager) : M unit :=
  fun s => (f s, Ok tt).

(** Reading an attribute that must not be [None]. *)
Definition get_some {A} (f : MemoryManager -> option A) (e : exn) : M A :=
  fun s => match f s with Some a => (s, Ok a) | None => (s, Raise e) end.

(** A numpy or pandas call that may raise. *)
Definition lift {A} (o : option A) (e : exn) : M A :=
  match o with Some a => ret a | None => raise e end.

Notation "x <- m ;; k" := (bind m (fun x => k))
  (at level 61, m at next level, right associativity).
Notation "m ;;; k" := (bind m (fun _ => k))
  (at level 61, right associativity).

(** ** String comparison, as pandas uses it on the [id] columns *)

Fixpoint str_eqb (a b : str) : bool :=
  match a, b with
  | [], [] => true
  | x :: a', y :: b' => Ascii.eqb x y && str_eqb a' b'
  | _, _ => false
  end.

(** [a <= b]: lexicographic on code points. *)
Fixpoint str_leb (a b : str) : bool :=
  match a, b with
  | [], _ => true
  | _ :: _, [] => false
  | x :: a', y :: b' =>
      if Ascii.eqb x y then str_leb a' b'
      else (nat_of_ascii x <? nat_of_ascii y)%nat
  end.

(** ** Loading and persisting *)

Definition or_empty {A} (o : option (list A)) : list A :=
  match o with Some l => l | None => [] end.

(** [pd.concat([df, new], ignore_index=True)]; a [None] in the list is
    dropped. *)
Definition pd_concat {A} (df : option (list A)) (new : list A) : list A :=
  or_empty df ++ new.

Definition _load : M unit :=
  ms <- get _memories ;;
  match ms with
  | Some _ => ret tt
  | None =>
      mf <- get memories_file ;;
      modify (set_memories (Some (or_empty mf))) ;;;
      cf <- get chunks_file ;;
      match cf with
      | Some cs =>
          modify (set_chunks (Some cs)) ;;;
          if len cs >? 0 then
            m <- lift (vstack (map c_embedding cs)) ValueError ;;
            modify (set_chunk_embeddings (Some m))
          else modify (set_chunk_embeddings (Some (zeros0 EMBEDDING_DIM)))
      | None =>
          modify (set_chunks (Some [])) ;;;
          modify (set_chunk_embeddings (Some (zeros0 EMBEDDING_DIM)))
      end
  end.

Definition _save : M unit :=
  ms <- get_some _memories AttributeError ;;
  modify (set_memories_file (Some ms)) ;;;
  cs <- get_some _chunks AttributeError ;;
  modify (set_chunks_file (Some cs)).

(** ** The embedding service *)

Definition embeddings_create (input : embed_input) : M (list vec) :=
  fun s =>
    let s' := set_client_calls (S (client_calls s)) s in
    match client s (client_calls s) input with
    | Some data => (s', Ok data)
    | None => (s', Raise EmbeddingProviderError)
    end.

Definition _embed (text : str) : M vec :=
  data <- embeddings_create (One text) ;;
  lift (nth_error data 0) IndexError.

Definition _embed_batch (texts : list str) : M (list vec) :=
  embeddings_create (Many texts).

(** ** [save] *)

(** [enumerate(zip(chunks, embeddings))] turned into chunk rows, counting
    from [i]. *)
Fixpoint new_chunk_rows (memory_id : str) (i : Z)
    (chunks : list str) (embeddings : list vec) : list ChunkRow :=
  match chunks, embeddings with
  | chunk :: chunks', emb :: embeddings' =>
      mk_chunk memory_id i chunk emb
      :: new_chunk_rows memory_id (i + 1) chunks' embeddings'
  | _, _ => []
  end.

(** [save(content)].  The two readings of [datetime.now()] are inputs:
    [memory_id] is the formatted first reading and [created_at] the ISO
    form of the second. *)
Definition save (memory_id created_at content : str) : M str :=
  _load ;;;
  ms <- get _memories ;;
  modify (set_memories
            (Some (pd_concat ms [mk_memory memory_id content created_at]))) ;;;
  let chunks := chunk_text content CHUNK_SIZE CHUNK_OVERLAP in
  embeddings <- _embed_batch chunks ;;
  cs <- get _chunks ;;
  modify (set_chunks
            (Some (pd_concat cs (new_chunk_rows memory_id 0 chunks embeddings)))) ;;;
  new_emb_matrix <- lift (vstack embeddings) ValueError ;;
  old <- get_some _chunk_embeddings TypeError ;;
  (if len (rows old) >? 0 then
     m <- lift (vstack2 old new_emb_matrix) ValueError ;;
     modify (set_chunk_embeddings (Some m))
   else modify (set_chunk_embeddings (Some new_emb_matrix))) ;;;
  _save ;;;
  ret memory_id.

(** ** [get_all] and [delete] *)

Definition get_all : M (list MemoryRow) :=
  _load ;;;
  ms <- get_some _memories TypeError ;;
  ret (if len ms >? 0 then ms else []).

Definition delete (memory_id : str) : M bool :=
  _load ;;;
  ms <- get_some _memories TypeError ;;
  if negb (existsb (fun m => str_eqb (m_id m) memory_id) ms) then ret false
  else
    modify (set_memories
              (Some (filter (fun m => negb (str_eqb (m_id m) memory_id)) ms))) ;;;
    cs <- get_some _chunks TypeError ;;
    let cs' := filter (fun c => negb (str_eqb (c_memory_id c) memory_id)) cs in
    modify (set_chunks (Some cs')) ;;;
    (if len cs' >? 0 then
       m <- lift (vstack (map c_embedding cs')) ValueError ;;
       modify (set_chunk_embeddings (Some m))
     else modify (set_chunk_embeddings (Some (zeros0 EMBEDDING_DIM)))) ;;;
    _save ;;;
    ret true.

(** ** [search] *)

(** An entry of the list [search] returns: keys [id], [content],
    [similarity], [created_at]. *)
Record SearchResult := mk_result
  { r_id : str; r_content : str; r_similarity : Q; r_created_at : str }.

Definition qmax (a b : Q) : Q := if Qle_bool a b then b else a.

(** [groupby("memory_id")["similarity"].max()]: one entry per distinct key,
    holding the largest value seen for it. *)
Fixpoint group_insert (k : str) (s : Q) (groups : list (str * Q))
  : list (str * Q) :=
  match groups with
  | [] => [(k, s)]
  | (k', s') :: r =>
      if str_eqb k' k then (k', qmax s' s) :: r
      else (k', s') :: group_insert k s r
  end.

Definition group_max (scored : list (str * Q)) : list (str * Q) :=
  fold_left (fun g r => group_insert (fst r) (snd r) g) scored [].

Fixpoint insert_by {A} (leb : A -> A -> bool) (x : A) (l : list A) : list A :=
  match l with
  | [] => [x]
  | y :: r => if leb x y then x :: l else y :: insert_by leb x r
  end.

Definition sort_by {A} (leb : A -> A -> bool) (l : list A) : list A :=
  fold_right (insert_by leb) [] l.

(** [groupby] returns its groups in ascending key order; [reset_index]
    turns the keys back into a column. *)
Definition groupby_max (chunks : list ChunkRow) (similarities : list Q)
  : list (str * Q) :=
  sort_by (fun a b => str_leb (fst a) (fst b))
          (group_max (combine (map c_memory_id chunks) similarities)).

(** The [for] loop of lines 172-186, [results] being the list built so
    far; the [else] branch is the [break]. *)
Fixpoint walk (memories : list MemoryRow) (threshold : Q) (min_results : Z)
    (best_per_memory : list (str * Q)) (results : list SearchResult)
  : result (list SearchResult) :=
  match best_per_memory with
  | [] => Ok results
  | (memory_id, sim) :: rest =>
      if Qle_bool threshold sim || (len results <? min_results) then
        match filter (fun m => str_eqb (m_id m) memory_id) memories with
        | memory :: _ =>
            walk memories threshold min_results rest
                 (results ++ [mk_result memory_id (m_content memory) sim
                                        (m_created_at memory)])
        | [] => Raise IndexError
        end
      else Ok results
  end.

(** What [sort_values("similarity", ascending=False)] guarantees: the rows
    are rearranged into non-increasing similarity.  The default sort kind
    is not stable, so the order of rows of equal similarity is left open. *)
Record sorts_descending (sort_values : list (str * Q) -> list (str * Q))
  : Prop :=
  { sort_values_perm : forall l, Permutation l (sort_values l);
    sort_values_sorted :
      forall l, StronglySorted (fun a b => (snd b <= snd a)%Q) (sort_values l) }.

(** A sort that meets it: stable insertion sort. *)
Definition stable_sort_values (l : list (str * Q)) : list (str * Q) :=
  sort_by (fun a b => Qle_bool (snd b) (snd a)) l.

Section Search.

Variable sort_values : list (str * Q) -> list (str * Q).

Definition search (query : str) (threshold : Q) (min_results : Z)
  : M (list SearchResult) :=
  _load ;;;
  cs <- get_some _chunks TypeError ;;
  if len cs =? 0 then ret []
  else
    query_embedding <- _embed query ;;
    m <- get_some _chunk_embeddings ValueError ;;
    similarities <- lift (matvec m query_embedding) ValueError ;;
    (if Nat.eqb (length similarities) (length cs) then ret tt
     else raise ValueError) ;;;
    let best_per_memory := sort_values (groupby_max cs similarities) in
    ms <- get_some _memories TypeError ;;
    fun s => (s, walk ms threshold min_results best_per_memory []).

End Search.

Arguments chunk_text : simpl never.

(** ** Sequences of mutating calls *)

Inductive op :=
| Save (memory_id created_at content : str)
| Delete (memory_id : str).

Definition run_op (s : MemoryManager) (o : op) : MemoryManager :=
  match o with
  | Save memory_id created_at content =>
      fst (save memory_id created_at content s)
  | Delete memory_id => fst (delete memory_id s)
  end.

Definition run (ops : list op) (s : MemoryManager) : MemoryManager :=
  fold_left run_op ops s.

(** The tables as the next method call sees them: every public method
    starts with [_load]. *)
Definition view (s : MemoryManager) : MemoryManager := fst (_load s).

(** The interface the embedding service is used through: a batch call that
    returns gives one vector per input text, each of the fixed dimension
    [d]. *)
Definition provider_ok (d : nat)
    (cl : nat -> embed_input -> option (list vec)) : Prop :=
  forall n texts data,
    cl n (Many texts) = Some data ->
    length data = length texts /\ Forall (fun v => length v = d) data.

Definition dim_ok (d : nat) (cs : list ChunkRow) : Prop :=
  Forall (fun c => length (c_embedding c) = d) cs.

(** The embedding-matrix invariant of the data model. *)
Definition index_consistent (s : MemoryManager) : Prop :=
  exists cs m,
    _chunks s = Some cs /\ _chunk_embeddings s = Some m /\
    length (rows m) = length cs /\
    forall i, nth_error (rows m) i = option_map c_embedding (nth_error cs i).

(** The invariant the mutating methods maintain: all three attributes are
    loaded, the matrix is the stacked embedding column, and every stored
    vector has dimension [d]. *)
Definition store_ok (d : nat) (s : MemoryManager) : Prop :=
  exists ms cs m,
    _memories s = Some ms /\ _chunks s = Some cs /\
    _chunk_embeddings s = Some m /\
    rows m = map c_embedding cs /\ dim_ok d cs /\
    (cs <> [] -> ncols m = d).

(** * Vocabulary of the properties *)

(** ** Rows of one memory *)

Definition has_id (memory_id : str) (ms : list MemoryRow) : bool :=
  existsb (fun m => str_eqb (m_id m) memory_id) ms.

Definition other_memories (memory_id : str) (ms : list MemoryRow) :=
  filter (fun m => negb (str_eqb (m_id m) memory_id)) ms.

Definition other_chunks (memory_id : str) (cs : list ChunkRow) :=
  filter (fun c => negb (str_eqb (c_memory_id c) memory_id)) cs.

(** The rows a table holds for one memory, in table order. *)
Definition memory_rows_of (j : str) (ms : list MemoryRow) : list MemoryRow :=
  filter (fun m => str_eqb (m_id m) j) ms.

Definition chunk_rows_of (j : str) (cs : list ChunkRow) : list ChunkRow :=
  filter (fun c => str_eqb (c_memory_id c) j) cs.

(** Every chunk row belongs to a memory row. *)
Definition references_ok (ms : list MemoryRow) (cs : list ChunkRow) : Prop :=
  forall c, In c cs -> In (c_memory_id c) (map m_id ms).

(** The distinct memory ids that own a chunk row. *)
Definition distinct_ids (cs : list ChunkRow) : list str :=
  nodup (list_eq_dec ascii_dec) (map c_memory_id cs).

(** The loaded tables respect the foreign key of the chunk table. *)
Definition references_hold (s : MemoryManager) : Prop :=
  exists ms cs,
    _memories s = Some ms /\ _chunks s = Some cs /\ references_ok ms cs.

(** ** Ranking *)

(** The scored rows [search] groups: each chunk row with its similarity. *)
Definition scored (q : vec) (cs : list ChunkRow) : list (str * Q) :=
  map (fun c => (c_memory_id c, dot (c_embedding c) q)) cs.

(** [g] is the grouping of the scored rows [seen]: one entry per key, each
    holding a score of that key that no other score of the key exceeds. *)
Definition groups_of (seen g : list (str * Q)) : Prop :=
  NoDup (map fst g)
  /\ (forall k, In k (map fst g) <-> In k (map fst seen))
  /\ (forall k v, In (k, v) g ->
        In (k, v) seen /\ forall v', In (k, v') seen -> (v' <= v)%Q).

Definition descending (a b : str * Q) : Prop := (snd b <= snd a)%Q.

(** [r] is the entry [search] builds for the ranked row [e]: its id and
    score, with the content and creation time of the first memory row of
    that id. *)
Definition hydrated (ms : list MemoryRow) (e : str * Q) (r : SearchResult)
  : Prop :=
  r_id r = fst e /\ r_similarity r = snd e
  /\ exists m, hd_error (memory_rows_of (fst e) ms) = Some m
               /\ r_content r = m_content m
               /\ r_created_at r = m_created_at m.

(** The situation in which [search] gets as far as ranking: the store
    [s] loads as [s1] with memory table [ms] and a non-empty chunk table
    [cs], the index is consistent with vectors of dimension [d], every
    chunk row belongs to a memory row, and the service answers the query
    with a vector [q] of dimension [d]. *)
Definition search_ready (d : nat) (s s1 : MemoryManager)
    (ms : list MemoryRow) (cs : list ChunkRow) (query : str) (q : vec)
  : Prop :=
  _load s = (s1, Ok tt) /\ store_ok d s1
  /\ _memories s1 = Some ms /\ _chunks s1 = Some cs /\ cs <> []
  /\ references_ok ms cs
  /\ (exists rest,
        client s1 (client_calls s1) (One query) = Some (q :: rest))
  /\ length q = d.

(** ** Example stores *)

(** A client for the examples: the [n]-th batch call answers one
    2-dimensional vector per text, [(score n, 0)]; a single-text call
    answers the unit vector [(1, 0)].  The fourth batch call fails. *)
Definition demo_score (n : nat) : option Q :=
  match n with
  | 0%nat => Some (9 # 10)
  | 1%nat => Some (5 # 10)
  | 2%nat => Some (1 # 10)
  | _ => None
  end.

Definition demo_client (n : nat) (input : embed_input) : option (list vec) :=
  match input with
  | One _ => Some [[1; 0]%Q]
  | Many texts =>
      match demo_score n with
      | Some q => Some (map (fun _ => [q; 0%Q]) texts)
      | None => None
      end
  end.

Definition demo_ops : list op :=
  [ Save (lit "A") (lit "t1") (lit "alpha");
    Save (lit "B") (lit "t2") (lit "beta");
    Delete (lit "A");
    Save (lit "C") (lit "t3") (lit "gamma") ].

(** The store of the examples: memories [A], [B] and [C], one chunk each,
    whose embeddings score 0.9, 0.5 and 0.1 against the query vector of
    [demo_client]. *)
Definition demo_store : MemoryManager :=
  run [ Save (lit "A") (lit "t1") (lit "alpha");
        Save (lit "B") (lit "t2") (lit "beta");
        Save (lit "C") (lit "t3") (lit "gamma") ]
      (init None None demo_client).

Definition demo_memories : list MemoryRow := or_empty (_memories demo_store).
Definition demo_chunks : list ChunkRow := or_empty (_chunks demo_store).

Definition aborted_row : MemoryRow :=
  mk_memory (lit "D") (lit "delta") (lit "t4").

(** A loaded store with a three-chunk memory [X], whose chunks score 0.2,
    0.95 and 0.4 against the query vector [(1, 0)], and a one-chunk memory
    [Y] scoring 0.6: by its best chunk [X] ranks first, by its average
    (about 0.52) it would rank second. *)
Definition multi_memories : list MemoryRow :=
  [ mk_memory (lit "X") (lit "x0 x1 x2") (lit "t1");
    mk_memory (lit "Y") (lit "y0") (lit "t2") ].

Definition multi_chunks : list ChunkRow :=
  [ mk_chunk (lit "X") 0 (lit "x0") [2 # 10; 0]%Q;
    mk_chunk (lit "X") 1 (lit "x1") [95 # 100; 0]%Q;
    mk_chunk (lit "X") 2 (lit "x2") [4 # 10; 0]%Q;
    mk_chunk (lit "Y") 0 (lit "y0") [6 # 10; 0]%Q ].

Definition multi_store : MemoryManager :=
  mk_manager (Some multi_memories) (Some multi_chunks) demo_client 0
             (Some multi_memories) (Some multi_chunks)
             (Some (mk_ndarray (map c_embedding multi_chunks) 2)).

(** ** Strings: trimming, parts and words *)

Definition all_space (s : str) : Prop := Forall (fun c => isspace c = true) s.

Definition starts_nonspace (s : str) : Prop :=
  exists c r, s = c :: r /\ isspace c = false.

Definition ends_nonspace (s : str) : Prop :=
  exists r c, s = r ++ [c] /\ isspace c = false.

(** A string that [strip] would leave alone. *)
Definition trimmed (s : str) : Prop :=
  s = [] \/ (starts_nonspace s /\ ends_nonspace s).

(** A contiguous part of a string. *)
Definition infix (t x : str) : Prop := exists a b, x = a ++ t ++ b.

(** The words of a string: its maximal runs of non-space characters, in
    order (what [s.split()] returns). *)
Fixpoint words (s : str) : list str :=
  match s with
  | [] => []
  | c :: r =>
      if isspace c then words r
      else match r with
           | [] => [[c]]
           | c' :: _ =>
               if isspace c' then [c] :: words r
               else cons_head c (words r)
           end
  end.

Definition starts_word (s : str) : bool :=
  match s with
  | [] => false
  | c :: _ => negb (isspace c)
  end.

(** ** The chunker's loop *)

(** The chunk list after the final append of lines 52-53. *)
Definition closed_chunks (st : list str * str) : list str :=
  if truthy (strip (snd st)) then fst st ++ [strip (snd st)] else fst st.

(** Every sentence processed so far, trimmed, is a contiguous part of a
    closed chunk or of the buffer. *)
Definition covers (done : list str) (st : list str * str) : Prop :=
  forall s, In s done ->
    (exists c, In c (fst st) /\ infix (strip s) c)
    \/ infix (strip s) (snd st).

(** The words of each closed chunk, and of the buffer, split into the
    words of its overlap seed followed by fresh words, and the fresh words
    in order are exactly the words of the sentences processed so far. *)
Definition accounts (done : list str) (st : list str * str) : Prop :=
  exists (parts : list (list str * list str)) (seed fresh : list str),
    map (fun p => fst p ++ snd p) parts = map words (fst st)
    /\ seed ++ fresh = words (snd st)
    /\ concat (map snd parts) ++ fresh = concat (map words done).

(** The seed as the design text words it: the last [overlap] characters of
    the chunk just closed (the stripped buffer that was appended to the
    result), cut after the first space of that tail if it holds one. *)
Definition documented_seed (overlap : Z) (closed_chunk : str) : str :=
  let tail := last_chars overlap closed_chunk in
  let space_idx := find " "%char tail in
  if space_idx >=? 0 then slice_from (space_idx + 1) tail else tail.

(** The next buffer as the design text words it. *)
Definition documented_next_buffer (overlap : Z) (current_chunk sentence : str)
  : str :=
  documented_seed overlap (strip current_chunk) ++ " "%char :: sentence.

(** ** The caller's loop (claude_runner.py, lines 295-297) *)

(** [for memory in response.memories_to_save: self.memory.save(memory)]:
    the notes are saved one after the other and the first exception ends
    the loop.  Each item carries the two clock readings of its [save]. *)
Fixpoint save_each (items : list (str * str * str)) : M unit :=
  match items with
  | [] => ret tt
  | (memory_id, created_at, content) :: rest =>
      save memory_id created_at content ;;; save_each rest
  end.

(** The memory row [save] builds for an item. *)
Definition row_of_item (item : str * str * str) : MemoryRow :=
  let '(memory_id, created_at, content) := item in
  mk_memory memory_id content created_at.

(** The embedding service answers every batch call, with one vector of
    dimension [d] per text. *)
Definition provider_answers (d : nat)
    (cl : nat -> embed_input -> option (list vec)) : Prop :=
  forall n texts,
    exists data,
      cl n (Many texts) = Some data
      /\ length data = length texts
      /\ Forall (fun v => length v = d) data.

(** Two chunk rows of the table disagree on the length of their vector. *)
Definition ragged (cs : list ChunkRow) : Prop :=
  exists c c', In c cs /\ In c' cs
               /\ length (c_embedding c) <> length (c_embedding c').

(** An embedding service that always answers the 2-dimensional vector
    [(1, 0)] for each text. *)
Definition steady_client (n : nat) (input : embed_input)
  : option (list vec) :=
  match input with
  | One _ => Some [[1; 0]%Q]
  | Many texts => Some (map (fun _ => [1; 0]%Q) texts)
  end.

(** No two ranked rows carry the same score. *)
Definition distinct_scores (l : list (str * Q)) : Prop :=
  forall a b, In a l -> In b l -> (snd a == snd b)%Q -> a = b.

(** ** The chunker's loop with its seeds *)

(** The seed that opens the next buffer when the buffer [current_chunk] is
    closed (lines 38-47): the overlap seed when [overlap] is positive and
    the buffer is longer than it, nothing otherwise. *)
Definition seed_of_next (overlap : Z) (current_chunk : str) : str :=
  if (overlap >? 0) && (len current_chunk >? overlap)
  then overlap_seed overlap current_chunk
  else [].

(** The body of the loop, keeping beside every closed chunk the seed its
    buffer was opened with; the state also holds the seed of the current
    buffer. *)
Definition traced_step (chunk_size overlap : Z)
    (st : list (str * str) * (str * str)) (sentence : str)
  : list (str * str) * (str * str) :=
  let '(closed, (seed, current_chunk)) := st in
  let next :=
    snd (chunk_step chunk_size overlap ([], current_chunk) sentence) in
  if closes chunk_size current_chunk sentence
  then (closed ++ [(seed, strip current_chunk)],
        (seed_of_next overlap current_chunk, next))
  else (closed, (seed, next)).

Definition traced_loop (chunk_size overlap : Z)
    (st : list (str * str) * (str * str)) (sentences : list str)
  : list (str * str) * (str * str) :=
  fold_left (traced_step chunk_size overlap) sentences st.

(** The chunks [chunk_text] returns, each paired with the seed its buffer
    was opened with. *)
Definition traced_chunks (text : str) (chunk_size overlap : Z)
  : list (str * str) :=
  if len text <=? chunk_size then [([], text)]
  else
    let '(closed, (seed, current_chunk)) :=
      traced_loop chunk_size overlap ([], ([], [])) (re_split text) in
    let closed :=
      if truthy (strip current_chunk)
      then closed ++ [(seed, strip current_chunk)]
      else closed in
    match closed with [] => [([], text)] | _ => closed end.

(** [seed] is the seed the code takes when it closes a buffer that strips
    to [chunk]. *)
Definition seeded_from (overlap : Z) (chunk seed : str) : Prop :=
  exists buffer, strip buffer = chunk /\ seed = seed_of_next overlap buffer.

(** The seed of every entry but the first is taken from the chunk before
    it. *)
Fixpoint seeds_chain (overlap : Z) (trace : list (str * str)) : Prop :=
  match trace with
  | [] => True
  | (_, chunk) :: rest =>
      match rest with
      | [] => True
      | (seed', _) :: _ => seeded_from overlap chunk seed'
      end
      /\ seeds_chain overlap rest
  end.

(** The first entry has no seed. *)
Definition starts_unseeded (trace : list (str * str)) : Prop :=
  match trace with
  | [] => True
  | (seed, _) :: _ => seed = []
  end.

(** The words of the chunk of an entry start with the words of its
    seed. *)
Definition seed_leads (p : str * str) : Prop :=
  exists fresh, words (snd p) = words (fst p) ++ fresh.

(** The words of the chunk of an entry, without those of its seed. *)
Definition fresh_words (p : str * str) : list str :=
  skipn (length (words (fst p))) (words (snd p)).

(** Forgetting the seeds. *)
Definition erase (st : list (str * str) * (str * str)) : list str * str :=
  (map snd (fst st), snd (snd st)).

(** With the current buffer as a last entry, whatever it will be closed
    as, the trace starts without seed and every seed is taken from the
    chunk before. *)
Definition chained (overlap : Z) (st : list (str * str) * (str * str))
  : Prop :=
  forall x,
    seeds_chain overlap (fst st ++ [(fst (snd st), x)])
    /\ starts_unseeded (fst st ++ [(fst (snd st), x)]).

(** The words of every closed chunk and of the buffer start with the
    words of their seed, and what follows, in order, is the words of the
    sentences processed so far. *)
Definition traced_accounts (done : list str)
    (st : list (str * str) * (str * str)) : Prop :=
  Forall seed_leads (fst st)
  /\ exists fresh,
       words (snd (snd st)) = words (fst (snd st)) ++ fresh
       /\ concat (map fresh_words (fst st)) ++ fresh
          = concat (map words done).

(** The round trip as the design text words it: dropping from every chunk
    a prefix (its overlap region) and concatenating what is left gives
    back the text. *)
Definition reconstructs (text : str) (chunks : list str) : Prop :=
  exists rests,
    Forall2 (fun chunk rest => exists region, chunk = region ++ rest)
            chunks rests
    /\ concat rests = text.

(** Two sentences separated by a blank line, then a third. *)
Definition blank_line_text : str :=
  lit "aa." ++ ["010"%char; "010"%char] ++ lit "bb. cc.".

(** * Properties *)

(** ** numpy and list facts *)

Lemma vstack_same_dim d (vs : list vec) :
  Forall (fun v => length v = d) vs -> vs <> [] ->
  vstack vs = Some (mk_ndarray vs d).
Proof.
  intros H Hne. destruct vs as [|v r]; [congruence|].
  inversion H as [|? ? Hv Hr]; subst. unfold vstack.
  replace (forallb (fun w => Nat.eqb (length w) (length v)) r) with true;
    [reflexivity|].
  symmetry. apply forallb_forall. intros w Hw.
  rewrite Forall_forall in Hr. rewrite (Hr w Hw). apply Nat.eqb_refl.
Qed.

Lemma vstack_rows vs m : vstack vs = Some m -> rows m = vs.
Proof.
  destruct vs as [|v r]; simpl; [discriminate|].
  match goal with |- context [forallb ?f r] => destruct (forallb f r) end;
    [|discriminate].
  intros [= <-]. reflexivity.
Qed.

Lemma len_pos_iff {A} (l : list A) : (len l >? 0) = true <-> l <> [].
Proof.
  unfold len. rewrite Z.gtb_ltb, Z.ltb_lt.
  destruct l; simpl; split; intros; try congruence; lia.
Qed.

Lemma len_pos_false {A} (l : list A) : (len l >? 0) = false <-> l = [].
Proof.
  unfold len. rewrite Z.gtb_ltb, Z.ltb_ge.
  destruct l; simpl; split; intros; try congruence; lia.
Qed.

Lemma new_chunk_rows_embedding memory_id i chunks data :
  length data = length chunks ->
  map c_embedding (new_chunk_rows memory_id i chunks data) = data.
Proof.
  revert i data. induction chunks as [|c chunks IH]; intros i [|v data] H;
    simpl in *; try discriminate; try reflexivity.
  f_equal. apply IH. lia.
Qed.

Lemma new_chunk_rows_owner memory_id i chunks data :
  Forall (fun c => c_memory_id c = memory_id)
         (new_chunk_rows memory_id i chunks data).
Proof.
  revert i data. induction chunks as [|c chunks IH]; intros i [|v data];
    simpl; constructor; auto.
Qed.

Lemma rows_nth_of_map (m : ndarray) (cs : list ChunkRow) :
  rows m = map c_embedding cs ->
  length (rows m) = length cs /\
  forall i, nth_error (rows m) i = option_map c_embedding (nth_error cs i).
Proof.
  intros ->. split; [apply length_map|]. intros i. apply nth_error_map.
Qed.

Lemma store_ok_consistent d s : store_ok d s -> index_consistent s.
Proof.
  intros (ms & cs & m & _ & Hc & Hm & Hr & _).
  exists cs, m. destruct (rows_nth_of_map _ _ Hr). auto.
Qed.

(** ** Running the methods on a loaded manager *)

Ltac run_monad :=
  unfold _embed, _embed_batch, embeddings_create, _save, _load,
         bind, get, get_some, modify, ret, raise, lift,
         set_memories, set_chunks, set_chunk_embeddings,
         set_memories_file, set_chunks_file, set_client_calls; cbn.

Lemma load_loaded s ms : _memories s = Some ms -> _load s = (s, Ok tt).
Proof. intros H. run_monad. rewrite H. reflexivity. Qed.

Lemma load_init_ok d mf cf cl n :
  dim_ok d (or_empty cf) ->
  exists m,
    _load (mk_manager mf cf cl n None None None)
    = (mk_manager mf cf cl n (Some (or_empty mf)) (Some (or_empty cf))
                  (Some m), Ok tt)
    /\ rows m = map c_embedding (or_empty cf)
    /\ (or_empty cf <> [] -> ncols m = d).
Proof.
  intros Hd. destruct cf as [cs|]; cbn [or_empty] in *.
  - destruct (len cs >? 0) eqn:E.
    + apply len_pos_iff in E.
      assert (Hv : vstack (map c_embedding cs)
                   = Some (mk_ndarray (map c_embedding cs) d)).
      { apply vstack_same_dim.
        - apply Forall_map. exact Hd.
        - destruct cs; simpl; congruence. }
      exists (mk_ndarray (map c_embedding cs) d). run_monad.
      rewrite (proj2 (len_pos_iff cs) E). rewrite Hv. cbn. auto.
    + apply len_pos_false in E. subst cs.
      exists (zeros0 EMBEDDING_DIM). run_monad. split; [reflexivity|].
      split; [reflexivity|congruence].
  - exists (zeros0 EMBEDDING_DIM). run_monad. split; [reflexivity|].
    split; [reflexivity|congruence].
Qed.

Lemma save_provider_fails mf cf cl n ms cs m memory_id created_at content :
  cl n (Many (chunk_text content CHUNK_SIZE CHUNK_OVERLAP)) = None ->
  save memory_id created_at content
       (mk_manager mf cf cl n (Some ms) (Some cs) (Some m))
  = (mk_manager mf cf cl (S n)
                (Some (ms ++ [mk_memory memory_id content created_at]))
                (Some cs) (Some m),
     Raise EmbeddingProviderError).
Proof. intros H. unfold save. run_monad. rewrite H. reflexivity. Qed.

Lemma save_provider_answers d mf cf cl n ms cs m memory_id created_at content
      data :
  let chunks := chunk_text content CHUNK_SIZE CHUNK_OVERLAP in
  cl n (Many chunks) = Some data ->
  Forall (fun v => length v = d) data -> data <> [] ->
  (rows m <> [] -> ncols m = d) ->
  let ms' := ms ++ [mk_memory memory_id content created_at] in
  let cs' := cs ++ new_chunk_rows memory_id 0 chunks data in
  exists m',
    save memory_id created_at content
         (mk_manager mf cf cl n (Some ms) (Some cs) (Some m))
    = (mk_manager (Some ms') (Some cs') cl (S n)
                  (Some ms') (Some cs') (Some m'),
       Ok memory_id)
    /\ rows m' = rows m ++ data /\ ncols m' = d.
Proof.
  intros chunks Hcl Hdim Hne Hm ms' cs'.
  unfold save. run_monad. fold chunks. rewrite Hcl. cbn.
  rewrite (vstack_same_dim _ _ Hdim Hne). cbn.
  destruct m as [rs nc]. cbn in *.
  destruct (len rs >? 0) eqn:E.
  - apply len_pos_iff in E. specialize (Hm E). subst nc.
    unfold vstack2. cbn. rewrite Nat.eqb_refl. cbn.
    eexists. split; [reflexivity|]. cbn. auto.
  - apply len_pos_false in E. subst rs. cbn.
    eexists. split; [reflexivity|]. cbn. auto.
Qed.

Lemma delete_unknown mf cf cl n ms ocs om memory_id :
  has_id memory_id ms = false ->
  delete memory_id (mk_manager mf cf cl n (Some ms) ocs om)
  = (mk_manager mf cf cl n (Some ms) ocs om, Ok false).
Proof.
  intros H. unfold has_id in H. unfold delete. run_monad. rewrite H.
  reflexivity.
Qed.

Lemma delete_known d mf cf cl n ms cs om memory_id :
  has_id memory_id ms = true -> dim_ok d cs ->
  let ms' := other_memories memory_id ms in
  let cs' := other_chunks memory_id cs in
  exists m',
    delete memory_id (mk_manager mf cf cl n (Some ms) (Some cs) om)
    = (mk_manager (Some ms') (Some cs') cl n (Some ms') (Some cs') (Some m'),
       Ok true)
    /\ rows m' = map c_embedding cs'
    /\ (cs' <> [] -> ncols m' = d)
    /\ (cs' = [] -> m' = zeros0 EMBEDDING_DIM).
Proof.
  intros H Hd ms' cs'. unfold has_id in H. unfold delete. run_monad.
  rewrite H. cbn. fold (other_chunks memory_id cs). fold cs'.
  fold (other_memories memory_id ms). fold ms'.
  destruct (len cs' >? 0) eqn:E.
  - apply len_pos_iff in E.
    assert (Hv : vstack (map c_embedding cs')
                 = Some (mk_ndarray (map c_embedding cs') d)).
    { apply vstack_same_dim.
      - apply Forall_map. unfold cs', other_chunks.
        apply Forall_forall. intros c Hc. apply filter_In in Hc.
        unfold dim_ok in Hd. rewrite Forall_forall in Hd. apply Hd, Hc.
      - destruct cs'; simpl; congruence. }
    rewrite Hv. cbn. eexists. split; [reflexivity|]. cbn.
    repeat split; auto. congruence.
  - apply len_pos_false in E. rewrite E. cbn.
    eexists. split; [reflexivity|]. cbn. repeat split; auto. congruence.
Qed.

Lemma dim_ok_app d cs1 cs2 : dim_ok d cs1 -> dim_ok d cs2 -> dim_ok d (cs1 ++ cs2).
Proof. unfold dim_ok. intros. apply Forall_app. auto. Qed.

Lemma dim_ok_new_rows d memory_id i chunks data :
  Forall (fun v => length v = d) data ->
  dim_ok d (new_chunk_rows memory_id i chunks data).
Proof.
  unfold dim_ok. revert i data.
  induction chunks as [|c chunks IH]; intros i [|v data] H; simpl;
    try constructor.
  - inversion H; auto.
  - inversion H; auto.
Qed.

(** A mutating call maintains the invariant and leaves the service
    untouched, whether it returns or raises. *)
Lemma run_op_store_ok d s o :
  provider_ok d (client s) -> store_ok d s ->
  store_ok d (run_op s o) /\ client (run_op s o) = client s.
Proof.
  intros Hp (ms & cs & m & Hms & Hcs & Hm & Hrows & Hdim & Hcols).
  destruct s as [mf cf cl n oms ocs om]. cbn in *. subst oms ocs om.
  destruct o as [memory_id created_at content | memory_id]; cbn [run_op].
  - destruct (cl n (Many (chunk_text content CHUNK_SIZE CHUNK_OVERLAP)))
      as [data|] eqn:Hcl.
    + destruct (Hp _ _ _ Hcl) as [Hlen Hvd].
      destruct data as [|v data'] eqn:Hdata.
      * (* no vector came back: [np.vstack] raises before the matrix is
           touched, and no chunk row was appended *)
        unfold save. run_monad. rewrite Hcl. cbn. split; [|reflexivity].
        exists (ms ++ [mk_memory memory_id content created_at]), cs, m.
        cbn. unfold pd_concat. cbn.
        destruct (chunk_text content CHUNK_SIZE CHUNK_OVERLAP);
          cbn; rewrite app_nil_r; repeat split; auto.
      * rewrite <- Hdata in *.
        assert (Hne : data <> []) by (subst; congruence).
        assert (Hm' : rows m <> [] -> ncols m = d).
        { intros Hr. apply Hcols. intros ->. apply Hr. rewrite Hrows.
          reflexivity. }
        destruct (@save_provider_answers d mf cf cl n ms cs m memory_id
                    created_at content data Hcl Hvd Hne Hm')
          as (m' & Heq & Hr' & Hc').
        rewrite Heq. cbn. split; [|reflexivity].
        eexists _, _, m'. repeat split; try reflexivity.
        -- rewrite Hr', Hrows, map_app. f_equal. symmetry.
           apply new_chunk_rows_embedding. exact Hlen.
        -- apply dim_ok_app; [exact Hdim|].
           apply dim_ok_new_rows. exact Hvd.
        -- intros _. exact Hc'.
    + rewrite (@save_provider_fails mf cf cl n ms cs m memory_id created_at
                 content Hcl).
      cbn. split; [|reflexivity]. eexists _, cs, m.
      cbn. repeat split; auto.
  - destruct (has_id memory_id ms) eqn:Hin.
    + destruct (@delete_known d mf cf cl n ms cs (Some m) memory_id Hin Hdim)
        as (m' & Heq & Hr' & Hc' & _).
      rewrite Heq. cbn. split; [|reflexivity].
      eexists _, _, m'. repeat split; try reflexivity; auto.
      unfold other_chunks. apply Forall_forall. intros c Hc.
      apply filter_In in Hc. unfold dim_ok in Hdim.
      rewrite Forall_forall in Hdim. apply Hdim, Hc.
    + rewrite (@delete_unknown mf cf cl n ms (Some cs) (Some m) memory_id Hin).
      cbn. split; [|reflexivity]. exists ms, cs, m.
      cbn. repeat split; auto.
Qed.

Lemma run_store_ok d ops s :
  provider_ok d (client s) -> store_ok d s -> store_ok d (run ops s).
Proof.
  revert s. induction ops as [|o ops IH]; intros s Hp Hs; cbn; [exact Hs|].
  destruct (@run_op_store_ok d s o Hp Hs) as [Hs' Hc].
  apply IH; [rewrite Hc; exact Hp | exact Hs'].
Qed.

Lemma references_ok_grow ms cs row new :
  references_ok ms cs ->
  Forall (fun c => c_memory_id c = m_id row) new ->
  references_ok (ms ++ [row]) (cs ++ new).
Proof.
  intros H Hnew c Hc. rewrite map_app, in_app_iff. apply in_app_iff in Hc.
  destruct Hc as [Hc|Hc]; [left; apply H, Hc|right].
  rewrite Forall_forall in Hnew. rewrite (Hnew c Hc). cbn. auto.
Qed.

(** A mutating call keeps every chunk row attached to a memory row. *)
Lemma run_op_references d s o :
  provider_ok d (client s) -> store_ok d s -> references_hold s ->
  references_hold (run_op s o).
Proof.
  intros Hp (ms & cs & m & Hms & Hcs & Hm & Hrows & Hdim & Hcols)
         (ms0 & cs0 & Hms0 & Hcs0 & Href).
  rewrite Hms in Hms0. rewrite Hcs in Hcs0.
  injection Hms0 as <-. injection Hcs0 as <-.
  destruct s as [mf cf cl n oms ocs om]. cbn in *. subst oms ocs om.
  destruct o as [memory_id created_at content | memory_id]; cbn [run_op].
  - destruct (cl n (Many (chunk_text content CHUNK_SIZE CHUNK_OVERLAP)))
      as [data|] eqn:Hcl.
    + destruct (Hp _ _ _ Hcl) as [Hlen Hvd].
      destruct data as [|v data'] eqn:Hdata.
      * unfold save. run_monad. rewrite Hcl. cbn.
        eexists _, _. split; [reflexivity|]. split; [reflexivity|].
        unfold pd_concat. cbn.
        apply (references_ok_grow ms cs
                 (mk_memory memory_id content created_at)); [exact Href|].
        destruct (chunk_text content CHUNK_SIZE CHUNK_OVERLAP); constructor.
      * rewrite <- Hdata in *.
        assert (Hne : data <> []) by (subst; congruence).
        assert (Hm' : rows m <> [] -> ncols m = d).
        { intros Hr. apply Hcols. intros ->. apply Hr. rewrite Hrows.
          reflexivity. }
        destruct (@save_provider_answers d mf cf cl n ms cs m memory_id
                    created_at content data Hcl Hvd Hne Hm')
          as (m' & Heq & _).
        rewrite Heq. cbn. eexists _, _.
        split; [reflexivity|]. split; [reflexivity|].
        apply (references_ok_grow ms cs
                 (mk_memory memory_id content created_at)); [exact Href|].
        apply new_chunk_rows_owner.
    + rewrite (@save_provider_fails mf cf cl n ms cs m memory_id created_at
                 content Hcl).
      cbn. eexists _, _. split; [reflexivity|]. split; [reflexivity|].
      rewrite <- (app_nil_r cs).
      apply (references_ok_grow ms cs
               (mk_memory memory_id content created_at)); [exact Href|].
      constructor.
  - destruct (has_id memory_id ms) eqn:Hin.
    + destruct (@delete_known d mf cf cl n ms cs (Some m) memory_id Hin Hdim)
        as (m' & Heq & _).
      rewrite Heq. cbn. eexists _, _.
      split; [reflexivity|]. split; [reflexivity|].
      intros c Hc. apply filter_In in Hc. destruct Hc as [Hc Hne].
      specialize (Href c Hc). apply in_map_iff in Href.
      destruct Href as (row & Hid & Hrow). apply in_map_iff.
      exists row. split; [exact Hid|]. apply filter_In.
      split; [exact Hrow|]. rewrite Hid. exact Hne.
    + rewrite (@delete_unknown mf cf cl n ms (Some cs) (Some m) memory_id Hin).
      cbn. exists ms, cs. auto.
Qed.

Lemma run_references d ops s :
  provider_ok d (client s) -> store_ok d s -> references_hold s ->
  references_hold (run ops s).
Proof.
  revert s. induction ops as [|o ops IH]; intros s Hp Hs Hr; cbn;
    [exact Hr|].
  destruct (@run_op_store_ok d s o Hp Hs) as [Hs' Hc].
  apply IH; [rewrite Hc; exact Hp | exact Hs' |].
  apply (run_op_references d s o Hp Hs Hr).
Qed.

(** ** Lazy loading *)

Lemma load_sets_memories s s1 r :
  _load s = (s1, r) -> exists ms, _memories s1 = Some ms.
Proof.
  destruct s as [mf cf cl n oms ocs om]. destruct oms as [ms|].
  - erewrite load_loaded by reflexivity. intros [= <- _]. cbn. eauto.
  - run_monad. destruct cf as [cs|]; cbn.
    + destruct (len cs >? 0); cbn.
      * destruct (vstack (map c_embedding cs)); cbn; intros [= <- _]; cbn;
          eauto.
      * intros [= <- _]; cbn; eauto.
    + intros [= <- _]; cbn; eauto.
Qed.

Lemma load_idempotent s s1 r : _load s = (s1, r) -> _load s1 = (s1, Ok tt).
Proof.
  intros H. destruct (load_sets_memories _ _ _ H) as [ms Hms].
  exact (load_loaded _ _ Hms).
Qed.

(** [_load] touches neither the files nor the service. *)
Lemma load_frame s s1 r :
  _load s = (s1, r) ->
  memories_file s1 = memories_file s /\ chunks_file s1 = chunks_file s /\
  client s1 = client s /\ client_calls s1 = client_calls s.
Proof.
  destruct s as [mf cf cl n oms ocs om]. destruct oms as [ms|].
  - erewrite load_loaded by reflexivity. intros [= <- _]. cbn. auto.
  - run_monad. destruct cf as [cs|]; cbn.
    + destruct (len cs >? 0); cbn.
      * destruct (vstack (map c_embedding cs)); cbn; intros [= <- _]; cbn;
          auto.
      * intros [= <- _]; cbn; auto.
    + intros [= <- _]; cbn; auto.
Qed.

(** A method body [_load ;;; k] run before or after the first load. *)
Lemma after_load {A} (k : M A) s s1 :
  _load s = (s1, Ok tt) -> (_load ;;; k) s = (_load ;;; k) s1.
Proof.
  intros H. unfold bind at 1. rewrite H.
  unfold bind. rewrite (load_idempotent _ _ _ H). reflexivity.
Qed.

Lemma run_op_after_load s s1 o :
  _load s = (s1, Ok tt) -> run_op s o = run_op s1 o.
Proof.
  intros H. destruct o; cbn [run_op]; unfold save, delete;
    rewrite (after_load _ _ _ H); reflexivity.
Qed.

Lemma store_ok_view d s : store_ok d s -> view s = s.
Proof.
  intros (ms & cs & m & Hms & _). unfold view.
  rewrite (load_loaded _ _ Hms). reflexivity.
Qed.

Lemma init_opens d mf cf cl :
  dim_ok d (or_empty cf) ->
  exists s1, _load (init mf cf cl) = (s1, Ok tt) /\ store_ok d s1
             /\ client s1 = cl.
Proof.
  intros Hd. destruct (@load_init_ok d mf cf cl 0%nat Hd) as (m & Heq & Hr & Hc).
  eexists. split; [exact Heq|]. split; [|reflexivity].
  exists (or_empty mf), (or_empty cf), m. cbn. repeat split; auto.
Qed.

Lemma demo_client_ok : provider_ok 2 demo_client.
Proof.
  intros n texts data. cbn. destruct (demo_score n); [|discriminate].
  intros [= <-]. split; [apply length_map|].
  apply Forall_forall. intros v Hv. apply in_map_iff in Hv.
  destruct Hv as (? & <- & _). reflexivity.
Qed.

(** After at least one mutating call on a fresh manager, all the
    invariants hold of the attributes themselves. *)
Lemma run_from_init d mf cf cl o ops :
  provider_ok d cl -> dim_ok d (or_empty cf) ->
  references_ok (or_empty mf) (or_empty cf) ->
  let s := run (o :: ops) (init mf cf cl) in
  store_ok d s /\ references_hold s /\ client s = cl.
Proof.
  intros Hp Hd Href s. unfold s. clear s.
  destruct (@load_init_ok d mf cf cl 0%nat Hd) as (m & Hload & Hr & Hc).
  fold (init mf cf cl) in Hload.
  set (s1 := mk_manager mf cf cl 0 (Some (or_empty mf)) (Some (or_empty cf))
                        (Some m)) in *.
  assert (Hok : store_ok d s1).
  { exists (or_empty mf), (or_empty cf), m. cbn. repeat split; auto. }
  assert (Hrefs : references_hold s1).
  { exists (or_empty mf), (or_empty cf). cbn. auto. }
  cbn [run fold_left]. rewrite (run_op_after_load _ s1 o Hload).
  destruct (@run_op_store_ok d s1 o Hp Hok) as [Hs' Hcl].
  pose proof (run_op_references d s1 o Hp Hok Hrefs) as Hr'.
  assert (Hp' : provider_ok d (client (run_op s1 o)))
    by (rewrite Hcl; exact Hp).
  split; [apply run_store_ok; assumption|].
  split; [apply (run_references d); assumption|].
  clear - Hcl Hp' Hs'. revert Hcl Hp' Hs'. generalize (run_op s1 o).
  induction ops as [|o' ops IH]; intros s Hcl Hp Hs; cbn; [exact Hcl|].
  destruct (@run_op_store_ok d s o' Hp Hs) as [Hs' Hc].
  apply IH; [rewrite Hc; exact Hcl | rewrite Hc; exact Hp | exact Hs'].
Qed.

(** Hence [search] can rank on every store reached by mutating calls
    whose chunk table is not empty, as soon as the service answers the
    query with a vector of the right dimension. *)
Lemma reachable_search_ready d cl o ops ms cs query q rest :
  provider_ok d cl ->
  let s := run (o :: ops) (init None None cl) in
  _memories s = Some ms -> _chunks s = Some cs -> cs <> [] ->
  cl (client_calls s) (One query) = Some (q :: rest) -> length q = d ->
  search_ready d s s ms cs query q.
Proof.
  intros Hp s Hms Hcs Hne Hq Hlen.
  destruct (run_from_init d None None cl o ops Hp) as (Hok & Hrefs & Hcl);
    [constructor | intros c [] |].
  fold s in Hok, Hrefs, Hcl.
  split; [apply (load_loaded _ _ Hms)|]. split; [exact Hok|].
  split; [exact Hms|]. split; [exact Hcs|]. split; [exact Hne|].
  split.
  - destruct Hrefs as (ms0 & cs0 & Hms0 & Hcs0 & Href).
    rewrite Hms in Hms0. rewrite Hcs in Hcs0.
    injection Hms0 as <-. injection Hcs0 as <-. exact Href.
  - split; [|exact Hlen]. exists rest. rewrite Hcl. exact Hq.
Qed.

(** ** The embedding-matrix invariant *)

(** C1. Starting from a freshly constructed manager, after any sequence of
    [save] and [delete] calls (returning or raising) the embedding matrix
    has as many rows as the chunk table and its row [i] is the embedding
    stored in chunk row [i]; this is what the next method call sees, and
    it holds of the attributes themselves once one call has been made.
    The embedding service is assumed to honour its interface (one vector
    of the fixed dimension per text) and the stored vectors to have that
    dimension. *)
Theorem embedding_matrix_invariant d mf cf cl ops :
  provider_ok d cl -> dim_ok d (or_empty cf) ->
  index_consistent (view (run ops (init mf cf cl)))
  /\ (ops <> [] -> index_consistent (run ops (init mf cf cl))).
Proof.
  intros Hp Hd.
  destruct (@init_opens d mf cf cl Hd) as (s1 & Hload & Hok & Hcl).
  assert (Hrun : forall o ops',
             store_ok d (run (o :: ops') (init mf cf cl))).
  { intros o ops'. cbn [run fold_left].
    rewrite (@run_op_after_load _ s1 o Hload).
    destruct (@run_op_store_ok d s1 o) as [Hs' Hc];
      [rewrite Hcl; exact Hp | exact Hok |].
    apply run_store_ok; [rewrite Hc, Hcl; exact Hp | exact Hs']. }
  split.
  - destruct ops as [|o ops'].
    + cbn. unfold view. rewrite Hload. cbn.
      apply (store_ok_consistent _ _ Hok).
    + rewrite (store_ok_view _ _ (Hrun o ops')).
      apply (store_ok_consistent _ _ (Hrun o ops')).
  - destruct ops as [|o ops']; [congruence|]. intros _.
    apply (store_ok_consistent _ _ (Hrun o ops')).
Qed.

Lemma embedding_matrix_invariant_witness :
  index_consistent (view (run demo_ops (init None None demo_client)))
  /\ (demo_ops <> [] ->
      index_consistent (run demo_ops (init None None demo_client))).
Proof.
  apply (@embedding_matrix_invariant 2 None None demo_client demo_ops).
  - exact demo_client_ok.
  - constructor.
Defined.

(** ** [delete] *)

Lemma str_eqb_eq a b : str_eqb a b = true <-> a = b.
Proof.
  revert b. induction a as [|x a IH]; intros [|y b]; simpl;
    try (split; [discriminate|congruence]); [tauto|].
  rewrite andb_true_iff, Ascii.eqb_eq, IH. split.
  - intros [-> ->]. reflexivity.
  - intros [= -> ->]. auto.
Qed.

Lemma str_eqb_refl a : str_eqb a a = true.
Proof. apply str_eqb_eq. reflexivity. Qed.

Lemma str_eqb_neq a b : str_eqb a b = false <-> a <> b.
Proof.
  rewrite <- str_eqb_eq. destruct (str_eqb a b); split; congruence.
Qed.

Lemma has_id_true memory_id ms :
  has_id memory_id ms = true <-> In memory_id (map m_id ms).
Proof.
  unfold has_id. rewrite existsb_exists, in_map_iff. split.
  - intros (m & Hin & Heq). apply str_eqb_eq in Heq. eauto.
  - intros (m & Heq & Hin). exists m. rewrite Heq, str_eqb_refl. auto.
Qed.

Lemma has_id_false memory_id ms :
  has_id memory_id ms = false <-> ~ In memory_id (map m_id ms).
Proof.
  rewrite <- has_id_true. destruct (has_id memory_id ms); split; congruence.
Qed.

Lemma in_other_memories memory_id ms m :
  In m (other_memories memory_id ms) <-> In m ms /\ m_id m <> memory_id.
Proof.
  unfold other_memories. rewrite filter_In, negb_true_iff, str_eqb_neq.
  tauto.
Qed.

Lemma in_other_chunks memory_id cs c :
  In c (other_chunks memory_id cs) <-> In c cs /\ c_memory_id c <> memory_id.
Proof.
  unfold other_chunks. rewrite filter_In, negb_true_iff, str_eqb_neq.
  tauto.
Qed.

Lemma filter_filter_keep {A} (p q : A -> bool) l :
  (forall x, p x = true -> q x = true) ->
  filter p (filter q l) = filter p l.
Proof.
  intros H. induction l as [|x l IH]; simpl; [reflexivity|].
  destruct (q x) eqn:Hq; simpl.
  - destruct (p x); rewrite IH; reflexivity.
  - destruct (p x) eqn:Hp; [|exact IH].
    rewrite (H x Hp) in Hq. discriminate.
Qed.

Lemma memory_rows_of_other j memory_id ms :
  j <> memory_id ->
  memory_rows_of j (other_memories memory_id ms) = memory_rows_of j ms.
Proof.
  intros Hj. apply filter_filter_keep. intros m Hm.
  apply str_eqb_eq in Hm. apply negb_true_iff, str_eqb_neq. congruence.
Qed.

Lemma chunk_rows_of_other j memory_id cs :
  j <> memory_id ->
  chunk_rows_of j (other_chunks memory_id cs) = chunk_rows_of j cs.
Proof.
  intros Hj. apply filter_filter_keep. intros c Hc.
  apply str_eqb_eq in Hc. apply negb_true_iff, str_eqb_neq. congruence.
Qed.

(** C5. On a store that holds [memory_id], [delete] returns [True]; the
    memory table and the chunk table lose exactly the rows of that memory,
    the matrix is rebuilt as the stacked embeddings of the surviving chunk
    rows, both tables are persisted, and the rows (hence the embeddings) of
    every other memory are what they were, in the same order. *)
Theorem delete_existing d s s1 ms cs memory_id :
  _load s = (s1, Ok tt) -> store_ok d s1 ->
  _memories s1 = Some ms -> _chunks s1 = Some cs ->
  In memory_id (map m_id ms) ->
  let ms' := other_memories memory_id ms in
  let cs' := other_chunks memory_id cs in
  exists m',
    delete memory_id s
    = (mk_manager (Some ms') (Some cs') (client s1) (client_calls s1)
                  (Some ms') (Some cs') (Some m'),
       Ok true)
    /\ rows m' = map c_embedding cs'
    /\ (forall m, In m ms' <-> In m ms /\ m_id m <> memory_id)
    /\ (forall c, In c cs' <-> In c cs /\ c_memory_id c <> memory_id)
    /\ (forall j, j <> memory_id ->
          memory_rows_of j ms' = memory_rows_of j ms
          /\ chunk_rows_of j cs' = chunk_rows_of j cs
          /\ map c_embedding (chunk_rows_of j cs')
             = map c_embedding (chunk_rows_of j cs)).
Proof.
  intros Hload (ms0 & cs0 & m & Hms0 & Hcs0 & Hm & _ & Hdim & _) Hms Hcs Hin.
  rewrite Hms in Hms0. rewrite Hcs in Hcs0.
  injection Hms0 as <-. injection Hcs0 as <-.
  apply has_id_true in Hin. intros ms' cs'.
  unfold delete. rewrite (after_load _ _ _ Hload).
  fold (delete memory_id s1).
  destruct s1 as [mf cf cl n oms ocs om]. cbn in Hms, Hcs, Hm.
  subst oms ocs om.
  destruct (@delete_known d mf cf cl n ms cs (Some m) memory_id Hin Hdim)
    as (m' & Heq & Hr & _).
  exists m'. split; [exact Heq|]. cbn.
  split; [exact Hr|].
  split; [intros; apply in_other_memories|].
  split; [intros; apply in_other_chunks|].
  intros j Hj. unfold ms', cs'. rewrite (chunk_rows_of_other _ _ cs Hj).
  rewrite (memory_rows_of_other _ _ ms Hj). auto.
Qed.

Lemma demo_store_ok : store_ok 2 demo_store.
Proof.
  exists demo_memories, demo_chunks,
    (mk_ndarray (map c_embedding demo_chunks) 2).
  repeat split; try reflexivity. repeat constructor.
Qed.

Lemma delete_existing_witness :
  exists m',
    delete (lit "B") demo_store
    = (mk_manager (Some (other_memories (lit "B") demo_memories))
                  (Some (other_chunks (lit "B") demo_chunks))
                  (client demo_store) (client_calls demo_store)
                  (Some (other_memories (lit "B") demo_memories))
                  (Some (other_chunks (lit "B") demo_chunks)) (Some m'),
       Ok true)
    /\ rows m' = map c_embedding (other_chunks (lit "B") demo_chunks).
Proof.
  destruct (@delete_existing 2 demo_store demo_store demo_memories
              demo_chunks (lit "B"))
    as (m' & Hd & Hr & _).
  - reflexivity.
  - exact demo_store_ok.
  - reflexivity.
  - reflexivity.
  - vm_compute. auto.
  - exists m'. split; [exact Hd|exact Hr].
Defined.

(** C6. On a store that does not hold [memory_id], [delete] returns
    [False] without raising and changes nothing: the state left behind is
    the store as loaded, the two files are untouched, and a manager that
    had already loaded its tables is left identical. *)
Theorem delete_unknown_changes_nothing s s1 ms memory_id :
  _load s = (s1, Ok tt) -> _memories s1 = Some ms ->
  ~ In memory_id (map m_id ms) ->
  delete memory_id s = (s1, Ok false)
  /\ memories_file s1 = memories_file s
  /\ chunks_file s1 = chunks_file s
  /\ (forall ms0, _memories s = Some ms0 -> s1 = s).
Proof.
  intros Hload Hms Hin. apply has_id_false in Hin.
  destruct (load_frame _ _ _ Hload) as (Hmf & Hcf & _ & _).
  split; [|split; [exact Hmf|split; [exact Hcf|]]].
  - unfold delete. rewrite (after_load _ _ _ Hload).
    fold (delete memory_id s1).
    destruct s1 as [mf cf cl n oms ocs om]. cbn in Hms. subst oms.
    apply delete_unknown. exact Hin.
  - intros ms0 H0. rewrite (load_loaded _ _ H0) in Hload. congruence.
Qed.

Lemma delete_unknown_changes_nothing_witness :
  delete (lit "Z") demo_store = (demo_store, Ok false)
  /\ memories_file demo_store = memories_file demo_store
  /\ chunks_file demo_store = chunks_file demo_store
  /\ (forall ms0, _memories demo_store = Some ms0 -> demo_store = demo_store).
Proof.
  apply (@delete_unknown_changes_nothing demo_store demo_store demo_memories
           (lit "Z")).
  - reflexivity.
  - reflexivity.
  - vm_compute. intuition discriminate.
Defined.

(** ** [search] on an empty index *)

(** C9. On a store whose chunk table is empty, [search] returns the empty
    list without raising, whatever the query, threshold and minimum are,
    and makes no call to the embedding service. *)
Theorem search_empty_store sort_values s s1 query threshold min_results :
  _load s = (s1, Ok tt) -> _chunks s1 = Some [] ->
  search sort_values query threshold min_results s = (s1, Ok [])
  /\ client_calls s1 = client_calls s.
Proof.
  intros Hload Hcs. destruct (load_frame _ _ _ Hload) as (_ & _ & _ & Hn).
  split; [|exact Hn].
  unfold search. rewrite (after_load _ _ _ Hload).
  unfold bind at 1. rewrite (load_idempotent _ _ _ Hload).
  unfold bind at 1, get_some. rewrite Hcs. reflexivity.
Qed.

Lemma search_empty_store_witness :
  search stable_sort_values (lit "anything") SIMILARITY_THRESHOLD MIN_RESULTS
         (init None None demo_client)
  = (view (init None None demo_client), Ok [])
  /\ client_calls (view (init None None demo_client))
     = client_calls (init None None demo_client).
Proof.
  apply (@search_empty_store stable_sort_values (init None None demo_client)
           (view (init None None demo_client)) (lit "anything")
           SIMILARITY_THRESHOLD MIN_RESULTS).
  - reflexivity.
  - reflexivity.
Defined.

(** ** A failed embedding call inside [save] *)

(** C4. [save] appends the memory row to [self._memories] (line 126)
    before it calls the embedding service (line 130).  On [demo_store] the
    fourth batch call fails: the error propagates and neither file is
    written, but the cached memory table keeps the row of the aborted
    memory, [get_all] serves it, and the next successful mutation writes it
    to the memories file although no chunk row exists for it. *)
Theorem save_failure_keeps_aborted_row :
  let r := save (lit "D") (lit "t4") (lit "delta") demo_store in
  let s := fst r in
  snd r = Raise EmbeddingProviderError
  /\ memories_file s = memories_file demo_store
  /\ chunks_file s = chunks_file demo_store
  /\ _chunks s = _chunks demo_store
  /\ _chunk_embeddings s = _chunk_embeddings demo_store
  /\ memories_file s = Some demo_memories
  /\ _memories s = Some (demo_memories ++ [aborted_row])
  /\ snd (get_all s) = Ok (demo_memories ++ [aborted_row])
  /\ (let s' := fst (delete (lit "A") s) in
      In aborted_row (or_empty (memories_file s'))
      /\ chunk_rows_of (lit "D") (or_empty (chunks_file s')) = []).
Proof. vm_compute. intuition. Qed.

(** ** Order facts on scores *)

Lemma qmax_cases a b : qmax a b = a \/ qmax a b = b.
Proof. unfold qmax. destruct (Qle_bool a b); auto. Qed.

Lemma qmax_ge_l a b : (a <= qmax a b)%Q.
Proof.
  unfold qmax. destruct (Qle_bool a b) eqn:E.
  - apply Qle_bool_iff. exact E.
  - apply Qle_refl.
Qed.

Lemma qmax_ge_r a b : (b <= qmax a b)%Q.
Proof.
  unfold qmax. destruct (Qle_bool a b) eqn:E.
  - apply Qle_refl.
  - apply Qlt_le_weak, Qnot_le_lt. intros H.
    apply Qle_bool_iff in H. congruence.
Qed.

Lemma Qle_bool_false a b : Qle_bool a b = false <-> (b < a)%Q.
Proof.
  split.
  - intros E. apply Qnot_le_lt. intros H. apply Qle_bool_iff in H.
    congruence.
  - intros H. destruct (Qle_bool a b) eqn:E; [|reflexivity].
    apply Qle_bool_iff in E. exfalso. exact (Qlt_not_le _ _ H E).
Qed.

(** ** Grouping *)

Lemma group_insert_keys k s g k' :
  In k' (map fst (group_insert k s g)) <-> k' = k \/ In k' (map fst g).
Proof.
  induction g as [|[k0 s0] g IH]; simpl.
  - intuition.
  - destruct (str_eqb k0 k) eqn:E; simpl.
    + apply str_eqb_eq in E. subst k0. intuition.
    + rewrite IH. intuition.
Qed.

Lemma group_insert_nodup k s g :
  NoDup (map fst g) -> NoDup (map fst (group_insert k s g)).
Proof.
  induction g as [|[k0 s0] g IH]; simpl; intros H.
  - constructor; [simpl; tauto|constructor].
  - inversion H as [|? ? Hn Hd]; subst.
    destruct (str_eqb k0 k) eqn:E; simpl.
    + constructor; assumption.
    + constructor; [|apply IH; exact Hd].
      rewrite group_insert_keys. intros [->|Hin]; [|exact (Hn Hin)].
      rewrite str_eqb_refl in E. discriminate.
Qed.

(** An entry of [group_insert k s g] is an old entry of another key, the
    new pair when [k] is new, or the old entry of [k] raised to [s]. *)
Lemma group_insert_in k s g k' v :
  NoDup (map fst g) ->
  In (k', v) (group_insert k s g) ->
  (k' <> k /\ In (k', v) g)
  \/ (k' = k /\ ~ In k (map fst g) /\ v = s)
  \/ (k' = k /\ exists v0, In (k, v0) g /\ v = qmax v0 s).
Proof.
  induction g as [|[k0 s0] g IH]; simpl; intros Hnd.
  - intros [[= <- <-]|[]]. right. left. tauto.
  - inversion Hnd as [|? ? Hn Hd]; subst.
    destruct (str_eqb k0 k) eqn:E; simpl.
    + apply str_eqb_eq in E. subst k0. intros [[= <- <-]|Hin].
      * right. right. split; [reflexivity|]. exists s0. auto.
      * left. split; [|auto]. intros ->. apply Hn.
        apply in_map_iff. exists (k, v). auto.
    + apply str_eqb_neq in E. intros [[= <- <-]|Hin].
      * left. auto.
      * destruct (IH Hd Hin)
          as [[Hne H]|[(-> & Hni & ->)|(-> & v0 & H & ->)]].
        -- left. auto.
        -- right. left. intuition.
        -- right. right. split; [reflexivity|]. exists v0. auto.
Qed.

Lemma groups_of_step seen g k s :
  groups_of seen g -> groups_of (seen ++ [(k, s)]) (group_insert k s g).
Proof.
  intros (Hnd & Hkeys & Hval). split; [|split].
  - apply group_insert_nodup. exact Hnd.
  - intros k'. rewrite group_insert_keys, map_app, in_app_iff, Hkeys.
    simpl. intuition.
  - intros k' v Hin.
    destruct (group_insert_in _ _ _ _ _ Hnd Hin)
      as [[Hne H]|[(-> & Hni & ->)|(-> & v0 & H & ->)]].
    + destruct (Hval _ _ H) as [Hs Hmax]. split.
      * apply in_app_iff. auto.
      * intros v' Hv'. apply in_app_iff in Hv'.
        destruct Hv' as [Hv'|[[= <- <-]|[]]]; [auto|congruence].
    + split.
      * apply in_app_iff. right. simpl. auto.
      * intros v' Hv'. apply in_app_iff in Hv'.
        destruct Hv' as [Hv'|[[= <-]|[]]]; [|apply Qle_refl].
        exfalso. apply Hni, Hkeys, in_map_iff. exists (k, v'). auto.
    + destruct (Hval _ _ H) as [Hs Hmax]. split.
      * apply in_app_iff. destruct (qmax_cases v0 s) as [-> | ->];
          [left; exact Hs | right; simpl; auto].
      * intros v' Hv'. apply in_app_iff in Hv'.
        destruct Hv' as [Hv'|[[= <-]|[]]].
        -- apply Qle_trans with v0; [auto|apply qmax_ge_l].
        -- apply qmax_ge_r.
Qed.

Lemma group_fold_spec l seen g :
  groups_of seen g ->
  groups_of (seen ++ l)
            (fold_left (fun g r => group_insert (fst r) (snd r) g) l g).
Proof.
  revert seen g. induction l as [|[k s] l IH]; intros seen g H; simpl.
  - rewrite app_nil_r. exact H.
  - replace (seen ++ (k, s) :: l) with ((seen ++ [(k, s)]) ++ l)
      by (rewrite <- app_assoc; reflexivity).
    apply IH. apply groups_of_step. exact H.
Qed.

Lemma group_max_spec l : groups_of l (group_max l).
Proof.
  apply (@group_fold_spec l [] []). split; [constructor|].
  split; simpl; tauto.
Qed.

(** ** Sorting *)

Lemma insert_by_perm {A} (leb : A -> A -> bool) x l :
  Permutation (x :: l) (insert_by leb x l).
Proof.
  induction l as [|y l IH]; simpl; [reflexivity|].
  destruct (leb x y); [reflexivity|].
  rewrite perm_swap. apply perm_skip. exact IH.
Qed.

Lemma sort_by_perm {A} (leb : A -> A -> bool) l :
  Permutation l (sort_by leb l).
Proof.
  induction l as [|x l IH]; simpl; [reflexivity|].
  rewrite <- insert_by_perm. apply perm_skip. exact IH.
Qed.

Lemma groups_of_perm seen g g' :
  Permutation g g' -> groups_of seen g -> groups_of seen g'.
Proof.
  intros Hp (Hnd & Hkeys & Hval). split; [|split].
  - apply (Permutation_NoDup (Permutation_map fst Hp)). exact Hnd.
  - intros k. rewrite <- Hkeys. split; apply Permutation_in;
      [symmetry|]; apply Permutation_map; exact Hp.
  - intros k v Hin. apply Hval.
    apply (Permutation_in _ (Permutation_sym Hp)). exact Hin.
Qed.

Lemma combine_scored q cs :
  combine (map c_memory_id cs) (map (fun r => dot r q) (map c_embedding cs))
  = scored q cs.
Proof.
  induction cs as [|c cs IH]; simpl; [reflexivity|]. rewrite IH.
  reflexivity.
Qed.

Lemma groupby_max_spec q cs :
  groups_of (scored q cs)
            (groupby_max cs (map (fun r => dot r q) (map c_embedding cs))).
Proof.
  unfold groupby_max. rewrite combine_scored.
  eapply groups_of_perm; [apply sort_by_perm|apply group_max_spec].
Qed.

(** ** The result walk *)

Lemma memory_rows_of_nonempty j ms :
  In j (map m_id ms) -> memory_rows_of j ms <> [].
Proof.
  intros H. apply in_map_iff in H. destruct H as (m & <- & Hin).
  intros E. assert (Hm : In m (memory_rows_of (m_id m) ms)).
  { apply filter_In. split; [exact Hin|apply str_eqb_refl]. }
  rewrite E in Hm. exact Hm.
Qed.

Lemma len_app_one {A} (l : list A) (x : A) : len (l ++ [x]) = len l + 1.
Proof. unfold len. rewrite length_app. simpl. lia. Qed.

(** The walk keeps a prefix of the ranked rows: row [i] is kept when its
    score reaches the threshold or fewer than [min_results] entries have
    been kept before it, and the first row that fails both ends the walk. *)
Lemma walk_spec ms threshold min_results best :
  (forall e, In e best -> In (fst e) (map m_id ms)) ->
  forall acc,
  exists k new,
    walk ms threshold min_results best acc = Ok (acc ++ new)
    /\ (k <= length best)%nat
    /\ Forall2 (hydrated ms) (firstn k best) new
    /\ (forall i e, (i < k)%nat -> nth_error best i = Some e ->
          (threshold <= snd e)%Q \/ len acc + Z.of_nat i < min_results)
    /\ (forall e, nth_error best k = Some e ->
          ~ (threshold <= snd e)%Q /\ ~ len acc + Z.of_nat k < min_results).
Proof.
  induction best as [|[memory_id sim] rest IH]; intros Href acc.
  - exists 0%nat, []. cbn. rewrite app_nil_r.
    repeat split; try constructor; try discriminate; intros; lia.
  - cbn [walk].
    destruct (Qle_bool threshold sim || (len acc <? min_results)) eqn:E.
    + assert (Hne := memory_rows_of_nonempty memory_id ms
                       (Href (memory_id, sim) (or_introl eq_refl))).
      unfold memory_rows_of in Hne.
      destruct (filter (fun m => str_eqb (m_id m) memory_id) ms)
        as [|memory others] eqn:Hf; [congruence|].
      destruct (IH (fun e H => Href e (or_intror H))
                   (acc ++ [mk_result memory_id (m_content memory) sim
                                      (m_created_at memory)]))
        as (k & new & Hw & Hk & Hh & Hin & Hstop).
      exists (S k), (mk_result memory_id (m_content memory) sim
                               (m_created_at memory) :: new).
      rewrite Hw, <- app_assoc. cbn [app firstn length].
      split; [reflexivity|]. split; [lia|]. split; [|split].
      * constructor; [|exact Hh]. unfold hydrated, memory_rows_of. cbn.
        rewrite Hf. cbn. split; [reflexivity|]. split; [reflexivity|].
        exists memory. auto.
      * intros [|i] e Hi Hn; cbn in Hn.
        -- injection Hn as <-. cbn.
           apply orb_true_iff in E. destruct E as [E|E].
           ++ left. apply Qle_bool_iff. exact E.
           ++ right. apply Z.ltb_lt in E. lia.
        -- destruct (Hin i e ltac:(lia) Hn) as [H|H]; [left; exact H|].
           right. rewrite len_app_one in H. lia.
      * intros e Hn. cbn in Hn. destruct (Hstop e Hn) as [H1 H2].
        split; [exact H1|]. rewrite len_app_one in H2. lia.
    + exists 0%nat, []. rewrite app_nil_r. cbn.
      split; [reflexivity|]. split; [lia|]. split; [constructor|].
      split; [intros; lia|].
      intros e [= <-]. cbn. apply orb_false_iff in E. destruct E as [E1 E2].
      split.
      * intros H. apply Qle_bool_iff in H. congruence.
      * apply Z.ltb_ge in E2. lia.
Qed.

(** ** Running [search] *)

Lemma search_runs sort_values mf cf cl n ms cs m query threshold min_results
      q rest :
  cs <> [] -> rows m = map c_embedding cs -> ncols m = length q ->
  cl n (One query) = Some (q :: rest) ->
  search sort_values query threshold min_results
         (mk_manager mf cf cl n (Some ms) (Some cs) (Some m))
  = (mk_manager mf cf cl (S n) (Some ms) (Some cs) (Some m),
     walk ms threshold min_results
          (sort_values
             (groupby_max cs (map (fun r => dot r q) (map c_embedding cs))))
          []).
Proof.
  intros Hne Hrows Hcols Hcl. unfold search. run_monad.
  replace (len cs =? 0) with false
    by (symmetry; apply Z.eqb_neq; unfold len; destruct cs;
        [congruence | cbn; lia]).
  cbn. rewrite Hcl. cbn. unfold matvec. rewrite Hcols, Nat.eqb_refl. cbn.
  rewrite Hrows, !length_map, Nat.eqb_refl. cbn. reflexivity.
Qed.

Lemma groups_of_keys_ref ms q cs best :
  references_ok ms cs -> groups_of (scored q cs) best ->
  forall e, In e best -> In (fst e) (map m_id ms).
Proof.
  intros Href (_ & Hkeys & _) e He.
  assert (Hk : In (fst e) (map fst (scored q cs))).
  { apply Hkeys. apply in_map. exact He. }
  unfold scored in Hk. rewrite map_map in Hk. cbn in Hk.
  apply in_map_iff in Hk. destruct Hk as (c & <- & Hc). apply Href, Hc.
Qed.

(** What a ranking [search] returns: [best] holds one row per memory that
    has chunks, carrying the largest of its chunk similarities, in
    non-increasing order; the result is the hydrated prefix of [best] of
    length [k] chosen by the walk. *)
Lemma search_core sort_values d s s1 ms cs query q threshold min_results :
  sorts_descending sort_values ->
  search_ready d s s1 ms cs query q ->
  exists best k results,
    search sort_values query threshold min_results s
    = (set_client_calls (S (client_calls s1)) s1, Ok results)
    /\ groups_of (scored q cs) best
    /\ StronglySorted descending best
    /\ (k <= length best)%nat
    /\ Forall2 (hydrated ms) (firstn k best) results
    /\ (forall i e, (i < k)%nat -> nth_error best i = Some e ->
          (threshold <= snd e)%Q \/ Z.of_nat i < min_results)
    /\ (forall e, nth_error best k = Some e ->
          ~ (threshold <= snd e)%Q /\ ~ Z.of_nat k < min_results).
Proof.
  intros [Hperm Hsorted]
         (Hload & Hok & Hms & Hcs & Hne & Href & (rest & Hcl) & Hq).
  destruct Hok as (ms0 & cs0 & m & Hms0 & Hcs0 & Hm & Hrows & Hdim & Hcols).
  rewrite Hms in Hms0. rewrite Hcs in Hcs0.
  injection Hms0 as <-. injection Hcs0 as <-.
  unfold search. rewrite (after_load _ _ _ Hload).
  fold (search sort_values query threshold min_results s1).
  destruct s1 as [mf cf cl n oms ocs om]. cbn in Hms, Hcs, Hm, Hcl.
  subst oms ocs om.
  rewrite (search_runs sort_values mf cf cl n ms cs m query threshold
             min_results q rest Hne Hrows
             (eq_trans (Hcols Hne) (eq_sym Hq)) Hcl).
  set (grouped := groupby_max cs (map (fun r => dot r q) (map c_embedding cs))).
  assert (Hg : groups_of (scored q cs) (sort_values grouped)).
  { eapply groups_of_perm; [apply Hperm|apply groupby_max_spec]. }
  destruct (walk_spec ms threshold min_results (sort_values grouped)
              (groups_of_keys_ref ms q cs _ Href Hg) [])
    as (k & new & Hw & Hk & Hh & Hin & Hstop).
  exists (sort_values grouped), k, new. cbn in Hw. rewrite Hw.
  split; [reflexivity|]. split; [exact Hg|]. split; [apply Hsorted|].
  split; [exact Hk|]. split; [exact Hh|]. split.
  - intros i e Hi Hn. destruct (Hin i e Hi Hn); [left|right]; auto.
  - intros e Hn. destruct (Hstop e Hn). split; auto.
Qed.

(** ** The stable sort meets the sorting contract *)

Lemma insert_desc_sorted x l :
  StronglySorted descending l ->
  StronglySorted descending
    (insert_by (fun a b => Qle_bool (snd b) (snd a)) x l).
Proof.
  induction l as [|y l IH]; intros H; cbn.
  - constructor; constructor.
  - inversion H as [|? ? Hs Hf]; subst.
    destruct (Qle_bool (snd y) (snd x)) eqn:E.
    + apply Qle_bool_iff in E. constructor; [exact H|].
      constructor; [exact E|].
      eapply Forall_impl; [|exact Hf]. unfold descending. intros z Hz.
      eapply Qle_trans; eassumption.
    + apply Qle_bool_false in E. constructor; [apply IH; exact Hs|].
      eapply Permutation_Forall; [apply insert_by_perm|].
      constructor; [|exact Hf]. unfold descending.
      apply Qlt_le_weak. exact E.
Qed.

Lemma stable_sort_values_ok : sorts_descending stable_sort_values.
Proof.
  split; intros l.
  - apply sort_by_perm.
  - unfold stable_sort_values. induction l as [|x l IH]; cbn.
    + constructor.
    + apply insert_desc_sorted. exact IH.
Qed.

(** A list already in strictly decreasing score order is left as it is by
    every sort that meets the contract. *)
Lemma strictly_sorted_perm_eq (l l' : list (str * Q)) :
  StronglySorted (fun a b => (snd b < snd a)%Q) l ->
  StronglySorted descending l' ->
  Permutation l l' -> l = l'.
Proof.
  revert l'. induction l as [|a t IH]; intros l' Hs Hs' Hp.
  - apply Permutation_nil in Hp. congruence.
  - destruct l' as [|a' t'].
    + apply Permutation_sym, Permutation_nil in Hp. discriminate.
    + inversion Hs as [|? ? Hst Hft]; subst.
      inversion Hs' as [|? ? Hst' Hft']; subst.
      assert (Ha : a = a').
      { assert (H1 : In a (a' :: t'))
          by (apply (Permutation_in _ Hp); left; reflexivity).
        assert (H2 : In a' (a :: t))
          by (apply (Permutation_in _ (Permutation_sym Hp)); left;
              reflexivity).
        destruct H1 as [H1|H1]; [congruence|].
        destruct H2 as [H2|H2]; [congruence|].
        rewrite Forall_forall in Hft, Hft'.
        specialize (Hft _ H2). specialize (Hft' _ H1).
        unfold descending in Hft'. exfalso.
        exact (Qlt_not_le _ _ Hft Hft'). }
      subst a'. f_equal. apply IH; [exact Hst|exact Hst'|].
      exact (Permutation_cons_inv Hp).
Qed.

Lemma sort_values_fixed sort_values l :
  sorts_descending sort_values ->
  StronglySorted (fun a b => (snd b < snd a)%Q) l ->
  sort_values l = l.
Proof.
  intros [Hp Hs] Hl. symmetry.
  apply strictly_sorted_perm_eq; [exact Hl|apply Hs|apply Hp].
Qed.

(** ** Example stores for [search] *)

Lemma demo_store_eq :
  demo_store
  = mk_manager (Some demo_memories) (Some demo_chunks) demo_client 3
               (Some demo_memories) (Some demo_chunks)
               (Some (mk_ndarray (map c_embedding demo_chunks) 2)).
Proof. reflexivity. Qed.

Lemma demo_search_ready :
  search_ready 2 demo_store demo_store demo_memories demo_chunks
               (lit "query") [1; 0]%Q.
Proof.
  split; [reflexivity|]. split; [exact demo_store_ok|].
  split; [reflexivity|]. split; [reflexivity|].
  split; [discriminate|]. split.
  - intros c Hc. vm_compute in Hc. vm_compute. intuition (subst; auto).
  - split; [exists []; reflexivity | reflexivity].
Qed.

Lemma multi_search_ready :
  search_ready 2 multi_store multi_store multi_memories multi_chunks
               (lit "query") [1; 0]%Q.
Proof.
  split; [reflexivity|]. split.
  - exists multi_memories, multi_chunks,
      (mk_ndarray (map c_embedding multi_chunks) 2).
    repeat split; try reflexivity. repeat constructor.
  - split; [reflexivity|]. split; [reflexivity|].
    split; [discriminate|]. split.
    + intros c Hc. vm_compute in Hc. vm_compute. intuition (subst; auto).
    + split; [exists []; reflexivity | reflexivity].
Qed.

Ltac strictly_sorted :=
  vm_compute; repeat (constructor; try reflexivity).

Lemma demo_store_search sort_values :
  sorts_descending sort_values ->
  snd (search sort_values (lit "query") SIMILARITY_THRESHOLD MIN_RESULTS
              demo_store)
  = Ok [ mk_result (lit "A") (lit "alpha") (9 # 10) (lit "t1");
         mk_result (lit "B") (lit "beta") (5 # 10) (lit "t2");
         mk_result (lit "C") (lit "gamma") (1 # 10) (lit "t3") ].
Proof.
  intros Hsv. rewrite demo_store_eq.
  rewrite (search_runs sort_values _ _ _ _ _ _ _ _ _ _ [1; 0]%Q []);
    try reflexivity; [|discriminate].
  rewrite (sort_values_fixed sort_values _ Hsv) by strictly_sorted.
  reflexivity.
Qed.

Lemma demo_store_search_floor sort_values :
  sorts_descending sort_values ->
  snd (search sort_values (lit "query") (9 # 10) 1 demo_store)
  = Ok [ mk_result (lit "A") (lit "alpha") (9 # 10) (lit "t1") ].
Proof.
  intros Hsv. rewrite demo_store_eq.
  rewrite (search_runs sort_values _ _ _ _ _ _ _ _ _ _ [1; 0]%Q []);
    try reflexivity; [|discriminate].
  rewrite (sort_values_fixed sort_values _ Hsv) by strictly_sorted.
  reflexivity.
Qed.

Lemma multi_store_search sort_values :
  sorts_descending sort_values ->
  snd (search sort_values (lit "query") SIMILARITY_THRESHOLD MIN_RESULTS
              multi_store)
  = Ok [ mk_result (lit "X") (lit "x0 x1 x2") (95 # 100) (lit "t1");
         mk_result (lit "Y") (lit "y0") (6 # 10) (lit "t2") ].
Proof.
  intros Hsv. unfold multi_store.
  rewrite (search_runs sort_values _ _ _ _ _ _ _ _ _ _ [1; 0]%Q []);
    try reflexivity; [|discriminate].
  rewrite (sort_values_fixed sort_values _ Hsv) by strictly_sorted.
  reflexivity.
Qed.

(** ** Ranking policy *)

(** C2. On a non-empty store [search] ranks one row per memory by its
    best-chunk score, in non-increasing order, and returns the hydrated
    rows of a prefix of that ranking: the row at position [i] is included
    when its score is at least [threshold] or fewer than [min_results]
    rows (namely [i]) have been included before it, and the first row that
    meets neither condition ends the walk.  On the store with scores
    A = 0.9, B = 0.5, C = 0.1, threshold 0.3 and minimum 3 give
    [A, B, C]. *)
Theorem search_walk_policy sort_values :
  sorts_descending sort_values ->
  (forall d s s1 ms cs query q threshold min_results,
      search_ready d s s1 ms cs query q ->
      exists best k results,
        snd (search sort_values query threshold min_results s) = Ok results
        /\ groups_of (scored q cs) best
        /\ StronglySorted descending best
        /\ (k <= length best)%nat
        /\ Forall2 (hydrated ms) (firstn k best) results
        /\ (forall i e, (i < k)%nat -> nth_error best i = Some e ->
              (threshold <= snd e)%Q \/ Z.of_nat i < min_results)
        /\ (forall e, nth_error best k = Some e ->
              ~ (threshold <= snd e)%Q /\ ~ Z.of_nat k < min_results))
  /\ (exists results,
        snd (search sort_values (lit "query") (3 # 10) 3 demo_store)
        = Ok results
        /\ map r_id results = [lit "A"; lit "B"; lit "C"]
        /\ map r_similarity results = [9 # 10; 5 # 10; 1 # 10]).
Proof.
  intros Hsv. split.
  - intros d s s1 ms cs query q threshold min_results Hready.
    destruct (search_core sort_values d s s1 ms cs query q threshold
                min_results Hsv Hready)
      as (best & k & results & Heq & H).
    exists best, k, results. rewrite Heq. split; [reflexivity|exact H].
  - eexists. split; [apply (demo_store_search sort_values Hsv)|].
    split; reflexivity.
Qed.

Lemma search_walk_policy_witness :
  (exists best k results,
      snd (search stable_sort_values (lit "query") (3 # 10) 3 demo_store)
      = Ok results
      /\ StronglySorted descending best
      /\ Forall2 (hydrated demo_memories) (firstn k best) results)
  /\ (exists results,
        snd (search stable_sort_values (lit "query") (3 # 10) 3 demo_store)
        = Ok results
        /\ map r_id results = [lit "A"; lit "B"; lit "C"]
        /\ map r_similarity results = [9 # 10; 5 # 10; 1 # 10]).
Proof.
  destruct (search_walk_policy stable_sort_values stable_sort_values_ok)
    as [Hgen Hex].
  split; [|exact Hex].
  destruct (Hgen 2%nat demo_store demo_store demo_memories demo_chunks
                 (lit "query") [1; 0]%Q (3 # 10)%Q 3 demo_search_ready)
    as (best & k & results & Heq & _ & Hs & _ & Hh & _).
  exists best, k, results. auto.
Defined.

(** ** Scoring by the best chunk *)

Lemma in_scored q cs k v :
  In (k, v) (scored q cs) <->
  exists c, In c cs /\ c_memory_id c = k /\ dot (c_embedding c) q = v.
Proof.
  unfold scored. rewrite in_map_iff. split.
  - intros (c & [= <- <-] & Hc). eauto.
  - intros (c & Hc & <- & <-). eauto.
Qed.

Lemma Forall2_in_r {A B} (R : A -> B -> Prop) l rs r :
  Forall2 R l rs -> In r rs -> exists e, In e l /\ R e r.
Proof.
  induction 1 as [|e r' l rs HR _ IH]; intros Hin; [destruct Hin|].
  destruct Hin as [<-|Hin].
  - exists e. split; [left; reflexivity|exact HR].
  - destruct (IH Hin) as (e' & He' & HR'). exists e'. split; [right|]; auto.
Qed.

Lemma firstn_in {A} k (l : list A) x : In x (firstn k l) -> In x l.
Proof.
  intros H. rewrite <- (firstn_skipn k l). apply in_app_iff. auto.
Qed.

Lemma StronglySorted_firstn {A} (R : A -> A -> Prop) k l :
  StronglySorted R l -> StronglySorted R (firstn k l).
Proof.
  revert k. induction l as [|x l IH]; intros [|k] H; cbn;
    try constructor.
  - inversion H; subst. apply IH. assumption.
  - inversion H as [|? ? _ Hf]; subst. rewrite Forall_forall in *.
    intros y Hy. apply Hf. exact (firstn_in _ _ _ Hy).
Qed.

Lemma hydrated_sorted ms l rs :
  Forall2 (hydrated ms) l rs -> StronglySorted descending l ->
  StronglySorted (fun a b => (r_similarity b <= r_similarity a)%Q) rs.
Proof.
  induction 1 as [|e r l rs HR HF IH]; intros Hs; [constructor|].
  inversion Hs as [|? ? Hst Hfa]; subst. constructor; [apply IH; exact Hst|].
  apply Forall_forall. intros r' Hr'.
  destruct (Forall2_in_r _ _ _ _ HF Hr') as (e' & He' & HR').
  rewrite Forall_forall in Hfa. specialize (Hfa _ He').
  unfold descending in Hfa. destruct HR as (_ & -> & _).
  destruct HR' as (_ & -> & _). exact Hfa.
Qed.

(** C3. The similarity [search] reports for a memory is the largest dot
    product of the query vector with one of that memory's chunk
    embeddings: it is attained by one of its chunks and no chunk of the
    memory exceeds it; the result is in non-increasing order of that
    value.  A memory whose chunks score 0.2, 0.95 and 0.4 is reported
    with 0.95 and ranks above a memory scoring 0.6, which its average
    would not. *)
Theorem search_scores_by_best_chunk sort_values :
  sorts_descending sort_values ->
  (forall d s s1 ms cs query q threshold min_results,
      search_ready d s s1 ms cs query q ->
      exists results,
        snd (search sort_values query threshold min_results s) = Ok results
        /\ StronglySorted
             (fun a b => (r_similarity b <= r_similarity a)%Q) results
        /\ forall r, In r results ->
             (exists c, In c cs /\ c_memory_id c = r_id r
                        /\ dot (c_embedding c) q = r_similarity r)
             /\ (forall c, In c cs -> c_memory_id c = r_id r ->
                   (dot (c_embedding c) q <= r_similarity r)%Q))
  /\ (exists results,
        snd (search sort_values (lit "query") (3 # 10) 3 multi_store)
        = Ok results
        /\ map r_id results = [lit "X"; lit "Y"]
        /\ map r_similarity results = [95 # 100; 6 # 10]).
Proof.
  intros Hsv. split.
  - intros d s s1 ms cs query q threshold min_results Hready.
    destruct (search_core sort_values d s s1 ms cs query q threshold
                min_results Hsv Hready)
      as (best & k & results & Heq & Hg & Hs & _ & Hh & _).
    exists results. rewrite Heq. split; [reflexivity|]. split.
    + apply (hydrated_sorted ms (firstn k best)); [exact Hh|].
      apply StronglySorted_firstn. exact Hs.
    + intros r Hr.
      destruct (Forall2_in_r _ _ _ _ Hh Hr) as ([j v] & He & Hj & Hv & _).
      cbn in Hj, Hv. apply firstn_in in He.
      destruct Hg as (_ & _ & Hval). destruct (Hval _ _ He) as [Hin Hmax].
      rewrite Hj, Hv. split.
      * apply in_scored. exact Hin.
      * intros c Hc Hown. apply Hmax. apply in_scored. eauto.
  - eexists. split; [apply (multi_store_search sort_values Hsv)|].
    split; reflexivity.
Qed.

Lemma search_scores_by_best_chunk_witness :
  (exists results,
      snd (search stable_sort_values (lit "query") (3 # 10) 3 multi_store)
      = Ok results
      /\ StronglySorted
           (fun a b => (r_similarity b <= r_similarity a)%Q) results)
  /\ (exists results,
        snd (search stable_sort_values (lit "query") (3 # 10) 3 multi_store)
        = Ok results
        /\ map r_id results = [lit "X"; lit "Y"]
        /\ map r_similarity results = [95 # 100; 6 # 10]).
Proof.
  destruct (search_scores_by_best_chunk stable_sort_values
              stable_sort_values_ok) as [Hgen Hex].
  split; [|exact Hex].
  destruct (Hgen 2%nat multi_store multi_store multi_memories multi_chunks
                 (lit "query") [1; 0]%Q (3 # 10)%Q 3 multi_search_ready)
    as (results & Heq & Hs & _).
  exists results. auto.
Defined.

(** ** One entry per memory *)

Lemma hydrated_ids ms l rs :
  Forall2 (hydrated ms) l rs -> map r_id rs = map fst l.
Proof.
  induction 1 as [|e r l rs (Hid & _) _ IH]; cbn; [reflexivity|].
  rewrite Hid, IH. reflexivity.
Qed.

Lemma NoDup_firstn {A} k (l : list A) : NoDup l -> NoDup (firstn k l).
Proof.
  intros H. rewrite <- (firstn_skipn k l) in H.
  exact (NoDup_app_remove_r _ _ H).
Qed.

(** C10. No memory id occurs twice in the list [search] returns, so the
    list is no longer than the number of distinct memories owning a
    chunk; a memory with two chunks above the threshold is listed once. *)
Theorem search_results_distinct sort_values :
  sorts_descending sort_values ->
  (forall d s s1 ms cs query q threshold min_results,
      search_ready d s s1 ms cs query q ->
      exists results,
        snd (search sort_values query threshold min_results s) = Ok results
        /\ NoDup (map r_id results)
        /\ (length results <= length (distinct_ids cs))%nat)
  /\ (exists results,
        snd (search sort_values (lit "query") (3 # 10) 3 multi_store)
        = Ok results
        /\ map r_id results = [lit "X"; lit "Y"]).
Proof.
  intros Hsv. split.
  - intros d s s1 ms cs query q threshold min_results Hready.
    destruct (search_core sort_values d s s1 ms cs query q threshold
                min_results Hsv Hready)
      as (best & k & results & Heq & (Hnd & Hkeys & _) & _ & Hk & Hh & _).
    exists results. rewrite Heq. split; [reflexivity|].
    assert (Hids := hydrated_ids _ _ _ Hh).
    split.
    + rewrite Hids, <- firstn_map. apply NoDup_firstn. exact Hnd.
    + rewrite <- (length_map r_id), Hids, length_map, length_firstn.
      apply Nat.le_trans with (length (map fst best));
        [rewrite length_map; lia|].
      apply NoDup_incl_length; [exact Hnd|].
      intros j Hj. apply nodup_In. apply Hkeys in Hj.
      unfold scored in Hj. rewrite map_map in Hj. exact Hj.
  - eexists. split; [apply (multi_store_search sort_values Hsv)|].
    reflexivity.
Qed.

Lemma search_results_distinct_witness :
  (exists results,
      snd (search stable_sort_values (lit "query") (3 # 10) 3 multi_store)
      = Ok results
      /\ NoDup (map r_id results)
      /\ (length results <= length (distinct_ids multi_chunks))%nat)
  /\ (exists results,
        snd (search stable_sort_values (lit "query") (3 # 10) 3 multi_store)
        = Ok results
        /\ map r_id results = [lit "X"; lit "Y"]).
Proof.
  destruct (search_results_distinct stable_sort_values
              stable_sort_values_ok) as [Hgen Hex].
  split; [|exact Hex].
  exact (Hgen 2%nat multi_store multi_store multi_memories multi_chunks
              (lit "query") [1; 0]%Q (3 # 10)%Q 3 multi_search_ready).
Defined.

(** * The chunker *)

(** ** The chunker on small inputs *)

Example re_split_punctuation :
  re_split (lit "One. Two!  Three?" ++ "010"%char :: lit " Four. ")
  = [lit "One."; lit "Two!"; lit "Three?"; lit "Four."; []].
Proof. reflexivity. Qed.

Example re_split_newline :
  re_split (lit "ab" ++ "010"%char :: lit " cd e")
  = [lit "ab" ++ ["010"%char]; lit "cd e"].
Proof. reflexivity. Qed.

Example chunk_text_short :
  chunk_text (lit "Short. Text.") CHUNK_SIZE CHUNK_OVERLAP
  = [lit "Short. Text."].
Proof. reflexivity. Qed.

Example chunk_text_exact_size :
  chunk_text (lit "Short. Text.") 12 5 = [lit "Short. Text."].
Proof. reflexivity. Qed.

Example chunk_text_overlapping :
  chunk_text
    (lit "The quick brown fox. Jumps over the lazy dog! And then some more text? Yes.")
    30 10
  = [ lit "The quick brown fox.";
      lit "fox. Jumps over the lazy dog!";
      lit "lazy dog! And then some more text?";
      lit "text? Yes." ].
Proof. reflexivity. Qed.

Example chunk_text_blank_fallback :
  chunk_text (lit "      ") 2 1 = [lit "      "].
Proof. reflexivity. Qed.

(** ** Facts on [find] and slices *)

Lemma find_ge ch s : -1 <= find ch s.
Proof.
  induction s as [|c r IH]; cbn; [lia|].
  destruct (Ascii.eqb c ch); [lia|].
  destruct (find ch r <? 0) eqn:E; [lia|]. apply Z.ltb_ge in E. lia.
Qed.

Lemma find_found ch s :
  0 <= find ch s ->
  exists w r, s = w ++ ch :: r /\ ~ In ch w /\ find ch s = len w.
Proof.
  induction s as [|c r IH]; cbn; [lia|].
  destruct (Ascii.eqb c ch) eqn:E.
  - apply Ascii.eqb_eq in E. subst c. intros _. exists [], r. cbn. auto.
  - apply Ascii.eqb_neq in E.
    destruct (find ch r <? 0) eqn:F; [lia|]. apply Z.ltb_ge in F.
    intros _. destruct (IH F) as (w & r' & -> & Hw & Hlen).
    exists (c :: w), r'. split; [reflexivity|]. split.
    + intros [H|H]; [congruence|exact (Hw H)].
    + rewrite Hlen. unfold len. cbn [length]. lia.
Qed.

Lemma find_missing ch s : find ch s < 0 -> ~ In ch s.
Proof.
  induction s as [|c r IH]; cbn; [tauto|].
  destruct (Ascii.eqb c ch) eqn:E; [lia|]. apply Ascii.eqb_neq in E.
  destruct (find ch r <? 0) eqn:F.
  - apply Z.ltb_lt in F. intros _ [H|H]; [congruence|exact (IH F H)].
  - apply Z.ltb_ge in F. lia.
Qed.

Lemma last_chars_suffix k s : exists pre, s = pre ++ last_chars k s.
Proof.
  unfold last_chars. eexists. symmetry. apply firstn_skipn.
Qed.

Lemma last_chars_len k s : 0 < k -> k < len s -> len (last_chars k s) = k.
Proof.
  unfold last_chars, len. intros H1 H2. rewrite length_skipn. lia.
Qed.

(** What the seed is in terms of the tail it is cut from: either a
    non-empty space-free fragment and the first space of the tail are
    dropped, or the tail is kept whole because it holds no space or
    starts with one. *)
Lemma overlap_seed_cases overlap current :
  let tail := last_chars overlap current in
  let seed := overlap_seed overlap current in
  (exists w, w <> [] /\ ~ In " "%char w /\ tail = w ++ " "%char :: seed)
  \/ (seed = tail
      /\ (~ In " "%char tail \/ exists r, tail = " "%char :: r)).
Proof.
  intros tail seed. unfold seed, overlap_seed. fold tail.
  destruct (find " "%char tail >? 0) eqn:E.
  - left. apply Z.gtb_lt in E.
    destruct (find_found " "%char tail ltac:(lia)) as (w & r & Ht & Hw & Hl).
    exists w. split; [|split; [exact Hw|]].
    + intros ->. rewrite Hl in E. cbn in E. lia.
    + rewrite Hl. unfold slice_from, len.
      replace (Z.to_nat (Z.of_nat (length w) + 1)) with (length w + 1)%nat
        by lia.
      rewrite Ht at 2. rewrite skipn_app, skipn_all2 by lia.
      replace (length w + 1 - length w)%nat with 1%nat by lia.
      cbn. exact Ht.
  - right. split; [reflexivity|].
    rewrite Z.gtb_ltb in E. apply Z.ltb_ge in E.
    destruct (Z.eq_dec (find " "%char tail) 0) as [H0|H0].
    + right. destruct (find_found " "%char tail ltac:(lia))
        as (w & r & Ht & _ & Hl).
      rewrite H0 in Hl. destruct w; [|unfold len in Hl; cbn in Hl; lia].
      exists r. exact Ht.
    + left. apply find_missing. pose proof (find_ge " "%char tail). lia.
Qed.

(** ** Seeding the next buffer *)

(** C8, as stated, fails: with [chunk_size = 5] and [overlap = 3] the text
    ["ab. cdefg"] is split into the sentences ["ab."] and ["cdefg"]; the
    second one closes the buffer ["ab."], which is not longer than the
    overlap, so the next buffer is the sentence alone and not
    ["ab. cdefg"]. *)
Lemma seeding_needs_longer_buffer :
  re_split (lit "ab. cdefg") = [lit "ab."; lit "cdefg"]
  /\ chunk_loop 5 3 ([], []) [lit "ab."] = ([], lit "ab.")
  /\ closes 5 (lit "ab.") (lit "cdefg") = true
  /\ snd (chunk_step 5 3 ([], lit "ab.") (lit "cdefg")) = lit "cdefg"
  /\ documented_next_buffer 3 (lit "ab.") (lit "cdefg") = lit "ab. cdefg"
  /\ snd (chunk_step 5 3 ([], lit "ab.") (lit "cdefg"))
     <> documented_next_buffer 3 (lit "ab.") (lit "cdefg")
  /\ chunk_text (lit "ab. cdefg") 5 3 = [lit "ab."; lit "cdefg"].
Proof. vm_compute. repeat split; try reflexivity. discriminate. Qed.

(** C8, amended.  For [overlap > 0], whenever the loop of [chunk_text]
    closes the buffer [current_chunk] on a sentence, the stripped buffer
    is appended to the chunks and:
    - if the buffer has at most [overlap] characters, the next buffer is
      the sentence alone;
    - if it is longer, the next buffer is [seed + " " + sentence], where
      [seed] comes from the last [overlap] characters of the buffer as it
      stood (before stripping): when the first space of that tail is not
      its first character the seed is what follows that space, otherwise
      (no space, or a leading one) the seed is the whole tail. *)
Theorem next_buffer_seeded chunk_size overlap chunks current_chunk sentence :
  0 < overlap ->
  closes chunk_size current_chunk sentence = true ->
  let st := chunk_step chunk_size overlap (chunks, current_chunk) sentence in
  let tail := last_chars overlap current_chunk in
  fst st = chunks ++ [strip current_chunk]
  /\ (len current_chunk <= overlap -> snd st = sentence)
  /\ (overlap < len current_chunk ->
      exists seed,
        snd st = seed ++ " "%char :: sentence
        /\ len tail = overlap
        /\ (exists pre, current_chunk = pre ++ tail)
        /\ ((exists w, w <> [] /\ ~ In " "%char w
                       /\ tail = w ++ " "%char :: seed)
            \/ (seed = tail
                /\ (~ In " "%char tail \/ exists r, tail = " "%char :: r)))).
Proof.
  intros Hov Hcl st tail. unfold st, chunk_step. rewrite Hcl.
  replace (overlap >? 0) with true by (symmetry; apply Z.gtb_lt; lia).
  cbn [andb]. destruct (len current_chunk >? overlap) eqn:E; cbn [fst snd].
  - apply Z.gtb_lt in E. split; [reflexivity|]. split; [lia|].
    intros _. exists (overlap_seed overlap current_chunk).
    split; [reflexivity|].
    split; [apply last_chars_len; lia|].
    split; [apply last_chars_suffix|].
    apply overlap_seed_cases.
  - rewrite Z.gtb_ltb in E. apply Z.ltb_ge in E.
    split; [reflexivity|]. split; [reflexivity|]. lia.
Qed.

Lemma next_buffer_seeded_witness :
  let st := chunk_step 30 10 ([], lit "The quick brown fox.")
                       (lit "Jumps over the lazy dog!") in
  fst st = [lit "The quick brown fox."]
  /\ snd st = lit "fox. Jumps over the lazy dog!".
Proof.
  destruct (next_buffer_seeded 30 10 [] (lit "The quick brown fox.")
              (lit "Jumps over the lazy dog!"))
    as (H1 & _ & H3).
  - lia.
  - reflexivity.
  - split; [exact H1|]. reflexivity.
Defined.

(** ** Stripping *)

Lemma lstrip_split s :
  exists ws, s = ws ++ lstrip s /\ all_space ws
             /\ (lstrip s = [] \/ starts_nonspace (lstrip s)).
Proof.
  induction s as [|c r IH]; cbn.
  - exists []. repeat split; auto. constructor.
  - destruct (isspace c) eqn:E.
    + destruct IH as (ws & Hs & Hws & Hl). exists (c :: ws).
      split; [cbn; congruence|]. split; [constructor; assumption|exact Hl].
    + exists []. split; [reflexivity|]. split; [constructor|].
      right. exists c, r. auto.
Qed.

Lemma rstrip_split s :
  exists ws, s = rstrip s ++ ws /\ all_space ws
             /\ (rstrip s = [] \/ ends_nonspace (rstrip s)).
Proof.
  unfold rstrip. destruct (lstrip_split (rev s)) as (ws & Hs & Hws & Hl).
  exists (rev ws). split; [|split].
  - rewrite <- rev_app_distr, <- Hs, rev_involutive. reflexivity.
  - unfold all_space in *. apply Forall_rev. exact Hws.
  - destruct Hl as [->|(c & r & -> & Hc)]; [left; reflexivity|].
    right. exists (rev r), c. cbn. auto.
Qed.

(** Leading whitespace is removed up to, at most, the start of a part
    that begins with a non-space character. *)
Lemma lstrip_keeps a t b :
  starts_nonspace t -> exists a', lstrip (a ++ t ++ b) = a' ++ t ++ b.
Proof.
  intros (c & r & -> & Hc). induction a as [|x a IH]; cbn.
  - rewrite Hc. exists []. reflexivity.
  - destruct (isspace x); [exact IH|]. exists (x :: a). reflexivity.
Qed.

Lemma rstrip_keeps a t b :
  ends_nonspace t -> exists b', rstrip (a ++ t ++ b) = a ++ t ++ b'.
Proof.
  intros (r & c & -> & Hc). unfold rstrip.
  rewrite !rev_app_distr. cbn [rev app].
  destruct (lstrip_keeps (rev b) (c :: rev r) (rev a))
    as (b' & Hb); [exists c, (rev r); auto|].
  rewrite <- app_assoc. cbn [app] in Hb |- *.
  rewrite Hb. exists (rev b').
  rewrite rev_app_distr. cbn [rev]. rewrite !rev_app_distr.
  cbn [rev app]. rewrite !rev_involutive, <- !app_assoc. reflexivity.
Qed.

Lemma strip_trimmed s : trimmed (strip s).
Proof.
  unfold strip, trimmed.
  destruct (rstrip_split (lstrip s)) as (ws & Hs & _ & [E|He]);
    [left; exact E|].
  right. split; [|exact He].
  destruct (lstrip_split s) as (_ & _ & _ & [E|(c & r & Hl & Hc)]).
  - rewrite E in He. destruct He as (r & c & Hr & _).
    unfold rstrip in Hr. cbn in Hr. destruct r; discriminate.
  - rewrite Hl.
    destruct (rstrip_keeps [] [c] r) as (b' & Hb);
      [exists [], c; auto|].
    cbn [app] in Hb. rewrite Hb. exists c, b'. auto.
Qed.

Lemma infix_refl t : infix t t.
Proof. exists [], []. rewrite app_nil_r. reflexivity. Qed.

Lemma infix_nil x : infix [] x.
Proof. exists [], x. reflexivity. Qed.

Lemma infix_trans t u x : infix t u -> infix u x -> infix t x.
Proof.
  intros (a & b & ->) (a' & b' & ->). exists (a' ++ a), (b ++ b').
  rewrite <- !app_assoc. reflexivity.
Qed.

Lemma infix_app_l t x y : infix t x -> infix t (x ++ y).
Proof.
  intros (a & b & ->). exists a, (b ++ y). rewrite <- !app_assoc.
  reflexivity.
Qed.

Lemma infix_app_r t x y : infix t y -> infix t (x ++ y).
Proof.
  intros (a & b & ->). exists (x ++ a), b. rewrite <- !app_assoc.
  reflexivity.
Qed.

Lemma infix_of_nil t : infix t [] -> t = [].
Proof.
  intros (a & b & H). symmetry in H. apply app_eq_nil in H.
  destruct H as [_ H]. apply app_eq_nil in H. tauto.
Qed.

Lemma strip_infix s : infix (strip s) s.
Proof.
  unfold strip. destruct (lstrip_split s) as (ws & Hs & _).
  destruct (rstrip_split (lstrip s)) as (ws' & Hs' & _).
  exists ws, ws'. rewrite <- Hs'. exact Hs.
Qed.

(** A trimmed part survives the stripping of the whole. *)
Lemma infix_strip t x : trimmed t -> infix t x -> infix t (strip x).
Proof.
  intros [->|[Hs He]] (a & b & ->); [apply infix_nil|].
  unfold strip. destruct (lstrip_keeps a t b Hs) as (a' & ->).
  destruct (rstrip_keeps a' t b He) as (b' & ->).
  exists a', b'. reflexivity.
Qed.

(** ** Words *)

Lemma words_cons c c' r :
  words (c :: c' :: r)
  = if isspace c then words (c' :: r)
    else if isspace c' then [c] :: words (c' :: r)
         else cons_head c (words (c' :: r)).
Proof. reflexivity. Qed.

Lemma words_single c : words [c] = if isspace c then [] else [[c]].
Proof. reflexivity. Qed.

Lemma words_space_head c r : isspace c = true -> words (c :: r) = words r.
Proof. intros H. cbn. rewrite H. reflexivity. Qed.

Lemma words_nonspace_head c r :
  isspace c = false -> exists w ws, words (c :: r) = w :: ws.
Proof.
  revert c. induction r as [|c' r IH]; intros c Hc.
  - cbn. rewrite Hc. eauto.
  - rewrite words_cons, Hc. destruct (isspace c') eqn:E; [eauto|].
    destruct (IH c' E) as (w & ws & ->). cbn. eauto.
Qed.

Lemma words_all_space ws : all_space ws -> words ws = [].
Proof.
  induction 1 as [|c r Hc _ IH]; cbn; [reflexivity|]. rewrite Hc. exact IH.
Qed.

Lemma words_app_space_l ws s : all_space ws -> words (ws ++ s) = words s.
Proof.
  induction 1 as [|c r Hc _ IH]; cbn; [reflexivity|]. rewrite Hc. exact IH.
Qed.

(** A space between two strings separates their words. *)
Lemma words_app_sep a c b :
  isspace c = true -> words (a ++ c :: b) = words a ++ words b.
Proof.
  intros Hc. induction a as [|x a IH]; [apply words_space_head, Hc|].
  destruct a as [|y a'].
  - cbn [app] in *. rewrite words_cons, Hc, words_single.
    destruct (isspace x); [exact IH|]. rewrite IH. reflexivity.
  - cbn [app] in *. rewrite !words_cons.
    destruct (isspace x); [exact IH|].
    destruct (isspace y) eqn:Hy; rewrite IH; [reflexivity|].
    destruct (words_nonspace_head y a' Hy) as (w & ws & ->).
    reflexivity.
Qed.

Lemma words_app_space_r s ws : all_space ws -> words (s ++ ws) = words s.
Proof.
  intros H. destruct ws as [|c r]; [rewrite app_nil_r; reflexivity|].
  inversion H as [|? ? Hc Hr]; subst.
  rewrite (words_app_sep s c r Hc), (words_all_space r Hr), app_nil_r.
  reflexivity.
Qed.

Lemma words_lstrip s : words (lstrip s) = words s.
Proof.
  destruct (lstrip_split s) as (ws & Hs & Hws & _).
  rewrite Hs at 2. symmetry. apply words_app_space_l. exact Hws.
Qed.

Lemma words_rstrip s : words (rstrip s) = words s.
Proof.
  destruct (rstrip_split s) as (ws & Hs & Hws & _).
  rewrite Hs at 2. symmetry. apply words_app_space_r. exact Hws.
Qed.

Lemma words_strip s : words (strip s) = words s.
Proof. unfold strip. rewrite words_rstrip. apply words_lstrip. Qed.

Lemma space_is_space : isspace " "%char = true.
Proof. reflexivity. Qed.

(** ** The sentences of a text carry its words *)

Lemma words_cons_nonspace c r :
  isspace c = false ->
  words (c :: r)
  = if starts_word r then cons_head c (words r) else [c] :: words r.
Proof.
  intros Hc. destruct r as [|c' r'].
  - cbn. rewrite Hc. reflexivity.
  - rewrite words_cons, Hc. cbn [starts_word].
    destruct (isspace c'); reflexivity.
Qed.

Lemma split_scan_nonempty s : forall ae sep, split_scan ae sep s <> [].
Proof.
  induction s as [|c r IH]; intros ae sep; cbn; [discriminate|].
  destruct (isspace c && (sep || ae)).
  - destruct sep; [apply IH|discriminate].
  - destruct (split_scan (sentence_end c) false r); discriminate.
Qed.

(** Outside a separator the piece being built starts a word exactly when
    the remaining text does. *)
Lemma split_scan_head ae s :
  exists p ps, split_scan ae false s = p :: ps
               /\ starts_word p = starts_word s.
Proof.
  destruct s as [|c r]; cbn; [eauto|].
  destruct (isspace c) eqn:Hc; cbn.
  - destruct ae; cbn.
    + eexists _, _. split; reflexivity.
    + destruct (split_scan (sentence_end c) false r) as [|p ps]; cbn;
        eexists _, _; (split; [reflexivity|]); cbn; rewrite Hc; reflexivity.
  - destruct (split_scan (sentence_end c) false r) as [|p ps]; cbn;
      eexists _, _; (split; [reflexivity|]); cbn; rewrite Hc; reflexivity.
Qed.

Lemma words_pieces ae s :
  concat (map words (split_scan ae false s)) = words s
  /\ concat (map words (split_scan ae true s)) = words s.
Proof.
  revert ae. induction s as [|c r IH]; intros ae; [cbn; auto|].
  assert (Hcons : forall ae',
             concat (map words (cons_head c (split_scan ae' false r)))
             = words (c :: r)).
  { intros ae'. destruct (split_scan_head ae' r) as (p & ps & Hp & Hw).
    pose proof (proj1 (IH ae')) as IH1. rewrite Hp in IH1 |- *.
    cbn [cons_head map concat] in IH1 |- *.
    destruct (isspace c) eqn:Hc.
    - cbn [words]. rewrite Hc. exact IH1.
    - rewrite !words_cons_nonspace by exact Hc. rewrite Hw.
      destruct (starts_word r) eqn:Hr.
      + rewrite <- IH1. destruct p as [|c' p']; [discriminate|].
        cbn in Hw. apply negb_true_iff in Hw.
        destruct (words_nonspace_head c' p' Hw) as (w & ws & ->).
        reflexivity.
      + rewrite <- IH1. reflexivity. }
  split; cbn [split_scan].
  - destruct (isspace c) eqn:Hc; cbn [andb orb].
    + destruct ae; [|apply Hcons].
      cbn [map concat words app]. rewrite Hc. apply IH.
    + apply Hcons.
  - destruct (isspace c) eqn:Hc; cbn [andb orb].
    + cbn [words]. rewrite Hc. apply IH.
    + apply Hcons.
Qed.

Lemma words_re_split text : concat (map words (re_split text)) = words text.
Proof. apply (proj1 (words_pieces false text)). Qed.

(** ** The sentences are parts of the text *)

Lemma infix_cons c t x : infix t x -> infix t (c :: x).
Proof. intros H. apply (infix_app_r t [c] x H). Qed.

Lemma split_scan_pieces s :
  forall ae,
    (exists p ps, split_scan ae false s = p :: ps
                  /\ (exists b, s = p ++ b)
                  /\ Forall (fun x => infix x s) ps)
    /\ Forall (fun x => infix x s) (split_scan ae true s).
Proof.
  induction s as [|c r IH]; intros ae.
  - cbn. split.
    + exists [], []. split; [reflexivity|]. split; [exists []; reflexivity|].
      constructor.
    + constructor; [apply infix_refl|constructor].
  - assert (Hcons : forall ae',
               exists p ps,
                 cons_head c (split_scan ae' false r) = p :: ps
                 /\ (exists b, c :: r = p ++ b)
                 /\ Forall (fun x => infix x (c :: r)) ps).
    { intros ae'. destruct (proj1 (IH ae')) as (p & ps & -> & (b & Hb) & Hps).
      exists (c :: p), ps. cbn. split; [reflexivity|].
      split; [exists b; rewrite Hb at 1; reflexivity|].
      eapply Forall_impl; [|exact Hps]. intros x. apply infix_cons. }
    assert (Hsep : forall ae',
               Forall (fun x => infix x (c :: r)) (split_scan ae' true r)).
    { intros ae'. eapply Forall_impl; [|exact (proj2 (IH ae'))].
      intros x. apply infix_cons. }
    split; cbn [split_scan].
    + destruct (isspace c && (false || ae)).
      * exists [], (split_scan (sentence_end c) true r).
        split; [reflexivity|]. split; [exists (c :: r); reflexivity|].
        apply Hsep.
      * apply Hcons.
    + destruct (isspace c && (true || ae)).
      * apply Hsep.
      * destruct (Hcons (sentence_end c)) as (p & ps & -> & (b & Hb) & Hps).
        constructor; [|exact Hps]. exists [], b. exact Hb.
Qed.

Lemma re_split_infix text s : In s (re_split text) -> infix s text.
Proof.
  intros H. unfold re_split in H.
  destruct (proj1 (split_scan_pieces text false))
    as (p & ps & Hp & (b & Hb) & Hps).
  rewrite Hp in H. destruct H as [<-|H].
  - exists [], b. exact Hb.
  - rewrite Forall_forall in Hps. apply Hps, H.
Qed.

(** ** What the loop maintains *)

Lemma truthy_false s : truthy s = false -> s = [].
Proof. destruct s; [reflexivity|discriminate]. Qed.

Lemma chunk_step_covers chunk_size overlap done st s :
  covers done st ->
  covers (done ++ [s]) (chunk_step chunk_size overlap st s).
Proof.
  destruct st as [chunks cur]. intros H x Hx. unfold chunk_step.
  apply in_app_iff in Hx.
  destruct (closes chunk_size cur s) eqn:Hc.
  - assert (Hold : In x done ->
                   exists c, In c (chunks ++ [strip cur])
                             /\ infix (strip x) c).
    { intros Hd. destruct (H x Hd) as [(c & Hin & Hi)|Hi]; cbn in *.
      - exists c. split; [apply in_app_iff; auto|exact Hi].
      - exists (strip cur). split; [apply in_app_iff; cbn; auto|].
        apply infix_strip; [apply strip_trimmed|exact Hi]. }
    destruct ((overlap >? 0) && (len cur >? overlap)); cbn [fst snd].
    + destruct Hx as [Hd|[<-|[]]]; [left; auto|].
      right. apply infix_app_r.
      apply (infix_cons " "%char). apply strip_infix.
    + destruct Hx as [Hd|[<-|[]]]; [left; auto|].
      right. apply strip_infix.
  - cbn [fst snd]. destruct (truthy cur) eqn:Ht.
    + destruct Hx as [Hd|[<-|[]]].
      * destruct (H x Hd) as [Hl|Hi]; cbn in *; [left; exact Hl|].
        right. apply infix_strip; [apply strip_trimmed|].
        apply infix_app_l. exact Hi.
      * right. apply infix_strip; [apply strip_trimmed|].
        apply infix_app_r. apply (infix_cons " "%char). apply strip_infix.
    + apply truthy_false in Ht. subst cur.
      destruct Hx as [Hd|[<-|[]]].
      * destruct (H x Hd) as [Hl|Hi]; cbn in *; [left; exact Hl|].
        right. apply infix_of_nil in Hi. rewrite Hi. apply infix_nil.
      * right. apply strip_infix.
Qed.

Lemma concat_snoc {A} (ls : list (list A)) (l : list A) :
  concat (ls ++ [l]) = concat ls ++ l.
Proof. rewrite concat_app. cbn. rewrite app_nil_r. reflexivity. Qed.

Lemma chunk_step_accounts chunk_size overlap done st s :
  accounts done st ->
  accounts (done ++ [s]) (chunk_step chunk_size overlap st s).
Proof.
  destruct st as [chunks cur].
  intros (parts & seed & fresh & Hparts & Hcur & Hall). cbn [fst snd] in *.
  assert (Hdone : concat (map words (done ++ [s]))
                  = concat (map words done) ++ words s).
  { rewrite map_app. cbn [map]. apply concat_snoc. }
  unfold accounts, chunk_step. rewrite Hdone.
  destruct (closes chunk_size cur s).
  - assert (Hparts' : map (fun p => fst p ++ snd p) (parts ++ [(seed, fresh)])
                      = map words (chunks ++ [strip cur])).
    { rewrite !map_app, Hparts. cbn. rewrite Hcur, words_strip.
      reflexivity. }
    assert (Hall' : concat (map snd (parts ++ [(seed, fresh)])) ++ words s
                    = concat (map words done) ++ words s).
    { rewrite map_app. cbn [map snd]. rewrite concat_snoc, Hall.
      reflexivity. }
    destruct ((overlap >? 0) && (len cur >? overlap)); cbn [fst snd].
    + exists (parts ++ [(seed, fresh)]),
             (words (overlap_seed overlap cur)), (words s).
      split; [exact Hparts'|]. split; [|exact Hall'].
      symmetry. apply words_app_sep. reflexivity.
    + exists (parts ++ [(seed, fresh)]), [], (words s).
      split; [exact Hparts'|]. split; [reflexivity|exact Hall'].
  - cbn [fst snd]. destruct (truthy cur) eqn:Ht.
    + exists parts, seed, (fresh ++ words s).
      split; [exact Hparts|]. split.
      * rewrite words_strip, words_app_sep by reflexivity.
        rewrite <- Hcur, app_assoc. reflexivity.
      * rewrite app_assoc, Hall. reflexivity.
    + apply truthy_false in Ht. subst cur. cbn in Hcur.
      apply app_eq_nil in Hcur. destruct Hcur as [-> ->].
      exists parts, [], (words s). split; [exact Hparts|].
      split; [reflexivity|]. rewrite app_nil_r in Hall. rewrite Hall.
      reflexivity.
Qed.

Lemma chunk_loop_invariants chunk_size overlap sentences :
  forall done st,
    covers done st -> accounts done st ->
    covers (done ++ sentences)
           (chunk_loop chunk_size overlap st sentences)
    /\ accounts (done ++ sentences)
                (chunk_loop chunk_size overlap st sentences).
Proof.
  induction sentences as [|s rest IH]; intros done st Hc Ha.
  - cbn. rewrite app_nil_r. auto.
  - cbn [chunk_loop fold_left].
    replace (done ++ s :: rest) with ((done ++ [s]) ++ rest)
      by (rewrite <- app_assoc; reflexivity).
    apply IH.
    + apply chunk_step_covers. exact Hc.
    + apply chunk_step_accounts. exact Ha.
Qed.

Lemma chunk_loop_from_start chunk_size overlap sentences :
  covers sentences (chunk_loop chunk_size overlap ([], []) sentences)
  /\ accounts sentences (chunk_loop chunk_size overlap ([], []) sentences).
Proof.
  apply (chunk_loop_invariants chunk_size overlap sentences [] ([], [])).
  - intros s [].
  - exists [], [], []. cbn. auto.
Qed.

(** ** No content is lost *)

Lemma closed_chunks_cover sentences st :
  covers sentences st ->
  forall s, In s sentences ->
    (exists c, In c (closed_chunks st) /\ infix (strip s) c)
    \/ strip s = [].
Proof.
  destruct st as [cs cur]. intros H s Hs. unfold closed_chunks. cbn [fst snd].
  destruct (H s Hs) as [(c & Hin & Hi)|Hi]; cbn [fst snd] in *.
  - left. exists c. split; [|exact Hi].
    destruct (truthy (strip cur)); [apply in_app_iff|]; auto.
  - apply (infix_strip _ _ (strip_trimmed s)) in Hi.
    destruct (truthy (strip cur)) eqn:Ht.
    + left. exists (strip cur). split; [|exact Hi].
      apply in_app_iff. cbn. auto.
    + right. apply truthy_false in Ht. rewrite Ht in Hi.
      apply infix_of_nil. exact Hi.
Qed.

Lemma closed_chunks_account sentences st :
  accounts sentences st ->
  exists parts,
    map (fun p => fst p ++ snd p) parts = map words (closed_chunks st)
    /\ concat (map snd parts) = concat (map words sentences).
Proof.
  destruct st as [cs cur]. intros (parts & seed & fresh & Hp & Hc & Ha).
  unfold closed_chunks. cbn [fst snd] in *.
  destruct (truthy (strip cur)) eqn:Ht.
  - exists (parts ++ [(seed, fresh)]). split.
    + rewrite !map_app, Hp. cbn. rewrite Hc, words_strip. reflexivity.
    + rewrite map_app. cbn [map snd]. rewrite concat_snoc. exact Ha.
  - apply truthy_false in Ht. rewrite <- words_strip, Ht in Hc. cbn in Hc.
    apply app_eq_nil in Hc. destruct Hc as [_ ->].
    exists parts. rewrite app_nil_r in Ha. auto.
Qed.

(** What the two invariants give for the list [chunk_text] returns: it is
    never empty, a text of at most [chunk_size] characters is returned
    whole, every trimmed sentence is a contiguous part of some chunk, the
    words of the text are spread over the chunks in order, and an empty
    chunk list falls back to the text. *)
Lemma chunk_text_sentences_kept text chunk_size overlap :
  let chunks := chunk_text text chunk_size overlap in
  chunks <> []
  /\ (len text <= chunk_size -> chunks = [text])
  /\ (forall s, In s (re_split text) ->
        exists c, In c chunks /\ infix (strip s) c)
  /\ (exists parts : list (list str * list str),
        map (fun p => fst p ++ snd p) parts = map words chunks
        /\ concat (map snd parts) = words text)
  /\ (chunk_size < len text ->
      closed_chunks (chunk_loop chunk_size overlap ([], []) (re_split text))
      = [] ->
      chunks = [text]).
Proof.
  intros chunks. unfold chunks, chunk_text.
  destruct (len text <=? chunk_size) eqn:E.
  - apply Z.leb_le in E. split; [discriminate|]. split; [reflexivity|].
    split; [|split; [|lia]].
    + intros s Hs. exists text. split; [left; reflexivity|].
      eapply infix_trans; [apply strip_infix|apply re_split_infix, Hs].
    + exists [([], words text)]. cbn. rewrite app_nil_r. auto.
  - apply Z.leb_gt in E.
    destruct (chunk_loop_from_start chunk_size overlap (re_split text))
      as [Hcov Hacc].
    pose proof (closed_chunks_cover _ _ Hcov) as Hcov'.
    destruct (closed_chunks_account _ _ Hacc) as (parts & Hp & Hw).
    rewrite words_re_split in Hw.
    unfold closed_chunks in *.
    destruct (chunk_loop chunk_size overlap ([], []) (re_split text))
      as [cs cur].
    cbn [fst snd] in *.
    destruct (if truthy (strip cur) then cs ++ [strip cur] else cs)
      as [|c final] eqn:Hfinal.
    + split; [discriminate|]. split; [lia|]. split; [|split].
      * intros s Hs. exists text. split; [left; reflexivity|].
        destruct (Hcov' s Hs) as [(c & [] & _) | ->]. apply infix_nil.
      * destruct parts; [|discriminate]. cbn in Hw.
        exists [([], [])]. cbn. rewrite <- Hw. auto.
      * reflexivity.
    + split; [discriminate|]. split; [lia|]. split; [|split].
      * intros s Hs. destruct (Hcov' s Hs) as [H| ->]; [exact H|].
        exists c. split; [left; reflexivity|apply infix_nil].
      * exists parts. auto.
      * discriminate.
Qed.

(** ** The traced loop is the loop *)

Lemma chunk_step_fst chunk_size overlap chunks cur s :
  fst (chunk_step chunk_size overlap (chunks, cur) s)
  = if closes chunk_size cur s then chunks ++ [strip cur] else chunks.
Proof.
  unfold chunk_step. destruct (closes chunk_size cur s); [|reflexivity].
  destruct ((overlap >? 0) && (len cur >? overlap)); reflexivity.
Qed.

Lemma chunk_step_snd chunk_size overlap chunks chunks' cur s :
  snd (chunk_step chunk_size overlap (chunks, cur) s)
  = snd (chunk_step chunk_size overlap (chunks', cur) s).
Proof.
  unfold chunk_step. destruct (closes chunk_size cur s); [|reflexivity].
  destruct ((overlap >? 0) && (len cur >? overlap)); reflexivity.
Qed.

Lemma traced_step_erase chunk_size overlap st s :
  erase (traced_step chunk_size overlap st s)
  = chunk_step chunk_size overlap (erase st) s.
Proof.
  destruct st as [closed [seed cur]]. unfold erase, traced_step.
  cbn [fst snd].
  rewrite (surjective_pairing
             (chunk_step chunk_size overlap (map snd closed, cur) s)).
  rewrite chunk_step_fst.
  rewrite (chunk_step_snd chunk_size overlap (map snd closed) [] cur s).
  destruct (closes chunk_size cur s); cbn [fst snd]; [|reflexivity].
  rewrite map_app. reflexivity.
Qed.

Lemma traced_loop_erase chunk_size overlap sentences :
  forall st,
    erase (traced_loop chunk_size overlap st sentences)
    = chunk_loop chunk_size overlap (erase st) sentences.
Proof.
  induction sentences as [|s rest IH]; intros st; [reflexivity|].
  cbn [traced_loop chunk_loop fold_left].
  rewrite <- traced_step_erase. apply IH.
Qed.

Lemma traced_chunks_erase text chunk_size overlap :
  map snd (traced_chunks text chunk_size overlap)
  = chunk_text text chunk_size overlap.
Proof.
  unfold traced_chunks, chunk_text.
  destruct (len text <=? chunk_size); [reflexivity|].
  match goal with
  | |- context [traced_loop chunk_size overlap ?t0 ?ss] =>
      match goal with
      | |- context [chunk_loop chunk_size overlap ?st0 ?ss'] =>
          change (chunk_loop chunk_size overlap st0 ss')
            with (chunk_loop chunk_size overlap (erase t0) ss);
          rewrite <- (traced_loop_erase chunk_size overlap ss t0);
          destruct (traced_loop chunk_size overlap t0 ss)
            as [closed [seed cur]]
      end
  end.
  unfold erase. cbn [fst snd].
  destruct (truthy (strip cur)).
  - change (map snd closed ++ [strip cur])
      with (map snd closed ++ map snd [(seed, strip cur)]).
    rewrite <- (map_app snd closed [(seed, strip cur)]).
    destruct (closed ++ [(seed, strip cur)]); reflexivity.
  - destruct closed; reflexivity.
Qed.

(** ** The seeds come from the chunk before *)

Lemma seeds_chain_snoc overlap closed seed x y seed' z :
  seeds_chain overlap (closed ++ [(seed, x)]) ->
  seeded_from overlap y seed' ->
  seeds_chain overlap (closed ++ [(seed, y); (seed', z)]).
Proof.
  intros H Hnew. induction closed as [|[s0 c0] t IH].
  - cbn. auto.
  - cbn [app seeds_chain] in H |- *. destruct H as [Hlink Hrest].
    split; [|apply IH; exact Hrest].
    destruct t as [|[s1 c1] t']; exact Hlink.
Qed.

Lemma seeds_chain_prefix overlap closed p :
  seeds_chain overlap (closed ++ [p]) -> seeds_chain overlap closed.
Proof.
  induction closed as [|[s0 c0] t IH]; [cbn; auto|].
  cbn [app seeds_chain]. intros [Hlink Hrest].
  split; [|apply IH; exact Hrest].
  destruct t as [|[s1 c1] t']; [exact I|exact Hlink].
Qed.

Lemma starts_unseeded_snoc closed seed x q :
  starts_unseeded (closed ++ [(seed, x)]) ->
  starts_unseeded (closed ++ [(seed, x); q]).
Proof. destruct closed as [|[s0 c0] t]; cbn; auto. Qed.

Lemma starts_unseeded_last closed seed x y :
  starts_unseeded (closed ++ [(seed, x)]) ->
  starts_unseeded (closed ++ [(seed, y)]).
Proof. destruct closed as [|[s0 c0] t]; cbn; auto. Qed.

Lemma traced_step_chained chunk_size overlap st s :
  chained overlap st -> chained overlap (traced_step chunk_size overlap st s).
Proof.
  destruct st as [closed [seed cur]]. unfold chained, traced_step.
  cbn [fst snd]. intros H.
  destruct (closes chunk_size cur s); cbn [fst snd]; [|exact H].
  intros z. destruct (H (strip cur)) as [Hc Hs].
  rewrite <- app_assoc. cbn [app]. split.
  - apply (seeds_chain_snoc overlap closed seed (strip cur)); [exact Hc|].
    exists cur. auto.
  - apply starts_unseeded_snoc. exact Hs.
Qed.

Lemma traced_loop_chained chunk_size overlap sentences :
  forall st,
    chained overlap st ->
    chained overlap (traced_loop chunk_size overlap st sentences).
Proof.
  induction sentences as [|s rest IH]; intros st H; [exact H|].
  cbn [traced_loop fold_left]. apply IH. apply traced_step_chained. exact H.
Qed.

(** ** The fresh words are the words of the text *)

Lemma skipn_length_app {A} (a f : list A) : skipn (length a) (a ++ f) = f.
Proof. induction a as [|x a IH]; [reflexivity|exact IH]. Qed.

Lemma fresh_words_of seed chunk fresh :
  words chunk = words seed ++ fresh -> fresh_words (seed, chunk) = fresh.
Proof.
  intros H. unfold fresh_words. cbn [fst snd]. rewrite H.
  apply skipn_length_app.
Qed.

Lemma seed_of_next_buffer chunk_size overlap chunks cur s :
  closes chunk_size cur s = true ->
  words (snd (chunk_step chunk_size overlap (chunks, cur) s))
  = words (seed_of_next overlap cur) ++ words s.
Proof.
  intros Hc. unfold chunk_step, seed_of_next. rewrite Hc.
  destruct ((overlap >? 0) && (len cur >? overlap)); cbn [snd].
  - apply words_app_sep. reflexivity.
  - reflexivity.
Qed.

Lemma traced_step_accounts chunk_size overlap done st s :
  traced_accounts done st ->
  traced_accounts (done ++ [s]) (traced_step chunk_size overlap st s).
Proof.
  destruct st as [closed [seed cur]]. unfold traced_accounts, traced_step.
  cbn [fst snd]. intros (Hlead & fresh & Hcur & Hall).
  assert (Hdone : concat (map words (done ++ [s]))
                  = concat (map words done) ++ words s).
  { rewrite map_app. cbn [map]. apply concat_snoc. }
  rewrite Hdone.
  destruct (closes chunk_size cur s) eqn:Hc; cbn [fst snd].
  - assert (Hstrip : words (strip cur) = words seed ++ fresh)
      by (rewrite words_strip; exact Hcur).
    split.
    + apply Forall_app. split; [exact Hlead|].
      constructor; [|constructor]. exists fresh. exact Hstrip.
    + exists (words s). split.
      * apply seed_of_next_buffer. exact Hc.
      * rewrite map_app. cbn [map]. rewrite concat_snoc.
        rewrite (fresh_words_of seed (strip cur) fresh Hstrip).
        rewrite Hall. reflexivity.
  - split; [exact Hlead|]. unfold chunk_step. rewrite Hc. cbn [snd].
    destruct (truthy cur) eqn:Ht.
    + exists (fresh ++ words s). split.
      * rewrite words_strip, words_app_sep by reflexivity.
        rewrite Hcur, app_assoc. reflexivity.
      * rewrite app_assoc, Hall. reflexivity.
    + apply truthy_false in Ht. subst cur. cbn [words] in Hcur.
      symmetry in Hcur. apply app_eq_nil in Hcur. destruct Hcur as [Hs ->].
      exists (words s). rewrite Hs. split; [reflexivity|].
      rewrite app_nil_r in Hall. rewrite Hall. reflexivity.
Qed.

Lemma traced_loop_accounts chunk_size overlap sentences :
  forall done st,
    traced_accounts done st ->
    traced_accounts (done ++ sentences)
                    (traced_loop chunk_size overlap st sentences).
Proof.
  induction sentences as [|s rest IH]; intros done st H.
  - cbn. rewrite app_nil_r. exact H.
  - cbn [traced_loop fold_left].
    replace (done ++ s :: rest) with ((done ++ [s]) ++ rest)
      by (rewrite <- app_assoc; reflexivity).
    apply IH. apply traced_step_accounts. exact H.
Qed.

(** The three facts on the trace [chunk_text] ends with. *)
Lemma traced_chunks_spec text chunk_size overlap :
  let trace := traced_chunks text chunk_size overlap in
  starts_unseeded trace
  /\ seeds_chain overlap trace
  /\ Forall seed_leads trace
  /\ concat (map fresh_words trace) = words text.
Proof.
  unfold traced_chunks.
  assert (Hwhole : starts_unseeded [([], text)]
                   /\ seeds_chain overlap [([], text)]
                   /\ Forall seed_leads [([], text)]
                   /\ concat (map fresh_words [([], text)]) = words text).
  { cbn. repeat split; auto.
    - constructor; [|constructor]. exists (words text). reflexivity.
    - apply app_nil_r. }
  destruct (len text <=? chunk_size); [exact Hwhole|].
  match goal with
  | |- context [traced_loop chunk_size overlap ?t0 ?ss] =>
      assert (Hch0 : chained overlap t0) by (intros x; cbn; auto);
      assert (Hacc0 : traced_accounts [] t0)
        by (split; [constructor|]; exists []; cbn; auto);
      pose proof (traced_loop_chained chunk_size overlap ss t0 Hch0)
        as Hch';
      pose proof (traced_loop_accounts chunk_size overlap ss [] t0 Hacc0)
        as Hacc;
      cbn [app] in Hacc; revert Hch' Hacc;
      destruct (traced_loop chunk_size overlap t0 ss)
        as [closed [seed cur]]
  end.
  intros Hch' (Hlead & fresh & Hcur & Hall).
  rewrite words_re_split in Hall.
  cbn [fst snd] in Hlead, Hcur, Hall. clear Hch0 Hacc0.
  unfold chained in Hch'. cbn [fst snd] in Hch'.
  destruct (truthy (strip cur)) eqn:Ht.
  - assert (Hstrip : words (strip cur) = words seed ++ fresh)
      by (rewrite words_strip; exact Hcur).
    destruct (Hch' (strip cur)) as [Hc Hs].
    assert (Hfull :
              starts_unseeded (closed ++ [(seed, strip cur)])
              /\ seeds_chain overlap (closed ++ [(seed, strip cur)])
              /\ Forall seed_leads (closed ++ [(seed, strip cur)])
              /\ concat (map fresh_words (closed ++ [(seed, strip cur)]))
                 = words text).
    { split; [exact Hs|]. split; [exact Hc|]. split.
      - apply Forall_app. split; [exact Hlead|].
        constructor; [|constructor]. exists fresh. exact Hstrip.
      - rewrite map_app. cbn [map]. rewrite concat_snoc.
        rewrite (fresh_words_of seed (strip cur) fresh Hstrip).
        exact Hall. }
    revert Hfull.
    destruct (closed ++ [(seed, strip cur)]) as [|p final];
      intros Hfull; [exact Hwhole|exact Hfull].
  - apply truthy_false in Ht. rewrite <- words_strip, Ht in Hcur.
    cbn [words] in Hcur. symmetry in Hcur. apply app_eq_nil in Hcur.
    destruct Hcur as [_ ->]. rewrite app_nil_r in Hall.
    destruct (Hch' cur) as [Hc Hs].
    destruct closed as [|p final]; [exact Hwhole|].
    split; [exact Hs|]. split; [exact (seeds_chain_prefix _ _ _ Hc)|].
    split; [exact Hlead|exact Hall].
Qed.

Example traced_chunks_overlapping :
  traced_chunks
    (lit "The quick brown fox. Jumps over the lazy dog! And then some more text? Yes.")
    30 10
  = [ ([], lit "The quick brown fox.");
      (lit "fox.", lit "fox. Jumps over the lazy dog!");
      (lit " lazy dog!", lit "lazy dog! And then some more text?");
      (lit "text?", lit "text? Yes.") ].
Proof. vm_compute. reflexivity. Qed.

(** ** No word and no sentence is lost *)

(** C7, as stated, fails: with [chunk_size = 9] and no overlap, the text
    made of ["aa."], a blank line and ["bb. cc."] is split into the
    sentences ["aa."], ["bb."], ["cc."] and returned as the chunks
    ["aa. bb."] and ["cc."].  The text holds line feeds and no chunk
    does, so no removal of prefixes from the chunks followed by their
    concatenation gives the text back. *)
Lemma reconstruction_loses_whitespace :
  re_split blank_line_text = [lit "aa."; lit "bb."; lit "cc."]
  /\ chunk_text blank_line_text 9 0 = [lit "aa. bb."; lit "cc."]
  /\ In "010"%char blank_line_text
  /\ (forall c, In c (chunk_text blank_line_text 9 0) ->
        ~ In "010"%char c)
  /\ ~ reconstructs blank_line_text (chunk_text blank_line_text 9 0).
Proof.
  assert (E : chunk_text blank_line_text 9 0 = [lit "aa. bb."; lit "cc."])
    by (vm_compute; reflexivity).
  assert (Hno : forall c, In c [lit "aa. bb."; lit "cc."] ->
                  ~ In "010"%char c).
  { intros c [<-|[<-|[]]]; vm_compute; intuition discriminate. }
  rewrite E. split; [vm_compute; reflexivity|]. split; [reflexivity|].
  split; [vm_compute; auto|]. split; [exact Hno|].
  intros (rests & HF & Hcat).
  assert (Hnl : In "010"%char (concat rests))
    by (rewrite Hcat; vm_compute; auto).
  apply in_concat in Hnl. destruct Hnl as (r & Hr & Hin).
  destruct (Forall2_in_r _ _ _ r HF Hr) as (c & Hc & region & Hreg).
  apply (Hno c Hc). rewrite Hreg. apply in_app_iff. right. exact Hin.
Qed.

(** C7, amended.  [chunk_text] loses no word and no sentence, whatever
    the text and the parameters; the whitespace between sentences is not
    kept.
    - It never returns an empty list, and a text of at most [chunk_size]
      characters is returned whole as the single chunk.
    - Every sentence of the text (a piece of the sentence split), trimmed
      of surrounding whitespace, is a contiguous part of some chunk.
    - Pair each returned chunk with the overlap seed its buffer was opened
      with: the first chunk has no seed, and the seed of every other
      chunk is the one the code takes (lines 38-47) from a buffer that
      strips to the chunk before it.  The words of each chunk start with
      the words of its seed, and the words that follow, read over all
      chunks in order, are exactly the words of the text.
    - If the loop and the final append leave no chunk, the text itself is
      the single chunk returned. *)
Theorem chunk_text_keeps_words text chunk_size overlap :
  let chunks := chunk_text text chunk_size overlap in
  let trace := traced_chunks text chunk_size overlap in
  chunks <> []
  /\ (len text <= chunk_size -> chunks = [text])
  /\ (forall s, In s (re_split text) ->
        exists c, In c chunks /\ infix (strip s) c)
  /\ map snd trace = chunks
  /\ starts_unseeded trace
  /\ seeds_chain overlap trace
  /\ Forall seed_leads trace
  /\ concat (map fresh_words trace) = words text
  /\ (chunk_size < len text ->
      closed_chunks (chunk_loop chunk_size overlap ([], []) (re_split text))
      = [] ->
      chunks = [text]).
Proof.
  intros chunks trace.
  destruct (chunk_text_sentences_kept text chunk_size overlap)
    as (Hne & Hshort & Hsent & _ & Hfall).
  destruct (traced_chunks_spec text chunk_size overlap)
    as (Hfirst & Hchain & Hlead & Hwords).
  split; [exact Hne|]. split; [exact Hshort|]. split; [exact Hsent|].
  split; [apply traced_chunks_erase|].
  split; [exact Hfirst|]. split; [exact Hchain|]. split; [exact Hlead|].
  split; [exact Hwords|exact Hfall].
Qed.

(** * Further properties of the store *)

(** ** Reading never writes *)

(** Case analysis on the innermost scrutinee of the goal. *)
Ltac break_inner :=
  match goal with
  | |- context [match ?x with _ => _ end] =>
      lazymatch x with
      | context [match _ with _ => _ end] => fail
      | _ => destruct x eqn:?
      end
  end.

(** X1. [search] never writes the two files and never changes the tables:
    whatever it returns or raises, it leaves the manager as [_load] made
    it, apart from the count of calls to the embedding service, which it
    raises by at most one. *)
Theorem search_reads_only sort_values query threshold min_results s s' r :
  search sort_values query threshold min_results s = (s', r) ->
  memories_file s' = memories_file s
  /\ chunks_file s' = chunks_file s
  /\ _memories s' = _memories (view s)
  /\ _chunks s' = _chunks (view s)
  /\ _chunk_embeddings s' = _chunk_embeddings (view s)
  /\ (client_calls s' = client_calls s
      \/ client_calls s' = S (client_calls s)).
Proof.
  unfold search, view. unfold bind at 1.
  destruct (_load s) as [s1 r1] eqn:Hload.
  destruct (load_frame _ _ _ Hload) as (Hmf & Hcf & _ & Hn).
  rewrite <- Hmf, <- Hcf, <- Hn. cbn [fst]. clear Hload Hmf Hcf Hn.
  destruct r1 as [[]|e]; [|intros [= <- _]; auto 10].
  destruct s1 as [mf cf cl n oms ocs om]. run_monad.
  repeat (break_inner; cbn); intros [= <- _]; cbn; auto 10.
Qed.

Lemma search_reads_only_witness :
  memories_file
    (fst (search stable_sort_values (lit "query") (3 # 10) 3 demo_store))
  = memories_file demo_store
  /\ client_calls
       (fst (search stable_sort_values (lit "query") (3 # 10) 3 demo_store))
     = 4%nat.
Proof.
  destruct (search_reads_only stable_sort_values (lit "query") (3 # 10) 3
              demo_store
              (fst (search stable_sort_values (lit "query") (3 # 10) 3
                           demo_store))
              (snd (search stable_sort_values (lit "query") (3 # 10) 3
                           demo_store)))
    as (Hmf & _).
  - apply surjective_pairing.
  - split; [exact Hmf|reflexivity].
Defined.

(** X2. [get_all] never writes the files, never calls the embedding
    service and never changes the tables; when it returns, it returns the
    cached memory table. *)
Theorem get_all_reads_only s s' r :
  get_all s = (s', r) ->
  s' = view s
  /\ memories_file s' = memories_file s
  /\ chunks_file s' = chunks_file s
  /\ client_calls s' = client_calls s
  /\ (forall rows, r = Ok rows -> _memories s' = Some rows).
Proof.
  unfold get_all, view. unfold bind at 1.
  destruct (_load s) as [s1 r1] eqn:Hload.
  destruct (load_frame _ _ _ Hload) as (Hmf & Hcf & _ & Hn).
  rewrite <- Hmf, <- Hcf, <- Hn. cbn [fst]. clear Hload Hmf Hcf Hn.
  destruct r1 as [[]|e].
  - destruct s1 as [mf cf cl n oms ocs om]. run_monad.
    destruct oms as [ms|]; cbn; intros [= <- <-]; cbn.
    + repeat split; try reflexivity. intros rows [= <-].
      destruct (len ms >? 0) eqn:E; [reflexivity|].
      apply len_pos_false in E. subst ms. reflexivity.
    + repeat split; try reflexivity. discriminate.
  - intros [= <- <-]. repeat split; try reflexivity. discriminate.
Qed.

Lemma get_all_reads_only_witness :
  fst (get_all demo_store) = view demo_store
  /\ snd (get_all demo_store) = Ok demo_memories.
Proof.
  destruct (get_all_reads_only demo_store (fst (get_all demo_store))
              (snd (get_all demo_store)))
    as (Hv & _).
  - apply surjective_pairing.
  - split; [exact Hv|reflexivity].
Defined.

(** ** What a returning mutation guarantees *)

(** X3. Whenever [save] returns rather than raises, whatever the state it
    started from: it returns the id it generated, it has called the
    embedding service exactly once, the memory table is the loaded one
    followed by the new row, and both files hold exactly the cached
    tables. *)
Theorem save_returns_persisted s memory_id created_at content s' r :
  save memory_id created_at content s = (s', Ok r) ->
  r = memory_id
  /\ client_calls s' = S (client_calls s)
  /\ exists ms cs,
       _memories s' = Some ms /\ _chunks s' = Some cs
       /\ memories_file s' = Some ms /\ chunks_file s' = Some cs
       /\ ms = or_empty (_memories (view s))
               ++ [mk_memory memory_id content created_at].
Proof.
  unfold save, view. unfold bind at 1.
  destruct (_load s) as [s1 r1] eqn:Hload.
  destruct (load_frame _ _ _ Hload) as (_ & _ & _ & Hn).
  rewrite <- Hn. cbn [fst]. clear Hload Hn.
  destruct r1 as [[]|e]; [|discriminate].
  destruct s1 as [mf cf cl n oms ocs om]. run_monad.
  repeat (break_inner; cbn); intros H; try discriminate;
    inversion H; subst; cbn;
    (split; [reflexivity|]); (split; [reflexivity|]);
    eexists _, _; repeat split.
Qed.

Lemma save_returns_persisted_witness :
  snd (save (lit "A") (lit "t1") (lit "alpha") (init None None demo_client))
  = Ok (lit "A")
  /\ client_calls
       (fst (save (lit "A") (lit "t1") (lit "alpha")
                  (init None None demo_client)))
     = 1%nat.
Proof.
  destruct (save_returns_persisted (init None None demo_client)
              (lit "A") (lit "t1") (lit "alpha")
              (fst (save (lit "A") (lit "t1") (lit "alpha")
                         (init None None demo_client)))
              (lit "A"))
    as (_ & Hn & _).
  - vm_compute. reflexivity.
  - split; [vm_compute; reflexivity|exact Hn].
Defined.

Lemma not_in_other_memories memory_id ms :
  ~ In memory_id (map m_id (other_memories memory_id ms)).
Proof.
  intros H. apply in_map_iff in H. destruct H as (m & Hid & Hin).
  apply in_other_memories in Hin. tauto.
Qed.

Lemma not_in_other_chunks memory_id cs :
  ~ In memory_id (map c_memory_id (other_chunks memory_id cs)).
Proof.
  intros H. apply in_map_iff in H. destruct H as (c & Hid & Hin).
  apply in_other_chunks in Hin. tauto.
Qed.

(** X4. Whenever [delete] returns, whatever the state it started from:
    it returns [True] exactly when the loaded memory table holds the id;
    on [False] the manager is left as loaded; on [True] no row of the id
    remains in either table, both files hold exactly the cached tables,
    and the embedding service has not been called. *)
Theorem delete_result_meaning s memory_id s' b :
  delete memory_id s = (s', Ok b) ->
  (b = true <-> In memory_id (map m_id (or_empty (_memories (view s)))))
  /\ (b = false -> s' = view s)
  /\ (b = true ->
      client_calls s' = client_calls s
      /\ exists ms cs,
           _memories s' = Some ms /\ _chunks s' = Some cs
           /\ memories_file s' = Some ms /\ chunks_file s' = Some cs
           /\ ms = other_memories memory_id (or_empty (_memories (view s)))
           /\ ~ In memory_id (map m_id ms)
           /\ ~ In memory_id (map c_memory_id cs)).
Proof.
  unfold delete, view. unfold bind at 1.
  destruct (_load s) as [s1 r1] eqn:Hload.
  destruct (load_frame _ _ _ Hload) as (_ & _ & _ & Hn).
  rewrite <- Hn. cbn [fst]. clear Hload Hn.
  destruct r1 as [[]|e]; [|discriminate].
  destruct s1 as [mf cf cl n oms ocs om]. run_monad.
  destruct oms as [ms|]; cbn; [|discriminate].
  fold (has_id memory_id ms).
  destruct (has_id memory_id ms) eqn:Hin; cbn.
  - assert (Hpresent := proj1 (has_id_true memory_id ms) Hin).
    repeat (break_inner; cbn); intros H; try discriminate;
      inversion H; subst; cbn;
      (split; [tauto|]); (split; [discriminate|]); intros _;
      (split; [reflexivity|]);
      eexists _, _; repeat split;
      try apply not_in_other_memories; try apply not_in_other_chunks.
  - assert (Habsent := proj1 (has_id_false memory_id ms) Hin).
    intros H; inversion H; subst. split; [|split].
    + split; [discriminate|]. intros Hp. exfalso. exact (Habsent Hp).
    + reflexivity.
    + discriminate.
Qed.

Lemma delete_result_meaning_witness :
  (true = true <->
   In (lit "B") (map m_id (or_empty (_memories (view demo_store)))))
  /\ snd (delete (lit "Z") demo_store) = Ok false.
Proof.
  destruct (delete_result_meaning demo_store (lit "B")
              (fst (delete (lit "B") demo_store)) true)
    as (H & _).
  - vm_compute. reflexivity.
  - split; [exact H|vm_compute; reflexivity].
Defined.

(** ** Reopening the store *)

(** X5. A new manager opened on the files of a consistent store whose
    files hold its cached tables loads the same two tables and a matrix
    with the same rows (the same matrix when the chunk table is not
    empty): nothing the index needs lives only in memory. *)
Theorem reopen_loads_same d s cl' m :
  store_ok d s -> _chunk_embeddings s = Some m ->
  memories_file s = _memories s -> chunks_file s = _chunks s ->
  exists m',
    _load (init (memories_file s) (chunks_file s) cl')
    = (mk_manager (memories_file s) (chunks_file s) cl' 0
                  (_memories s) (_chunks s) (Some m'),
       Ok tt)
    /\ rows m' = rows m
    /\ (_chunks s <> Some [] -> m' = m).
Proof.
  intros (ms & cs & m0 & Hms & Hcs & Hm & Hrows & Hdim & Hcols) Hm' Hmf Hcf.
  rewrite Hm in Hm'. injection Hm' as <-.
  rewrite Hmf, Hcf, Hms, Hcs.
  destruct (@load_init_ok d (Some ms) (Some cs) cl' 0%nat Hdim)
    as (m' & Hload & Hr & Hc).
  exists m'. cbn [or_empty] in *. split; [exact Hload|].
  split; [congruence|].
  intros Hne. assert (Hcs' : cs <> []) by congruence.
  destruct m0 as [r0 c0], m' as [r1 c1]. cbn in *.
  rewrite (Hcols Hcs'), (Hc Hcs'). congruence.
Qed.

Lemma reopen_loads_same_witness :
  exists m',
    _load (init (memories_file demo_store) (chunks_file demo_store)
                demo_client)
    = (mk_manager (memories_file demo_store) (chunks_file demo_store)
                  demo_client 0 (_memories demo_store) (_chunks demo_store)
                  (Some m'),
       Ok tt)
    /\ rows m' = map c_embedding demo_chunks.
Proof.
  destruct (reopen_loads_same 2 demo_store demo_client
              (mk_ndarray (map c_embedding demo_chunks) 2))
    as (m' & Hload & Hr & _).
  - exact demo_store_ok.
  - vm_compute. reflexivity.
  - vm_compute. reflexivity.
  - vm_compute. reflexivity.
  - exists m'. split; [exact Hload|exact Hr].
Defined.

(** ** Composing [save] and [delete] *)

Lemma chunk_text_nonempty text chunk_size overlap :
  chunk_text text chunk_size overlap <> [].
Proof.
  unfold chunk_text. destruct (len text <=? chunk_size); [discriminate|].
  destruct (chunk_loop chunk_size overlap ([], []) (re_split text))
    as [chunks cur].
  destruct (truthy (strip cur)).
  - destruct chunks; discriminate.
  - destruct chunks; discriminate.
Qed.

Lemma other_memories_fresh memory_id ms :
  ~ In memory_id (map m_id ms) -> other_memories memory_id ms = ms.
Proof.
  induction ms as [|m ms IH]; cbn; intros H; [reflexivity|].
  destruct (str_eqb (m_id m) memory_id) eqn:E.
  - apply str_eqb_eq in E. tauto.
  - cbn. f_equal. apply IH. tauto.
Qed.

Lemma other_chunks_fresh memory_id cs :
  ~ In memory_id (map c_memory_id cs) -> other_chunks memory_id cs = cs.
Proof.
  induction cs as [|c cs IH]; cbn; intros H; [reflexivity|].
  destruct (str_eqb (c_memory_id c) memory_id) eqn:E.
  - apply str_eqb_eq in E. tauto.
  - cbn. f_equal. apply IH. tauto.
Qed.

Lemma other_chunks_owned memory_id cs :
  Forall (fun c => c_memory_id c = memory_id) cs ->
  other_chunks memory_id cs = [].
Proof.
  induction 1 as [|c cs Hc _ IH]; cbn; [reflexivity|].
  rewrite Hc, str_eqb_refl. exact IH.
Qed.

(** X6. Deleting a memory right after saving it undoes the save on the
    tables: on a consistent store that did not know the id, [save]
    followed by [delete] of the returned id returns [True] and leaves the
    memory table, the chunk table and the rows of the matrix as they were
    before the save.  Both files then hold exactly those tables: they are
    as before when they held the tables before the save, and they are
    rewritten (created, when they did not exist) otherwise.  The count of
    calls to the service has moved by one. *)
Theorem delete_undoes_save d mf cf cl n ms cs m memory_id created_at content
        data :
  let s := mk_manager mf cf cl n (Some ms) (Some cs) (Some m) in
  store_ok d s ->
  ~ In memory_id (map m_id ms) -> ~ In memory_id (map c_memory_id cs) ->
  cl n (Many (chunk_text content CHUNK_SIZE CHUNK_OVERLAP)) = Some data ->
  length data = length (chunk_text content CHUNK_SIZE CHUNK_OVERLAP) ->
  Forall (fun v => length v = d) data ->
  exists m' s',
    delete memory_id (fst (save memory_id created_at content s))
    = (s', Ok true)
    /\ s' = mk_manager (Some ms) (Some cs) cl (S n)
                       (Some ms) (Some cs) (Some m')
    /\ rows m' = rows m
    /\ (mf = Some ms -> cf = Some cs ->
        memories_file s' = memories_file s
        /\ chunks_file s' = chunks_file s)
    /\ (mf = None -> memories_file s' <> memories_file s)
    /\ (cf = None -> chunks_file s' <> chunks_file s).
Proof.
  intros s (ms0 & cs0 & m0 & Hms & Hcs & Hm & Hrows & Hdim & Hcols)
         Hfm Hfc Hcl Hlen Hvd.
  cbn in Hms, Hcs, Hm. injection Hms as <-. injection Hcs as <-.
  injection Hm as <-.
  assert (Hne : data <> []).
  { intros ->. apply (chunk_text_nonempty content CHUNK_SIZE CHUNK_OVERLAP).
    destruct (chunk_text content CHUNK_SIZE CHUNK_OVERLAP);
      [reflexivity|discriminate]. }
  assert (Hm' : rows m <> [] -> ncols m = d).
  { intros Hr. apply Hcols. intros ->. apply Hr. rewrite Hrows.
    reflexivity. }
  destruct (@save_provider_answers d mf cf cl n ms cs m memory_id
              created_at content data Hcl Hvd Hne Hm')
    as (m1 & Hsave & _).
  unfold s. rewrite Hsave. cbn [fst].
  set (row := mk_memory memory_id content created_at).
  set (new := new_chunk_rows memory_id 0
                (chunk_text content CHUNK_SIZE CHUNK_OVERLAP) data).
  assert (Hin : has_id memory_id (ms ++ [row]) = true).
  { apply has_id_true. rewrite map_app, in_app_iff. right. cbn. auto. }
  assert (Hdim' : dim_ok d (cs ++ new)).
  { apply dim_ok_app; [exact Hdim|apply dim_ok_new_rows; exact Hvd]. }
  destruct (@delete_known d (Some (ms ++ [row])) (Some (cs ++ new)) cl (S n)
              (ms ++ [row]) (cs ++ new) (Some m1) memory_id Hin Hdim')
    as (m' & Hdel & Hr & _).
  assert (Ems : other_memories memory_id (ms ++ [row]) = ms).
  { unfold other_memories. rewrite filter_app.
    fold (other_memories memory_id ms).
    rewrite (other_memories_fresh _ _ Hfm). cbn.
    rewrite str_eqb_refl. cbn. apply app_nil_r. }
  assert (Ecs : other_chunks memory_id (cs ++ new) = cs).
  { unfold other_chunks. rewrite filter_app.
    fold (other_chunks memory_id cs). fold (other_chunks memory_id new).
    rewrite (other_chunks_fresh _ _ Hfc).
    rewrite (other_chunks_owned memory_id new
               (new_chunk_rows_owner _ _ _ _)).
    apply app_nil_r. }
  rewrite Ems in Hdel. rewrite Ecs in Hdel, Hr.
  eexists m', _. split; [exact Hdel|]. split; [reflexivity|].
  split; [congruence|]. cbn. split; [|split].
  - intros -> ->. auto.
  - intros ->. discriminate.
  - intros ->. discriminate.
Qed.

Lemma delete_undoes_save_witness :
  (exists m',
      delete (lit "D")
             (fst (save (lit "D") (lit "t4") (lit "delta") multi_store))
      = (mk_manager (Some multi_memories) (Some multi_chunks) demo_client 1
                    (Some multi_memories) (Some multi_chunks) (Some m'),
         Ok true)
      /\ rows m' = map c_embedding multi_chunks)
  /\ (exists m',
        delete (lit "D")
               (fst (save (lit "D") (lit "t4") (lit "delta")
                          (mk_manager None None demo_client 0 (Some [])
                                      (Some []) (Some (zeros0 2)))))
        = (mk_manager (Some []) (Some []) demo_client 1 (Some [])
                      (Some []) (Some m'),
           Ok true)).
Proof.
  split.
  - destruct (delete_undoes_save 2 (Some multi_memories) (Some multi_chunks)
                demo_client 0%nat multi_memories multi_chunks
                (mk_ndarray (map c_embedding multi_chunks) 2)
                (lit "D") (lit "t4") (lit "delta") [[9 # 10; 0]%Q])
      as (m' & s' & Hd & -> & Hr & _).
    + exact (proj1 (proj2 multi_search_ready)).
    + vm_compute. intuition discriminate.
    + vm_compute. intuition discriminate.
    + vm_compute. reflexivity.
    + vm_compute. reflexivity.
    + repeat constructor.
    + exists m'. split; [exact Hd|exact Hr].
  - destruct (delete_undoes_save 2 None None demo_client 0%nat [] []
                (zeros0 2) (lit "D") (lit "t4") (lit "delta")
                [[9 # 10; 0]%Q])
      as (m' & s' & Hd & -> & _).
    + exists [], [], (zeros0 2). cbn.
      repeat split;
        first [reflexivity | constructor | intros H; congruence].
    + cbn. tauto.
    + cbn. tauto.
    + vm_compute. reflexivity.
    + vm_compute. reflexivity.
    + repeat constructor.
    + exists m'. exact Hd.
Defined.

(** X7. [delete] is idempotent: on a consistent loaded store that holds
    the id, a second [delete] of the same id returns [False] and leaves
    the manager exactly as the first one left it. *)
Theorem delete_twice d mf cf cl n ms cs m memory_id :
  let s := mk_manager mf cf cl n (Some ms) (Some cs) (Some m) in
  dim_ok d cs -> In memory_id (map m_id ms) ->
  snd (delete memory_id s) = Ok true
  /\ delete memory_id (fst (delete memory_id s))
     = (fst (delete memory_id s), Ok false).
Proof.
  intros s Hdim Hin. apply has_id_true in Hin.
  destruct (@delete_known d mf cf cl n ms cs (Some m) memory_id Hin Hdim)
    as (m' & Hdel & _).
  unfold s. rewrite Hdel. cbn [fst snd]. split; [reflexivity|].
  apply delete_unknown. apply has_id_false. apply not_in_other_memories.
Qed.

Lemma delete_twice_witness :
  snd (delete (lit "X") multi_store) = Ok true
  /\ delete (lit "X") (fst (delete (lit "X") multi_store))
     = (fst (delete (lit "X") multi_store), Ok false).
Proof.
  apply (delete_twice 2 (Some multi_memories) (Some multi_chunks)
           demo_client 0%nat multi_memories multi_chunks
           (mk_ndarray (map c_embedding multi_chunks) 2) (lit "X")).
  - repeat constructor.
  - vm_compute. auto.
Defined.

(** ** More on the ranking policy *)

Lemma groups_of_length q cs best :
  groups_of (scored q cs) best -> length best = length (distinct_ids cs).
Proof.
  intros (Hnd & Hkeys & _). rewrite <- (length_map fst best).
  apply Permutation_length. apply NoDup_Permutation.
  - exact Hnd.
  - apply NoDup_nodup.
  - intros j. rewrite Hkeys. unfold distinct_ids. rewrite nodup_In.
    unfold scored. rewrite map_map. reflexivity.
Qed.

Lemma sorted_nth {A} (R : A -> A -> Prop) l :
  StronglySorted R l ->
  forall i j a b, (i < j)%nat ->
    nth_error l i = Some a -> nth_error l j = Some b -> R a b.
Proof.
  induction 1 as [|x l Hs IH Hf]; intros i j a b Hij Hi Hj.
  - destruct i; discriminate.
  - destruct j as [|j]; [lia|]. cbn in Hj. destruct i as [|i]; cbn in Hi.
    + injection Hi as <-. rewrite Forall_forall in Hf. apply Hf.
      exact (nth_error_In _ _ Hj).
    + apply (IH i j); [lia|exact Hi|exact Hj].
Qed.

Lemma nth_error_firstn_lt {A} k (l : list A) i :
  (i < k)%nat -> nth_error (firstn k l) i = nth_error l i.
Proof.
  revert k i. induction l as [|x l IH]; intros [|k] [|i] H; cbn;
    try reflexivity; try lia.
  apply IH. lia.
Qed.

Lemma Forall2_nth_r {A B} (R : A -> B -> Prop) l rs :
  Forall2 R l rs ->
  forall i r, nth_error rs i = Some r ->
    exists e, nth_error l i = Some e /\ R e r.
Proof.
  induction 1 as [|e r' l rs HR _ IH]; intros [|i] r Hi; cbn in *;
    try discriminate.
  - injection Hi as <-. eauto.
  - apply IH. exact Hi.
Qed.

Lemma hydrated_length ms k best results :
  (k <= length best)%nat ->
  Forall2 (hydrated ms) (firstn k best) results -> length results = k.
Proof.
  intros Hk Hh. rewrite <- (Forall2_length Hh), length_firstn. lia.
Qed.

(** X8. The minimum is honoured: on a store ready for ranking, [search]
    returns at least [min_results] entries, or one entry for every memory
    that owns a chunk when there are fewer such memories. *)
Theorem search_returns_minimum sort_values d s s1 ms cs query q threshold
        min_results :
  sorts_descending sort_values ->
  search_ready d s s1 ms cs query q ->
  exists results,
    snd (search sort_values query threshold min_results s) = Ok results
    /\ Z.min min_results (len (distinct_ids cs)) <= len results.
Proof.
  intros Hsv Hready.
  destruct (search_core sort_values d s s1 ms cs query q threshold
              min_results Hsv Hready)
    as (best & k & results & Heq & Hg & _ & Hk & Hh & _ & Hstop).
  exists results. rewrite Heq. split; [reflexivity|].
  pose proof (hydrated_length ms k best results Hk Hh) as Hlen.
  pose proof (groups_of_length q cs best Hg) as Hbest.
  unfold len. rewrite Hlen, <- Hbest.
  destruct (Nat.eq_dec k (length best)) as [->|Hne]; [lia|].
  destruct (nth_error best k) as [e|] eqn:He.
  - destruct (Hstop e eq_refl) as [_ Hmin]. lia.
  - apply nth_error_None in He. lia.
Qed.

Lemma search_returns_minimum_witness :
  exists results,
    snd (search stable_sort_values (lit "query") (9 # 10) 2 demo_store)
    = Ok results
    /\ Z.min 2 (len (distinct_ids demo_chunks)) <= len results.
Proof.
  exact (search_returns_minimum stable_sort_values 2 demo_store demo_store
           demo_memories demo_chunks (lit "query") [1; 0]%Q (9 # 10)%Q 2
           stable_sort_values_ok demo_search_ready).
Defined.

(** X9. Nothing relevant is left out: on a store ready for ranking, every
    memory that owns a chunk whose similarity reaches the threshold has an
    entry in the list [search] returns. *)
Theorem search_keeps_all_above_threshold sort_values d s s1 ms cs query q
        threshold min_results :
  sorts_descending sort_values ->
  search_ready d s s1 ms cs query q ->
  exists results,
    snd (search sort_values query threshold min_results s) = Ok results
    /\ forall c, In c cs ->
         (threshold <= dot (c_embedding c) q)%Q ->
         In (c_memory_id c) (map r_id results).
Proof.
  intros Hsv Hready.
  destruct (search_core sort_values d s s1 ms cs query q threshold
              min_results Hsv Hready)
    as (best & k & results & Heq & Hg & Hs & Hk & Hh & _ & Hstop).
  exists results. rewrite Heq. split; [reflexivity|].
  intros c Hc Hth. rewrite (hydrated_ids ms _ _ Hh).
  destruct Hg as (_ & Hkeys & Hval).
  assert (Hkey : In (c_memory_id c) (map fst best)).
  { apply Hkeys. unfold scored. rewrite map_map. cbn.
    apply in_map_iff. eauto. }
  apply in_map_iff in Hkey. destruct Hkey as ([j v] & Hj & He).
  cbn in Hj. subst j.
  assert (Hv : (threshold <= v)%Q).
  { eapply Qle_trans; [exact Hth|]. apply (proj2 (Hval _ _ He)).
    apply in_scored. eauto. }
  destruct (In_nth_error _ _ He) as (i & Hi).
  destruct (Nat.lt_ge_cases i k) as [Hlt|Hge].
  - apply in_map_iff. exists (c_memory_id c, v). split; [reflexivity|].
    apply (nth_error_In _ i). rewrite nth_error_firstn_lt by exact Hlt.
    exact Hi.
  - exfalso. assert (Hik : (i < length best)%nat)
      by (apply nth_error_Some; congruence).
    destruct (nth_error best k) as [e|] eqn:Hek;
      [|apply nth_error_None in Hek; lia].
    destruct (Hstop e eq_refl) as [Hbelow _]. apply Hbelow.
    destruct (Nat.eq_dec i k) as [->|Hne].
    + rewrite Hek in Hi. injection Hi as ->. exact Hv.
    + eapply Qle_trans; [exact Hv|].
      exact (sorted_nth descending best Hs k i e (c_memory_id c, v)
               ltac:(lia) Hek Hi).
Qed.

Lemma search_keeps_all_above_threshold_witness :
  exists results,
    snd (search stable_sort_values (lit "query") (3 # 10) 0 multi_store)
    = Ok results
    /\ forall c, In c multi_chunks ->
         (3 # 10 <= dot (c_embedding c) [1; 0]%Q)%Q ->
         In (c_memory_id c) (map r_id results).
Proof.
  exact (search_keeps_all_above_threshold stable_sort_values 2 multi_store
           multi_store multi_memories multi_chunks (lit "query") [1; 0]%Q
           (3 # 10)%Q 0 stable_sort_values_ok multi_search_ready).
Defined.

(** X10. Entries below the threshold only fill the minimum: in the list
    [search] returns, every entry at position [min_results] or later
    (counting from 0) has a similarity of at least [threshold]. *)
Theorem search_tail_meets_threshold sort_values d s s1 ms cs query q
        threshold min_results :
  sorts_descending sort_values ->
  search_ready d s s1 ms cs query q ->
  exists results,
    snd (search sort_values query threshold min_results s) = Ok results
    /\ forall i r, nth_error results i = Some r ->
         min_results <= Z.of_nat i ->
         (threshold <= r_similarity r)%Q.
Proof.
  intros Hsv Hready.
  destruct (search_core sort_values d s s1 ms cs query q threshold
              min_results Hsv Hready)
    as (best & k & results & Heq & _ & _ & Hk & Hh & Hin & _).
  exists results. rewrite Heq. split; [reflexivity|].
  intros i r Hi Hmin.
  pose proof (hydrated_length ms k best results Hk Hh) as Hlen.
  assert (Hik : (i < k)%nat)
    by (rewrite <- Hlen; apply nth_error_Some; congruence).
  destruct (Forall2_nth_r _ _ _ Hh i r Hi) as (e & He & _ & Hsim & _).
  rewrite nth_error_firstn_lt in He by exact Hik.
  rewrite Hsim. destruct (Hin i e Hik He) as [H|H]; [exact H|lia].
Qed.

Lemma search_tail_meets_threshold_witness :
  exists results,
    snd (search stable_sort_values (lit "query") (3 # 10) 1 demo_store)
    = Ok results
    /\ forall i r, nth_error results i = Some r ->
         1 <= Z.of_nat i -> (3 # 10 <= r_similarity r)%Q.
Proof.
  exact (search_tail_meets_threshold stable_sort_values 2 demo_store
           demo_store demo_memories demo_chunks (lit "query") [1; 0]%Q
           (3 # 10)%Q 1 stable_sort_values_ok demo_search_ready).
Defined.

(** ** The chunk rows of a saved memory *)

Lemma new_chunk_rows_text memory_id i chunks data :
  length data = length chunks ->
  map c_chunk_text (new_chunk_rows memory_id i chunks data) = chunks.
Proof.
  revert i data. induction chunks as [|c chunks IH]; intros i [|v data] H;
    cbn in *; try discriminate; try reflexivity.
  f_equal. apply IH. lia.
Qed.

Lemma new_chunk_rows_index memory_id i chunks data :
  length data = length chunks ->
  map c_chunk_index (new_chunk_rows memory_id i chunks data)
  = map (fun k => i + Z.of_nat k) (seq 0 (length chunks)).
Proof.
  revert i data. induction chunks as [|c chunks IH]; intros i [|v data] H;
    cbn in *; try discriminate; try reflexivity.
  f_equal; [lia|]. rewrite IH by lia. rewrite <- seq_shift, map_map.
  apply map_ext. intros k. lia.
Qed.

Lemma chunk_rows_of_fresh memory_id cs :
  ~ In memory_id (map c_memory_id cs) -> chunk_rows_of memory_id cs = [].
Proof.
  induction cs as [|c cs IH]; cbn; intros H; [reflexivity|].
  destruct (str_eqb (c_memory_id c) memory_id) eqn:E.
  - apply str_eqb_eq in E. tauto.
  - apply IH. tauto.
Qed.

Lemma chunk_rows_of_owned memory_id cs :
  Forall (fun c => c_memory_id c = memory_id) cs ->
  chunk_rows_of memory_id cs = cs.
Proof.
  induction 1 as [|c cs Hc _ IH]; cbn; [reflexivity|].
  rewrite Hc, str_eqb_refl. f_equal. exact IH.
Qed.

Lemma chunk_rows_of_foreign j memory_id cs :
  j <> memory_id ->
  Forall (fun c => c_memory_id c = memory_id) cs ->
  chunk_rows_of j cs = [].
Proof.
  intros Hj. induction 1 as [|c cs Hc _ IH]; cbn; [reflexivity|].
  rewrite Hc. destruct (str_eqb memory_id j) eqn:E.
  - apply str_eqb_eq in E. congruence.
  - exact IH.
Qed.

(** X11. On a consistent store in which no chunk row carries the new id, a
    [save] answered by the service with one vector of the right dimension
    per chunk returns the id and leaves, for that id, exactly one chunk
    row per chunk of [chunk_text(content)], in order: the texts are the
    chunks, the indices count 0, 1, 2, ..., the embeddings are the vectors
    answered; the chunk rows of every other memory are untouched. *)
Theorem save_chunk_rows d mf cf cl n ms cs m memory_id created_at content
        data :
  let s := mk_manager mf cf cl n (Some ms) (Some cs) (Some m) in
  let chunks := chunk_text content CHUNK_SIZE CHUNK_OVERLAP in
  store_ok d s ->
  ~ In memory_id (map c_memory_id cs) ->
  cl n (Many chunks) = Some data ->
  length data = length chunks ->
  Forall (fun v => length v = d) data ->
  exists s' cs',
    save memory_id created_at content s = (s', Ok memory_id)
    /\ _chunks s' = Some cs'
    /\ map c_chunk_text (chunk_rows_of memory_id cs') = chunks
    /\ map c_chunk_index (chunk_rows_of memory_id cs')
       = map Z.of_nat (seq 0 (length chunks))
    /\ map c_embedding (chunk_rows_of memory_id cs') = data
    /\ (forall j, j <> memory_id ->
          chunk_rows_of j cs' = chunk_rows_of j cs).
Proof.
  intros s chunks (ms0 & cs0 & m0 & Hms & Hcs & Hm & Hrows & Hdim & Hcols)
         Hfc Hcl Hlen Hvd.
  cbn in Hms, Hcs, Hm. injection Hms as <-. injection Hcs as <-.
  injection Hm as <-.
  assert (Hne : data <> []).
  { intros ->. apply (chunk_text_nonempty content CHUNK_SIZE CHUNK_OVERLAP).
    fold chunks. destruct chunks; [reflexivity|discriminate]. }
  assert (Hm' : rows m <> [] -> ncols m = d).
  { intros Hr. apply Hcols. intros ->. apply Hr. rewrite Hrows.
    reflexivity. }
  destruct (@save_provider_answers d mf cf cl n ms cs m memory_id
              created_at content data Hcl Hvd Hne Hm')
    as (m1 & Hsave & _).
  fold chunks in Hsave.
  set (new := new_chunk_rows memory_id 0 chunks data) in *.
  assert (Hown : Forall (fun c => c_memory_id c = memory_id) new)
    by apply new_chunk_rows_owner.
  assert (Hmine : chunk_rows_of memory_id (cs ++ new) = new).
  { unfold chunk_rows_of. rewrite filter_app.
    fold (chunk_rows_of memory_id cs). fold (chunk_rows_of memory_id new).
    rewrite (chunk_rows_of_fresh _ _ Hfc), (chunk_rows_of_owned _ _ Hown).
    reflexivity. }
  eexists _, (cs ++ new). split; [exact Hsave|]. cbn [_chunks].
  split; [reflexivity|]. rewrite Hmine.
  split; [apply new_chunk_rows_text; exact Hlen|].
  split; [unfold new; rewrite new_chunk_rows_index by exact Hlen;
          apply map_ext; intros k; lia|].
  split; [apply new_chunk_rows_embedding; exact Hlen|].
  intros j Hj. unfold chunk_rows_of. rewrite filter_app.
  fold (chunk_rows_of j cs). fold (chunk_rows_of j new).
  rewrite (chunk_rows_of_foreign j memory_id new Hj Hown).
  apply app_nil_r.
Qed.

Lemma save_chunk_rows_witness :
  exists s' cs',
    save (lit "D") (lit "t4") (lit "delta") multi_store
    = (s', Ok (lit "D"))
    /\ _chunks s' = Some cs'
    /\ map c_chunk_text (chunk_rows_of (lit "D") cs') = [lit "delta"]
    /\ map c_chunk_index (chunk_rows_of (lit "D") cs') = [0].
Proof.
  destruct (save_chunk_rows 2 (Some multi_memories) (Some multi_chunks)
              demo_client 0%nat multi_memories multi_chunks
              (mk_ndarray (map c_embedding multi_chunks) 2)
              (lit "D") (lit "t4") (lit "delta") [[9 # 10; 0]%Q])
    as (s' & cs' & Hs & Hc & Ht & Hi & _).
  - exact (proj1 (proj2 multi_search_ready)).
  - vm_compute. intuition discriminate.
  - vm_compute. reflexivity.
  - vm_compute. reflexivity.
  - repeat constructor.
  - exists s', cs'. split; [exact Hs|]. split; [exact Hc|].
    split; [exact Ht|exact Hi].
Defined.

(** ** A chunks file with vectors of different lengths *)

Lemma ragged_vstack cs : ragged cs -> vstack (map c_embedding cs) = None.
Proof.
  intros (c & c' & Hc & Hc' & Hne).
  destruct cs as [|c0 rest]; [destruct Hc|]. cbn [map vstack].
  destruct (forallb
              (fun w => Nat.eqb (length w) (length (c_embedding c0)))
              (map c_embedding rest)) eqn:E; [|reflexivity].
  exfalso. rewrite forallb_forall in E.
  assert (Hall : forall x, In x (c0 :: rest) ->
                   length (c_embedding x) = length (c_embedding c0)).
  { intros x [<-|Hx]; [reflexivity|].
    apply Nat.eqb_eq, E, in_map, Hx. }
  apply Hne. rewrite (Hall c Hc), (Hall c' Hc'). reflexivity.
Qed.

(** X12. When two rows of the chunks file disagree on the length of their
    vector, the first call on a new manager raises [ValueError] (here
    [get_all], although it only returns the memory table) and leaves the
    manager without an embedding matrix and the files untouched; since
    [_load] has already set the memory table, a second [get_all] does
    not retry the load and returns the memory table. *)
Theorem get_all_on_ragged_file mf cs cl :
  ragged cs ->
  let s1 := fst (get_all (init mf (Some cs) cl)) in
  snd (get_all (init mf (Some cs) cl)) = Raise ValueError
  /\ _chunk_embeddings s1 = None
  /\ memories_file s1 = mf /\ chunks_file s1 = Some cs
  /\ get_all s1 = (s1, Ok (or_empty mf)).
Proof.
  intros Hr. pose proof (ragged_vstack cs Hr) as Hv.
  assert (Hne : (len cs >? 0) = true).
  { apply len_pos_iff. destruct Hr as (c & _ & Hc & _).
    intros ->. destruct Hc. }
  unfold get_all, init. run_monad. rewrite Hne, Hv. cbn.
  repeat split.
  destruct (len (or_empty mf) >? 0) eqn:E; [reflexivity|].
  apply len_pos_false in E. rewrite E. reflexivity.
Qed.

Lemma get_all_on_ragged_file_witness :
  let cs := [ mk_chunk (lit "A") 0 (lit "a") [1; 0]%Q;
              mk_chunk (lit "B") 0 (lit "b") [1]%Q ] in
  let ms := [ mk_memory (lit "A") (lit "a") (lit "t1") ] in
  snd (get_all (init (Some ms) (Some cs) demo_client)) = Raise ValueError
  /\ snd (get_all (fst (get_all (init (Some ms) (Some cs) demo_client))))
     = Ok ms.
Proof.
  intros cs ms.
  destruct (get_all_on_ragged_file (Some ms) cs demo_client)
    as (H1 & _ & _ & _ & H2).
  - exists (mk_chunk (lit "A") 0 (lit "a") [1; 0]%Q),
           (mk_chunk (lit "B") 0 (lit "b") [1]%Q).
    cbn. split; [auto|]. split; [auto|]. discriminate.
  - split; [exact H1|]. rewrite H2. reflexivity.
Defined.

(** ** Saving a list of notes *)

Lemma provider_answers_ok d cl : provider_answers d cl -> provider_ok d cl.
Proof.
  intros H n texts data Hcl. destruct (H n texts) as (data' & Hcl' & Hl & Hd).
  rewrite Hcl in Hcl'. injection Hcl' as <-. auto.
Qed.

(** X13. The loop of the caller: on a consistent loaded store whose
    embedding service answers every batch call properly, saving a list of
    notes returns without raising, appends one memory row per note in the
    order of the list, makes one service call per note, keeps the store
    consistent, and (when the list is not empty) leaves both files equal
    to the cached tables. *)
Theorem save_each_appends d items :
  forall s ms,
    store_ok d s -> provider_answers d (client s) ->
    _memories s = Some ms ->
    exists s',
      save_each items s = (s', Ok tt)
      /\ _memories s' = Some (ms ++ map row_of_item items)
      /\ client_calls s' = (client_calls s + length items)%nat
      /\ store_ok d s'
      /\ (items <> [] ->
          memories_file s' = _memories s' /\ chunks_file s' = _chunks s').
Proof.
  induction items as [|[[memory_id created_at] content] rest IH];
    intros s ms Hok Hp Hms.
  - exists s. cbn. rewrite app_nil_r, Nat.add_0_r.
    repeat split; auto; congruence.
  - pose proof (@run_op_store_ok d s (Save memory_id created_at content)
                  (provider_answers_ok d _ Hp) Hok) as [Hok1 Hcl1].
    cbn [run_op] in Hok1, Hcl1.
    destruct Hok as (ms0 & cs & m & Hms0 & Hcs & Hm & Hrows & Hdim & Hcols).
    rewrite Hms in Hms0. injection Hms0 as <-.
    destruct s as [mf cf cl n oms ocs om]. cbn in Hms, Hcs, Hm, Hp.
    subst oms ocs om.
    destruct (Hp n (chunk_text content CHUNK_SIZE CHUNK_OVERLAP))
      as (data & Hcl & Hlen & Hvd).
    assert (Hne : data <> []).
    { intros ->.
      apply (chunk_text_nonempty content CHUNK_SIZE CHUNK_OVERLAP).
      destruct (chunk_text content CHUNK_SIZE CHUNK_OVERLAP);
        [reflexivity|discriminate]. }
    assert (Hm' : rows m <> [] -> ncols m = d).
    { intros Hr. apply Hcols. intros ->. apply Hr. rewrite Hrows.
      reflexivity. }
    destruct (@save_provider_answers d mf cf cl n ms cs m memory_id
                created_at content data Hcl Hvd Hne Hm')
      as (m1 & Heq & _).
    rewrite Heq in Hok1, Hcl1. cbn [fst] in Hok1, Hcl1.
    cbn [save_each]. unfold bind at 1. rewrite Heq.
    match type of Hok1 with store_ok _ ?s1 =>
      destruct (IH s1 (ms ++ [mk_memory memory_id content created_at]) Hok1
                   Hp eq_refl)
        as (s' & Hrest & Hms' & Hn' & Hok' & Hfiles)
    end.
    exists s'. split; [exact Hrest|].
    split; [rewrite Hms', <- app_assoc; reflexivity|].
    split; [rewrite Hn'; cbn [client_calls length]; lia|].
    split; [exact Hok'|]. intros _.
    destruct rest as [|item rest'].
    + cbn in Hrest. injection Hrest as <-. cbn. split; reflexivity.
    + apply Hfiles. discriminate.
Qed.

Lemma steady_client_answers : provider_answers 2 steady_client.
Proof.
  intros n texts. eexists. split; [reflexivity|].
  split; [apply length_map|].
  apply Forall_forall. intros v Hv. apply in_map_iff in Hv.
  destruct Hv as (? & <- & _). reflexivity.
Qed.

Lemma save_each_appends_witness :
  let s := mk_manager None None steady_client 0 (Some []) (Some [])
                      (Some (zeros0 EMBEDDING_DIM)) in
  let items := [ (lit "A", lit "t1", lit "alpha");
                 (lit "B", lit "t2", lit "beta") ] in
  exists s',
    save_each items s = (s', Ok tt)
    /\ _memories s' = Some ([] ++ map row_of_item items)
    /\ client_calls s' = 2%nat.
Proof.
  intros s items.
  destruct (save_each_appends 2 items s [])
    as (s' & H1 & H2 & H3 & _).
  - exists [], [], (zeros0 EMBEDDING_DIM). cbn.
    repeat split; try reflexivity; [constructor|congruence].
  - exact steady_client_answers.
  - reflexivity.
  - exists s'. split; [exact H1|]. split; [exact H2|exact H3].
Defined.


(** * Further properties of the chunker *)

(** ** Sentences *)

Lemma tl_cons_head c (ps : list str) : tl (cons_head c ps) = tl ps.
Proof. destruct ps; reflexivity. Qed.

Lemma split_scan_starts s :
  forall ae,
    Forall (fun x => x = [] \/ starts_nonspace x)
           (tl (split_scan ae false s))
    /\ Forall (fun x => x = [] \/ starts_nonspace x) (split_scan ae true s).
Proof.
  induction s as [|c r IH]; intros ae.
  - cbn. split; repeat constructor.
  - split; cbn [split_scan].
    + destruct (isspace c && (false || ae)).
      * cbn [tl]. apply IH.
      * rewrite tl_cons_head. apply IH.
    + rewrite orb_true_l, andb_true_r. destruct (isspace c) eqn:Hc.
      * apply IH.
      * pose proof (proj1 (IH (sentence_end c))) as Ht.
        destruct (split_scan (sentence_end c) false r) as [|p ps]; cbn.
        -- constructor; [|constructor]. right. exists c, []. auto.
        -- constructor; [|exact Ht]. right. exists c, p. auto.
Qed.

(** X14. Every sentence after the first one is either empty or starts
    with a non-space character: the whitespace after a sentence end is
    consumed whole by the separator. *)
Theorem re_split_later_sentences text p ps :
  re_split text = p :: ps ->
  Forall (fun x => x = [] \/ starts_nonspace x) ps.
Proof.
  intros H. pose proof (proj1 (split_scan_starts text false)) as Ht.
  unfold re_split in H. rewrite H in Ht. exact Ht.
Qed.

Lemma re_split_later_sentences_witness :
  Forall (fun x => x = [] \/ starts_nonspace x)
         [lit "Two!"; lit "Three?"; lit "Four."; []].
Proof.
  apply (re_split_later_sentences
           (lit "One. Two!  Three?" ++ "010"%char :: lit " Four. ")
           (lit "One.")).
  vm_compute. reflexivity.
Defined.

Lemma split_scan_no_end s :
  Forall (fun c => sentence_end c = false) s ->
  split_scan false false s = [s].
Proof.
  induction 1 as [|c r Hc _ IH]; [reflexivity|].
  cbn [split_scan]. rewrite andb_false_r, Hc, IH. reflexivity.
Qed.

(** X15. A text longer than [chunk_size] that holds none of the
    characters [. ! ? LF] is one sentence and comes back as a single
    chunk, however long: the text stripped of surrounding whitespace, or
    the text itself when it is blank. *)
Theorem chunk_text_one_sentence text chunk_size overlap :
  Forall (fun c => sentence_end c = false) text ->
  chunk_size < len text ->
  chunk_text text chunk_size overlap
  = if truthy (strip text) then [strip text] else [text].
Proof.
  intros Hend Hlong. unfold chunk_text.
  replace (len text <=? chunk_size) with false
    by (symmetry; apply Z.leb_gt; exact Hlong).
  unfold re_split. rewrite (split_scan_no_end text Hend).
  unfold chunk_loop. cbn [fold_left]. unfold chunk_step, closes.
  cbn [truthy]. rewrite andb_false_r.
  destruct (truthy (strip text)); reflexivity.
Qed.

Lemma chunk_text_one_sentence_witness :
  chunk_text (lit "  one long line without any stop  ") 10 3
  = [lit "one long line without any stop"].
Proof.
  rewrite (chunk_text_one_sentence
             (lit "  one long line without any stop  ") 10 3).
  - reflexivity.
  - repeat constructor.
  - reflexivity.
Defined.

(** ** Shape of the chunks *)

Lemma chunk_step_trimmed chunk_size overlap st s :
  Forall trimmed (fst st) ->
  Forall trimmed (fst (chunk_step chunk_size overlap st s)).
Proof.
  destruct st as [chunks cur]. cbn [fst]. intros H. unfold chunk_step.
  destruct (closes chunk_size cur s); [|exact H].
  assert (H' : Forall trimmed (chunks ++ [strip cur])).
  { apply Forall_app. split; [exact H|].
    constructor; [apply strip_trimmed|constructor]. }
  destruct ((overlap >? 0) && (len cur >? overlap)); exact H'.
Qed.

Lemma chunk_loop_trimmed chunk_size overlap sentences :
  forall st,
    Forall trimmed (fst st) ->
    Forall trimmed (fst (chunk_loop chunk_size overlap st sentences)).
Proof.
  induction sentences as [|s rest IH]; intros st H; [exact H|].
  cbn [chunk_loop fold_left]. apply IH. apply chunk_step_trimmed. exact H.
Qed.

(** X16. Chunks carry no surrounding whitespace: every chunk that
    [chunk_text] returns is empty, or starts and ends with a non-space
    character, or is the whole text (returned as it is when it fits in
    [chunk_size] or when nothing else was produced). *)
Theorem chunk_text_chunks_trimmed text chunk_size overlap c :
  In c (chunk_text text chunk_size overlap) -> trimmed c \/ c = text.
Proof.
  unfold chunk_text. destruct (len text <=? chunk_size).
  - intros [<-|[]]. right. reflexivity.
  - pose proof (chunk_loop_trimmed chunk_size overlap (re_split text)
                  ([], []) (Forall_nil _)) as Ht.
    destruct (chunk_loop chunk_size overlap ([], []) (re_split text))
      as [chunks cur].
    cbn [fst] in Ht.
    assert (Hall : Forall trimmed
                     (if truthy (strip cur) then chunks ++ [strip cur]
                      else chunks)).
    { destruct (truthy (strip cur)); [|exact Ht].
      apply Forall_app. split; [exact Ht|].
      constructor; [apply strip_trimmed|constructor]. }
    destruct (if truthy (strip cur) then chunks ++ [strip cur] else chunks)
      as [|c0 final].
    + intros [<-|[]]. right. reflexivity.
    + intros Hin. left. rewrite Forall_forall in Hall. apply Hall, Hin.
Qed.

Lemma chunk_text_chunks_trimmed_witness :
  trimmed (lit "fox. Jumps over the lazy dog!")
  \/ lit "fox. Jumps over the lazy dog!"
     = lit "The quick brown fox. Jumps over the lazy dog! And then some more text? Yes.".
Proof.
  apply (chunk_text_chunks_trimmed
           (lit "The quick brown fox. Jumps over the lazy dog! And then some more text? Yes.")
           30 10).
  vm_compute. auto.
Defined.

(** ** Size of the chunks *)

Lemma len_nonneg {A} (l : list A) : 0 <= len l.
Proof. unfold len. lia. Qed.

Lemma len_app {A} (a b : list A) : len (a ++ b) = len a + len b.
Proof. unfold len. rewrite length_app. lia. Qed.

Lemma len_cons {A} (x : A) (l : list A) : len (x :: l) = 1 + len l.
Proof. unfold len. cbn [length]. lia. Qed.

Lemma strip_len s : len (strip s) <= len s.
Proof.
  destruct (strip_infix s) as (a & b & H). rewrite H at 2.
  rewrite !len_app. pose proof (len_nonneg a). pose proof (len_nonneg b).
  lia.
Qed.

Lemma last_chars_le k s : 0 < k -> len (last_chars k s) <= k.
Proof.
  intros Hk. unfold last_chars, len. rewrite length_skipn. lia.
Qed.

Lemma overlap_seed_len overlap cur :
  0 < overlap -> len (overlap_seed overlap cur) <= overlap.
Proof.
  intros Hov. pose proof (last_chars_le overlap cur Hov) as Ht.
  destruct (overlap_seed_cases overlap cur)
    as [(w & _ & _ & Hw)|[Hs _]]; cbn zeta in *.
  - rewrite Hw, len_app, len_cons in Ht. pose proof (len_nonneg w). lia.
  - rewrite Hs. exact Ht.
Qed.

Lemma closes_false_fits chunk_size cur s :
  closes chunk_size cur s = false -> truthy cur = true ->
  len cur + len s <= chunk_size.
Proof.
  unfold closes. intros H Ht. rewrite Ht, andb_true_r in H.
  rewrite Z.gtb_ltb in H. apply Z.ltb_ge in H. exact H.
Qed.

(** Every closed chunk and the buffer have at most [bound] characters. *)
Lemma chunk_step_bounded chunk_size overlap longest bound st s :
  chunk_size + 1 <= bound -> Z.max overlap 0 + 1 + longest <= bound ->
  len s <= longest ->
  Forall (fun c => len c <= bound) (fst st) /\ len (snd st) <= bound ->
  let st' := chunk_step chunk_size overlap st s in
  Forall (fun c => len c <= bound) (fst st') /\ len (snd st') <= bound.
Proof.
  destruct st as [chunks cur]. cbn [fst snd].
  intros Hb1 Hb2 Hs [Hchunks Hcur]. unfold chunk_step.
  destruct (closes chunk_size cur s) eqn:Hc.
  - assert (H' : Forall (fun c => len c <= bound) (chunks ++ [strip cur])).
    { apply Forall_app. split; [exact Hchunks|].
      constructor; [|constructor]. pose proof (strip_len cur). lia. }
    destruct (overlap >? 0) eqn:Hov; cbn [andb].
    + apply Z.gtb_lt in Hov.
      destruct (len cur >? overlap); cbn [fst snd]; (split; [exact H'|]).
      * rewrite len_app, len_cons.
        pose proof (overlap_seed_len overlap cur Hov). lia.
      * lia.
    + cbn [fst snd]. split; [exact H'|lia].
  - cbn [fst snd]. split; [exact Hchunks|].
    destruct (truthy cur) eqn:Ht; [|lia].
    pose proof (closes_false_fits chunk_size cur s Hc Ht).
    pose proof (strip_len (cur ++ " "%char :: s)) as Hl.
    rewrite len_app, len_cons in Hl. lia.
Qed.

Lemma chunk_loop_bounded chunk_size overlap longest bound sentences :
  chunk_size + 1 <= bound -> Z.max overlap 0 + 1 + longest <= bound ->
  Forall (fun s => len s <= longest) sentences ->
  forall st,
    Forall (fun c => len c <= bound) (fst st) /\ len (snd st) <= bound ->
    let st' := chunk_loop chunk_size overlap st sentences in
    Forall (fun c => len c <= bound) (fst st') /\ len (snd st') <= bound.
Proof.
  intros Hb1 Hb2. induction 1 as [|s rest Hs _ IH]; intros st H;
    [exact H|].
  cbn [chunk_loop fold_left]. apply IH.
  apply (chunk_step_bounded chunk_size overlap longest bound st s);
    assumption.
Qed.

(** X17. No chunk is longer than the larger of [chunk_size + 1] and
    [max(overlap, 0) + 1 + longest], where [longest] bounds the length of
    the sentences of the text, unless the chunk is the whole text.  The
    first bound exceeds the target by one: the test of line 35 does not
    count the space that joins the sentence to the buffer. *)
Theorem chunk_text_chunk_length text chunk_size overlap longest c :
  Forall (fun s => len s <= longest) (re_split text) ->
  In c (chunk_text text chunk_size overlap) ->
  len c <= Z.max (chunk_size + 1) (Z.max overlap 0 + 1 + longest)
  \/ c = text.
Proof.
  intros Hlong. unfold chunk_text. destruct (len text <=? chunk_size).
  - intros [<-|[]]. right. reflexivity.
  - set (bound := Z.max (chunk_size + 1) (Z.max overlap 0 + 1 + longest)).
    assert (Hpos : 0 <= longest).
    { pose proof (split_scan_nonempty text false false) as Hne.
      unfold re_split in Hlong.
      destruct (split_scan false false text) as [|p ps]; [congruence|].
      inversion Hlong as [|? ? Hp _]; subst.
      pose proof (len_nonneg p). lia. }
    assert (Hb1 : chunk_size + 1 <= bound) by (unfold bound; lia).
    assert (Hb2 : Z.max overlap 0 + 1 + longest <= bound)
      by (unfold bound; lia).
    match goal with
    | |- context [chunk_loop chunk_size overlap ?st0 ?ss] =>
        assert (Hinit : Forall (fun c => len c <= bound) (fst st0)
                        /\ len (snd st0) <= bound)
          by (cbn; split; [constructor|unfold len; cbn; lia]);
        pose proof (chunk_loop_bounded chunk_size overlap longest bound ss
                      Hb1 Hb2 Hlong st0 Hinit) as Hb;
        cbn zeta in Hb; revert Hb;
        destruct (chunk_loop chunk_size overlap st0 ss) as [chunks cur]
    end.
    cbn [fst snd]. intros [Hchunks Hcur].
    match goal with
    | |- In c (match ?x with [] => _ | _ :: _ => _ end) -> _ =>
        assert (Hall : Forall (fun c => len c <= bound) x);
        [|destruct x as [|c0 final]]
    end.
    + destruct (truthy (strip cur)); [|exact Hchunks].
      apply Forall_app. split; [exact Hchunks|].
      constructor; [|constructor]. pose proof (strip_len cur). lia.
    + intros [<-|[]]. right. reflexivity.
    + intros Hin. left. rewrite Forall_forall in Hall. apply Hall, Hin.
Qed.

Lemma chunk_text_chunk_length_witness :
  chunk_text (lit "ab. cd. efgh.") 6 0 = [lit "ab. cd."; lit "efgh."]
  /\ (len (lit "ab. cd.") <= Z.max (6 + 1) (Z.max 0 0 + 1 + 5)
      \/ lit "ab. cd." = lit "ab. cd. efgh.").
Proof.
  split; [vm_compute; reflexivity|].
  apply (chunk_text_chunk_length (lit "ab. cd. efgh.") 6 0 5
           (lit "ab. cd.")).
  - vm_compute. repeat constructor; discriminate.
  - vm_compute. auto.
Defined.

(** ** Chunking without overlap *)

Lemma chunk_step_partition chunk_size overlap done st s :
  overlap <= 0 ->
  concat (map words (fst st)) ++ words (snd st) = concat (map words done) ->
  let st' := chunk_step chunk_size overlap st s in
  concat (map words (fst st')) ++ words (snd st')
  = concat (map words (done ++ [s])).
Proof.
  destruct st as [chunks cur]. cbn [fst snd]. intros Hov H.
  assert (Hdone : concat (map words (done ++ [s]))
                  = concat (map words done) ++ words s).
  { rewrite map_app. cbn [map]. apply concat_snoc. }
  rewrite Hdone, <- H. unfold chunk_step.
  replace (overlap >? 0) with false
    by (symmetry; rewrite Z.gtb_ltb; apply Z.ltb_ge; lia).
  cbn [andb]. destruct (closes chunk_size cur s); cbn [fst snd].
  - rewrite map_app. cbn [map]. rewrite concat_snoc, words_strip.
    reflexivity.
  - destruct (truthy cur) eqn:Ht.
    + rewrite words_strip, words_app_sep by reflexivity.
      rewrite app_assoc. reflexivity.
    + apply truthy_false in Ht. subst cur. cbn [words].
      rewrite app_nil_r. reflexivity.
Qed.

Lemma chunk_loop_partition chunk_size overlap sentences :
  overlap <= 0 ->
  forall done st,
    concat (map words (fst st)) ++ words (snd st)
    = concat (map words done) ->
    let st' := chunk_loop chunk_size overlap st sentences in
    concat (map words (fst st')) ++ words (snd st')
    = concat (map words (done ++ sentences)).
Proof.
  intros Hov. induction sentences as [|s rest IH]; intros done st H.
  - cbn. rewrite app_nil_r. exact H.
  - cbn [chunk_loop fold_left].
    replace (done ++ s :: rest) with ((done ++ [s]) ++ rest)
      by (rewrite <- app_assoc; reflexivity).
    apply IH. apply chunk_step_partition; assumption.
Qed.

(** X18. Without overlap ([overlap <= 0]) the chunks partition the text:
    the words of the chunks, read in order, are exactly the words of the
    text, none missing and none repeated. *)
Theorem chunk_text_partitions_words text chunk_size overlap :
  overlap <= 0 ->
  concat (map words (chunk_text text chunk_size overlap)) = words text.
Proof.
  intros Hov. unfold chunk_text. destruct (len text <=? chunk_size).
  - cbn. apply app_nil_r.
  - pose proof (chunk_loop_partition chunk_size overlap (re_split text) Hov
                  [] ([], []) eq_refl) as H.
    cbn [app] in H. rewrite words_re_split in H.
    destruct (chunk_loop chunk_size overlap ([], []) (re_split text))
      as [chunks cur].
    cbn [fst snd] in H.
    assert (Hfinal : concat (map words
                       (if truthy (strip cur) then chunks ++ [strip cur]
                        else chunks)) = words text).
    { destruct (truthy (strip cur)) eqn:Ht.
      - rewrite map_app. cbn [map]. rewrite concat_snoc, words_strip.
        exact H.
      - apply truthy_false in Ht. rewrite <- words_strip, Ht in H.
        cbn [words] in H. rewrite app_nil_r in H. exact H. }
    destruct (if truthy (strip cur) then chunks ++ [strip cur] else chunks)
      as [|c0 final].
    + cbn. apply app_nil_r.
    + exact Hfinal.
Qed.

Lemma chunk_text_partitions_words_witness :
  concat (map words (chunk_text (lit "ab. cd. efgh.") 6 0))
  = [lit "ab."; lit "cd."; lit "efgh."].
Proof.
  rewrite (chunk_text_partitions_words (lit "ab. cd. efgh.") 6 0).
  - reflexivity.
  - lia.
Defined.

(** * Further properties: failures, integrity, ties *)

(** X19. Whenever [save] raises the error of the embedding service,
    whatever the state it started from: neither file has been written,
    the chunk table and the matrix are as loaded, one call to the service
    has been counted, and the cached memory table is the loaded one
    followed by the row of the memory that was not saved. *)
Theorem save_provider_error_effects s memory_id created_at content s' :
  save memory_id created_at content s = (s', Raise EmbeddingProviderError) ->
  memories_file s' = memories_file s
  /\ chunks_file s' = chunks_file s
  /\ _chunks s' = _chunks (view s)
  /\ _chunk_embeddings s' = _chunk_embeddings (view s)
  /\ client_calls s' = S (client_calls s)
  /\ _memories s'
     = Some (or_empty (_memories (view s))
             ++ [mk_memory memory_id content created_at]).
Proof.
  unfold save, view. unfold bind at 1.
  destruct (_load s) as [s1 r1] eqn:Hload.
  destruct (load_frame _ _ _ Hload) as (Hmf & Hcf & _ & Hn).
  rewrite <- Hmf, <- Hcf, <- Hn. cbn [fst].
  destruct r1 as [[]|e].
  - clear Hload Hmf Hcf Hn.
    destruct s1 as [mf cf cl n oms ocs om]. run_monad.
    repeat (break_inner; cbn); intros H; try discriminate;
      inversion H; subst; cbn; repeat split.
  - intros [= <- ->]. exfalso.
    (* [_load] only raises [ValueError] *)
    destruct s as [mf cf cl n oms ocs om]. revert Hload. run_monad.
    repeat (break_inner; cbn); intros H; discriminate.
Qed.

Lemma save_provider_error_effects_witness :
  _memories (fst (save (lit "D") (lit "t4") (lit "delta") demo_store))
  = Some (or_empty (_memories (view demo_store)) ++ [aborted_row])
  /\ memories_file (fst (save (lit "D") (lit "t4") (lit "delta") demo_store))
     = memories_file demo_store.
Proof.
  destruct (save_provider_error_effects demo_store (lit "D") (lit "t4")
              (lit "delta")
              (fst (save (lit "D") (lit "t4") (lit "delta") demo_store)))
    as (Hmf & _ & _ & _ & _ & Hms).
  - vm_compute. reflexivity.
  - split; [exact Hms|exact Hmf].
Defined.

(** X20. The foreign key of the chunk table is kept: after at least one
    [save] or [delete] on a fresh manager (whose files, if any, respect
    the key and hold vectors of the service's dimension), whatever the
    calls return or raise, every chunk row carries the id of some memory
    row. *)
Theorem chunk_rows_have_owner d mf cf cl o ops :
  provider_ok d cl -> dim_ok d (or_empty cf) ->
  references_ok (or_empty mf) (or_empty cf) ->
  exists ms cs,
    _memories (run (o :: ops) (init mf cf cl)) = Some ms
    /\ _chunks (run (o :: ops) (init mf cf cl)) = Some cs
    /\ forall c, In c cs -> In (c_memory_id c) (map m_id ms).
Proof.
  intros Hp Hd Href.
  destruct (run_from_init d mf cf cl o ops Hp Hd Href)
    as (_ & (ms & cs & Hms & Hcs & Hr) & _).
  exists ms, cs. auto.
Qed.

Lemma chunk_rows_have_owner_witness :
  exists ms cs,
    _memories (run demo_ops (init None None demo_client)) = Some ms
    /\ _chunks (run demo_ops (init None None demo_client)) = Some cs
    /\ forall c, In c cs -> In (c_memory_id c) (map m_id ms).
Proof.
  apply (chunk_rows_have_owner 2 None None demo_client
           (Save (lit "A") (lit "t1") (lit "alpha"))
           [ Save (lit "B") (lit "t2") (lit "beta");
             Delete (lit "A");
             Save (lit "C") (lit "t3") (lit "gamma") ]).
  - exact demo_client_ok.
  - constructor.
  - intros c [].
Defined.

(** ** Ties *)

Lemma descending_strict l :
  StronglySorted descending l -> NoDup l -> distinct_scores l ->
  StronglySorted (fun a b => (snd b < snd a)%Q) l.
Proof.
  induction 1 as [|x l Hs IH Hf]; intros Hnd Hdist; constructor.
  - apply IH.
    + inversion Hnd; assumption.
    + intros a b Ha Hb. apply Hdist; right; assumption.
  - inversion Hnd as [|? ? Hx _]; subst.
    rewrite Forall_forall in *. intros y Hy.
    destruct (Qle_lt_or_eq _ _ (Hf y Hy)) as [Hlt|Heq]; [exact Hlt|].
    exfalso. apply Hx.
    rewrite (Hdist x y (or_introl eq_refl) (or_intror Hy) (Qeq_sym _ _ Heq)).
    exact Hy.
Qed.

Lemma groups_nodup seen g : groups_of seen g -> NoDup g.
Proof.
  intros (Hnd & _). exact (NoDup_map_inv fst g Hnd).
Qed.

Lemma sorts_agree sort_values sort_values' seen g :
  sorts_descending sort_values -> sorts_descending sort_values' ->
  groups_of seen g -> distinct_scores g ->
  sort_values g = sort_values' g.
Proof.
  intros [Hp Hs] [Hp' Hs'] Hg Hdist.
  apply strictly_sorted_perm_eq.
  - apply descending_strict; [apply Hs| |].
    + apply (Permutation_NoDup (Hp g)). exact (groups_nodup seen g Hg).
    + intros a b Ha Hb. apply Hdist;
        eapply Permutation_in; try eassumption;
        apply Permutation_sym, Hp.
  - apply Hs'.
  - eapply Permutation_trans; [apply Permutation_sym, Hp|apply Hp'].
Qed.

(** X21. When no two memories reach the same best score, the list
    [search] returns does not depend on how the sort orders equal
    scores: any two sorts that put the rows in non-increasing order give
    the same result. *)
Theorem search_independent_of_ties sort_values sort_values' d s s1 ms cs
        query q threshold min_results :
  sorts_descending sort_values -> sorts_descending sort_values' ->
  search_ready d s s1 ms cs query q ->
  distinct_scores (groupby_max cs (map (fun c => dot (c_embedding c) q) cs)) ->
  search sort_values query threshold min_results s
  = search sort_values' query threshold min_results s.
Proof.
  intros Hsv Hsv' (Hload & Hok & Hms & Hcs & Hne & _ & (rest & Hcl) & Hq)
         Hdist.
  destruct Hok as (ms0 & cs0 & m & Hms0 & Hcs0 & Hm & Hrows & Hdim & Hcols).
  rewrite Hms in Hms0. rewrite Hcs in Hcs0.
  injection Hms0 as <-. injection Hcs0 as <-.
  unfold search at 1 2. rewrite !(after_load _ _ _ Hload).
  fold (search sort_values query threshold min_results s1).
  fold (search sort_values' query threshold min_results s1).
  destruct s1 as [mf cf cl n oms ocs om]. cbn in Hms, Hcs, Hm, Hcl.
  subst oms ocs om.
  rewrite !(search_runs _ mf cf cl n ms cs m query threshold min_results
              q rest Hne Hrows (eq_trans (Hcols Hne) (eq_sym Hq)) Hcl).
  pose proof (groupby_max_spec q cs) as Hg.
  rewrite map_map in Hg |- *.
  rewrite (sorts_agree sort_values sort_values' (scored q cs) _ Hsv Hsv'
             Hg Hdist).
  reflexivity.
Qed.

Lemma reversed_sort_values_ok :
  sorts_descending (fun l => stable_sort_values (rev l)).
Proof.
  destruct stable_sort_values_ok as [Hp Hs]. split; intros l.
  - eapply Permutation_trans; [apply Permutation_rev|apply Hp].
  - apply Hs.
Qed.

Lemma search_independent_of_ties_witness :
  search stable_sort_values (lit "query") (3 # 10) 3 demo_store
  = search (fun l => stable_sort_values (rev l)) (lit "query") (3 # 10) 3
           demo_store.
Proof.
  apply (search_independent_of_ties stable_sort_values
           (fun l => stable_sort_values (rev l))
           2 demo_store demo_store demo_memories demo_chunks (lit "query")
           [1; 0]%Q (3 # 10)%Q 3 stable_sort_values_ok
           reversed_sort_values_ok demo_search_ready).
  intros a b Ha Hb Heq. vm_compute in Ha, Hb.
  destruct Ha as [<-|[<-|[<-|[]]]]; destruct Hb as [<-|[<-|[<-|[]]]];
    try reflexivity; vm_compute in Heq; discriminate.
Defined.
